(** * ChaCha20 (src/comm/chacha20.h): a shallow embedding and its properties

    The header implements the ChaCha20 stream cipher with C arrays that are
    written in place.  The embedding keeps that shape: every C function is a
    computation in a small state-and-error monad over a store of named
    arrays, array accesses are bounds-checked (an access outside an array is
    the error [OutOfBounds]), and loops are run by a fuelled [for_loop].

    Conventions.
    - [uint32_t] and [uint8_t] values are integers of [Z]; the wrap-around of
      C's unsigned arithmetic and of narrowing assignments is written out
      with [u32] and [u8] at the place where C performs it.
    - [int] values (loop indices, lengths, round counts) are integers of [Z]
      between [INT_MIN] and [INT_MAX].  The loops up to 16, 8 and 3 and the
      round loop, which counts down from [num_rounds], stay in that range.
      The indices of [ChaCha20XOR] do not: [i + 64] and [i += 64] pass
      [INT_MAX] when [inlen > INT_MAX - 63].  C leaves the overflow of a
      signed addition undefined; the embedding writes [int32] around these
      additions, the two's complement result that the machine computes.
      Every statement that a call of [ChaCha20XOR] on [inlen] bytes
      returns has the hypothesis [inlen <= INT_MAX - 63], under which no
      addition overflows.
    - A pointer is an array name and an element offset; the arrays that are
      locals of a C function are named after the local ("x", "s", "block"). *)

From stdpp Require Import base option list gmap strings.
From Stdlib Require Import ZArith Lia.

Local Open Scope Z_scope.

(** ** Machine integers *)

Definition u32 (v : Z) : Z := v mod 2 ^ 32.
Definition u8 (v : Z) : Z := v mod 2 ^ 8.

Definition is_u32 (v : Z) : Prop := 0 <= v < 2 ^ 32.
Definition is_u8 (v : Z) : Prop := 0 <= v < 2 ^ 8.

#[global] Instance is_u32_dec (v : Z) : Decision (is_u32 v).
Proof. unfold is_u32. apply _. Defined.

#[global] Instance is_u8_dec (v : Z) : Decision (is_u8 v).
Proof. unfold is_u8. apply _. Defined.

(** [uint32_t] addition, [x + y] on two [uint32_t]. *)
Definition add32 (x y : Z) : Z := u32 (x + y).

(** [x << n] on a [uint32_t]. *)
Definition shl32 (x n : Z) : Z := u32 (Z.shiftl x n).

(** The range of [int], and the 32-bit two's complement value of an [int]
    expression whose mathematical value is [v]. *)
Definition INT_MAX : Z := 2 ^ 31 - 1.
Definition INT_MIN : Z := - 2 ^ 31.

Definition int32 (v : Z) : Z := (v + 2 ^ 31) mod 2 ^ 32 - 2 ^ 31.

(** ** The store and the monad *)

Inductive error : Type :=
  | OutOfBounds
  | OutOfFuel.

Inductive result (A : Type) : Type :=
  | Ok (a : A)
  | Err (e : error).
Arguments Ok {A} a.
Arguments Err {A} e.

(** The store maps the name of an array to its elements. *)
Abbreviation mem := (gmap string (list Z)).

Definition M (A : Type) : Type := mem -> result (A * mem).

Definition ret {A} (a : A) : M A := fun m => Ok (a, m).

Definition bind {A B} (c : M A) (k : A -> M B) : M B :=
  fun m => match c m with
           | Ok (a, m') => k a m'
           | Err e => Err e
           end.

Definition fail {A} (e : error) : M A := fun _ => Err e.

Notation "'let*' x ':=' c 'in' k" := (bind c (fun x => k))
  (at level 10, x name, c at level 100, k at level 200).
Notation "c1 ';;;' c2" := (bind c1 (fun _ => c2))
  (at level 100, c2 at level 200, right associativity).

(** A pointer: the array it points into and the element it points at. *)
Record ptr : Type := Ptr { base : string; off : Z }.

(** [p + k] of C. *)
Definition padd (p : ptr) (k : Z) : ptr := Ptr (base p) (off p + k).

(** [p[i]] as an rvalue. *)
Definition load (p : ptr) (i : Z) : M Z :=
  fun m =>
    match m !! base p with
    | Some l =>
        if 0 <=? off p + i then
          match l !! Z.to_nat (off p + i) with
          | Some v => Ok (v, m)
          | None => Err OutOfBounds
          end
        else Err OutOfBounds
    | None => Err OutOfBounds
    end.

(** [p[i] = v]. *)
Definition store (p : ptr) (i : Z) (v : Z) : M unit :=
  fun m =>
    match m !! base p with
    | Some l =>
        if (0 <=? off p + i) && (off p + i <? Z.of_nat (length l)) then
          Ok (tt, <[base p := <[Z.to_nat (off p + i) := v]> l]> m)
        else Err OutOfBounds
    | None => Err OutOfBounds
    end.

(** [memcpy(dst, src, n * sizeof *src)] on two arrays of the same element
    type that do not overlap. *)
Definition memcpy (dst src : ptr) (n : Z) : M unit :=
  fun m =>
    match m !! base src with
    | Some ls =>
        if (0 <=? off src) && (off src + n <=? Z.of_nat (length ls)) then
          let w := take (Z.to_nat n) (drop (Z.to_nat (off src)) ls) in
          match m !! base dst with
          | Some ld =>
              if (0 <=? off dst) && (off dst + n <=? Z.of_nat (length ld)) then
                Ok (tt, <[base dst := take (Z.to_nat (off dst)) ld ++ w
                                       ++ drop (Z.to_nat (off dst + n)) ld]> m)
              else Err OutOfBounds
          | None => Err OutOfBounds
          end
        else Err OutOfBounds
    | None => Err OutOfBounds
    end.

(** [for (i = i0; cond(i); i = next(i)) body(i)].  The body answers [true]
    when it leaves the loop by [break]. *)
Fixpoint for_loop (fuel : nat) (cond : Z -> bool) (next : Z -> Z)
    (body : Z -> M bool) (i : Z) : M unit :=
  match fuel with
  | O => fail OutOfFuel
  | S fuel' =>
      if cond i then
        let* brk := body i in
        if brk : bool then ret tt
        else for_loop fuel' cond next body (next i)
      else ret tt
  end.

(** A loop body without [break]. *)
Definition nobreak (c : M unit) : M bool := c ;;; ret false.

(** ** The functions of chacha20.h *)

Definition u32t8le (v : Z) (p : ptr) : M unit :=
  store p 0 (Z.land v 255) ;;;
  store p 1 (Z.land (Z.shiftr v 8) 255) ;;;
  store p 2 (Z.land (Z.shiftr v 16) 255) ;;;
  store p 3 (Z.land (Z.shiftr v 24) 255).

Definition u8t32le (p : ptr) : M Z :=
  let* p3 := load p 3 in
  let value := p3 in
  let* p2 := load p 2 in
  let value := Z.lor (shl32 value 8) p2 in
  let* p1 := load p 1 in
  let value := Z.lor (shl32 value 8) p1 in
  let* p0 := load p 0 in
  let value := Z.lor (shl32 value 8) p0 in
  ret value.

Definition rotl32 (x n : Z) : Z :=
  Z.lor (shl32 x n) (Z.shiftr x (Z.land (- n) 31)).

Definition chacha20_quarterround (x : ptr) (a b c d : Z) : M unit :=
  (let* xa := load x a in let* xb := load x b in store x a (add32 xa xb)) ;;;
  (let* xd := load x d in let* xa := load x a in
   store x d (rotl32 (Z.lxor xd xa) 16)) ;;;
  (let* xc := load x c in let* xd := load x d in store x c (add32 xc xd)) ;;;
  (let* xb := load x b in let* xc := load x c in
   store x b (rotl32 (Z.lxor xb xc) 12)) ;;;
  (let* xa := load x a in let* xb := load x b in store x a (add32 xa xb)) ;;;
  (let* xd := load x d in let* xa := load x a in
   store x d (rotl32 (Z.lxor xd xa) 8)) ;;;
  (let* xc := load x c in let* xd := load x d in store x c (add32 xc xd)) ;;;
  (let* xb := load x b in let* xc := load x c in
   store x b (rotl32 (Z.lxor xb xc) 7)).

Definition chacha20_serialize (fuel : nat) (in_ output : ptr) : M unit :=
  for_loop fuel (fun i => i <? 16) (fun i => i + 1)
    (fun i => nobreak (let* w := load in_ i in
                       u32t8le w (padd output (Z.shiftl i 2))))
    0.

Definition chacha20_block (fuel : nat) (in_ out : ptr) (num_rounds : Z)
    : M unit :=
  let x := Ptr "x" 0 in
  memcpy x in_ 16 ;;;
  for_loop fuel (fun i => 0 <? i) (fun i => i - 2)
    (fun _ => nobreak (
       chacha20_quarterround x 0 4 8 12 ;;;
       chacha20_quarterround x 1 5 9 13 ;;;
       chacha20_quarterround x 2 6 10 14 ;;;
       chacha20_quarterround x 3 7 11 15 ;;;
       chacha20_quarterround x 0 5 10 15 ;;;
       chacha20_quarterround x 1 6 11 12 ;;;
       chacha20_quarterround x 2 7 8 13 ;;;
       chacha20_quarterround x 3 4 9 14))
    num_rounds ;;;
  for_loop fuel (fun i => i <? 16) (fun i => i + 1)
    (fun i => nobreak (let* xi := load x i in
                       let* ini := load in_ i in
                       store x i (add32 xi ini)))
    0 ;;;
  chacha20_serialize fuel x out.

Definition chacha20_init_state (fuel : nat) (s key : ptr) (counter : Z)
    (nonce : ptr) : M unit :=
  store s 0 0x61707865 ;;;
  store s 1 0x3320646e ;;;
  store s 2 0x79622d32 ;;;
  store s 3 0x6b206574 ;;;
  for_loop fuel (fun i => i <? 8) (fun i => i + 1)
    (fun i => nobreak (let* w := u8t32le (padd key (i * 4)) in
                       store s (4 + i) w))
    0 ;;;
  store s 12 counter ;;;
  for_loop fuel (fun i => i <? 3) (fun i => i + 1)
    (fun i => nobreak (let* w := u8t32le (padd nonce (i * 4)) in
                       store s (13 + i) w))
    0.

(** The body of the [for (i = 0; i < inlen; i += 64)] loop of
    [ChaCha20XOR].  In the inner loop [j] runs from [i] to less than
    [i + 64], so [j++] does not overflow and [j - i] is between 0 and
    63. *)
Definition ChaCha20XOR_body (fuel : nat) (s block in_ out : ptr)
    (inlen : Z) (i : Z) : M bool :=
  nobreak (
    chacha20_block fuel s block 20 ;;;
    (let* c := load s 12 in store s 12 (add32 c 1)) ;;;
    for_loop fuel (fun j => j <? int32 (i + 64)) (fun j => int32 (j + 1))
      (fun j =>
         if inlen <=? j then ret true
         else
           let* a := load in_ j in
           let* k := load block (j - i) in
           store out j (u8 (Z.lxor a k)) ;;;
           ret false)
      i).

Definition ChaCha20XOR (fuel : nat) (key : ptr) (counter : Z)
    (nonce in_ out : ptr) (inlen : Z) : M unit :=
  let s := Ptr "s" 0 in
  let block := Ptr "block" 0 in
  chacha20_init_state fuel s key counter nonce ;;;
  for_loop fuel (fun i => i <? inlen) (fun i => int32 (i + 64))
    (ChaCha20XOR_body fuel s block in_ out inlen)
    0.

(** The public operation of the specification, section 4.6: the caller
    owns [key], [nonce] and two buffers of the length of the input, passes
    that length as the [int] argument [inlen], and reads the output buffer
    back after the call. *)
Definition cipher (fuel : nat) (key : list Z) (counter : Z) (nonce : list Z)
    (input : list Z) : result (list Z) :=
  let m : mem :=
    <["key" := key]> (<["nonce" := nonce]> (<["in" := input]>
    (<["out" := replicate (length input) 0]>
    (<["s" := replicate 16 0]> (<["block" := replicate 64 0]>
    (<["x" := replicate 16 0]> ∅)))))) in
  match ChaCha20XOR fuel (Ptr "key" 0) counter (Ptr "nonce" 0)
          (Ptr "in" 0) (Ptr "out" 0) (Z.of_nat (length input)) m with
  | Ok (_, m') => match m' !! "out" with
                  | Some o => Ok o
                  | None => Err OutOfBounds
                  end
  | Err e => Err e
  end.

(** ** What the array code computes, on lists

    [rd] and [wr] are an array read and an array write inside the bounds;
    the functions below thread a list through the same reads and writes as
    the C statements, in the same order. *)

Definition rd (l : list Z) (i : Z) : Z := l !!! Z.to_nat i.
Definition wr (l : list Z) (i : Z) (v : Z) : list Z := <[Z.to_nat i := v]> l.

Definition quarterround_list (l : list Z) (a b c d : Z) : list Z :=
  let l := wr l a (add32 (rd l a) (rd l b)) in
  let l := wr l d (rotl32 (Z.lxor (rd l d) (rd l a)) 16) in
  let l := wr l c (add32 (rd l c) (rd l d)) in
  let l := wr l b (rotl32 (Z.lxor (rd l b) (rd l c)) 12) in
  let l := wr l a (add32 (rd l a) (rd l b)) in
  let l := wr l d (rotl32 (Z.lxor (rd l d) (rd l a)) 8) in
  let l := wr l c (add32 (rd l c) (rd l d)) in
  wr l b (rotl32 (Z.lxor (rd l b) (rd l c)) 7).

Definition doubleround_list (l : list Z) : list Z :=
  let l := quarterround_list l 0 4 8 12 in
  let l := quarterround_list l 1 5 9 13 in
  let l := quarterround_list l 2 6 10 14 in
  let l := quarterround_list l 3 7 11 15 in
  let l := quarterround_list l 0 5 10 15 in
  let l := quarterround_list l 1 6 11 12 in
  let l := quarterround_list l 2 7 8 13 in
  quarterround_list l 3 4 9 14.

(** The four bytes [u32t8le] writes, and the word [u8t32le] assembles. *)
Definition word_bytes (v : Z) : list Z :=
  [Z.land v 255; Z.land (Z.shiftr v 8) 255;
   Z.land (Z.shiftr v 16) 255; Z.land (Z.shiftr v 24) 255].

Definition le_word (b0 b1 b2 b3 : Z) : Z :=
  Z.lor (shl32 (Z.lor (shl32 (Z.lor (shl32 b3 8) b2) 8) b1) 8) b0.

(** The bytes [chacha20_serialize] writes for the words [ws]. *)
Definition serialize_list (ws : list Z) : list Z :=
  concat (map word_bytes ws).

(** The number of times the round loop [for (i = n; i > 0; i -= 2)] runs
    its body. *)
Definition round_iterations (num_rounds : Z) : nat :=
  Z.to_nat ((num_rounds + 1) / 2).

(** The words and the bytes [chacha20_block] leaves in [x] and in [out]. *)
Definition block_words (st : list Z) (num_rounds : Z) : list Z :=
  zip_with add32 (Nat.iter (round_iterations num_rounds) doubleround_list st)
    st.

Definition block_bytes (st : list Z) (num_rounds : Z) : list Z :=
  serialize_list (block_words st num_rounds).

(** The quarter round of the C code on four values. *)
Definition quarterround_vals (a b c d : Z) : Z * Z * Z * Z :=
  let a := add32 a b in let d := rotl32 (Z.lxor d a) 16 in
  let c := add32 c d in let b := rotl32 (Z.lxor b c) 12 in
  let a := add32 a b in let d := rotl32 (Z.lxor d a) 8 in
  let c := add32 c d in let b := rotl32 (Z.lxor b c) 7 in
  (a, b, c, d).

(** Four words written back to their positions. *)
Definition put4 (st : list Z) (ia ib ic id : nat) (t : Z * Z * Z * Z)
    : list Z :=
  match t with
  | (a, b, c, d) => <[id := d]> (<[ic := c]> (<[ib := b]> (<[ia := a]> st)))
  end.

(** ** The block transform and the state as the specification words them

    Sections 3 and 4.1 to 4.4 of the specification, written independently
    of the array code above: a circular shift by arithmetic, the quarter
    round on four values, the double round as columns then diagonals, the
    feedforward, the little-endian serialization, word 0 first, and the
    layout of the state. *)
Module Spec.

(** 4.2: circular left shift of a 32-bit value by [n] bits. *)
Definition rotate_left32 (x n : Z) : Z :=
  (x * 2 ^ n) mod 2 ^ 32 + x / 2 ^ (32 - n).

(** 4.3: the four add-rotate-xor steps, additions modulo 2^32. *)
Definition quarter_round (a b c d : Z) : Z * Z * Z * Z :=
  let a := (a + b) mod 2 ^ 32 in let d := rotate_left32 (Z.lxor d a) 16 in
  let c := (c + d) mod 2 ^ 32 in let b := rotate_left32 (Z.lxor b c) 12 in
  let a := (a + b) mod 2 ^ 32 in let d := rotate_left32 (Z.lxor d a) 8 in
  let c := (c + d) mod 2 ^ 32 in let b := rotate_left32 (Z.lxor b c) 7 in
  (a, b, c, d).

(** The quarter round on the positions [ia ib ic id] of the state. *)
Definition quarter_round_at (st : list Z) (ia ib ic id : nat) : list Z :=
  put4 st ia ib ic id
    (quarter_round (st !!! ia) (st !!! ib) (st !!! ic) (st !!! id)).

Definition columns : list (nat * nat * nat * nat) :=
  [(0, 4, 8, 12); (1, 5, 9, 13); (2, 6, 10, 14); (3, 7, 11, 15)]%nat.

Definition diagonals : list (nat * nat * nat * nat) :=
  [(0, 5, 10, 15); (1, 6, 11, 12); (2, 7, 8, 13); (3, 4, 9, 14)]%nat.

Definition apply_group (st : list Z) (g : nat * nat * nat * nat) : list Z :=
  match g with (ia, ib, ic, id) => quarter_round_at st ia ib ic id end.

(** 4.3: a double round, the column groups and then the diagonal groups. *)
Definition double_round (st : list Z) : list Z :=
  foldl apply_group (foldl apply_group st columns) diagonals.

(** 4.1: byte [i] of a word is [(value >> (8*i)) & 0xff]. *)
Definition word_to_le_bytes (v : Z) : list Z :=
  map (fun i => Z.land (Z.shiftr v (8 * i)) 255) [0; 1; 2; 3].

(** 4.4: [roundCount / 2] double rounds on a working copy, the
    feedforward, and the serialization. *)
Definition block (st : list Z) (round_count : Z) : list Z :=
  let working := Nat.iter (Z.to_nat (round_count / 2)) double_round st in
  let sum := zip_with (fun w s => (w + s) mod 2 ^ 32) working st in
  flat_map word_to_le_bytes sum.

(** 4.1: the weighted combination of four bytes, least significant
    first. *)
Definition le_bytes_to_word (b0 b1 b2 b3 : Z) : Z :=
  b0 + 2 ^ 8 * b1 + 2 ^ 16 * b2 + 2 ^ 24 * b3.

(** The first [n] little-endian words of a byte sequence, in order. *)
Definition le_words (n : nat) (bs : list Z) : list Z :=
  map (fun i => le_bytes_to_word (bs !!! (4 * i)%nat) (bs !!! (4 * i + 1)%nat)
                  (bs !!! (4 * i + 2)%nat) (bs !!! (4 * i + 3)%nat))
    (seq 0 n).

(** The ASCII codes of "expand 32-byte k". *)
Definition constant_bytes : list Z :=
  map (fun c => Z.of_nat (Ascii.nat_of_ascii c))
    (String.list_ascii_of_string "expand 32-byte k").

(** Section 3: the layout of the sixteen-word state. *)
Definition initial_state (key : list Z) (counter : Z) (nonce : list Z)
    : list Z :=
  le_words 4 constant_bytes ++ le_words 8 key ++ [counter]
  ++ le_words 3 nonce.

End Spec.

(** A quarter round of the array code on an index group. *)
Definition quarterround_group (l : list Z) (g : nat * nat * nat * nat)
    : list Z :=
  match g with
  | (a, b, c, d) =>
      quarterround_list l (Z.of_nat a) (Z.of_nat b) (Z.of_nat c) (Z.of_nat d)
  end.

(** The memory in which [chacha20_block(in, out, n)] is called: [in] is an
    array of sixteen words, [out] has room for 64 bytes, the local [x]
    is allocated, and the three arrays are distinct. *)
Definition block_call (m : mem) (ai ao : string) (st lo : list Z) : Prop :=
  ai <> "x" /\ ao <> "x" /\ ai <> ao /\
  m !! ai = Some st /\ length st = 16%nat /\
  m !! ao = Some lo /\ (64 <= length lo)%nat /\
  exists lx, m !! "x" = Some lx /\ length lx = 16%nat.

(** The words [u8t32le] reads from consecutive groups of four bytes. *)
Definition le_word_at (bs : list Z) (i : nat) : Z :=
  le_word (bs !!! (4 * i)%nat) (bs !!! (4 * i + 1)%nat)
    (bs !!! (4 * i + 2)%nat) (bs !!! (4 * i + 3)%nat).

Definition le_words (n : nat) (bs : list Z) : list Z :=
  le_word_at bs <$> seq 0 n.

(** The state [chacha20_init_state] builds. *)
Definition sigma : list Z :=
  [0x61707865; 0x3320646e; 0x79622d32; 0x6b206574].

Definition init_words (key : list Z) (counter : Z) (nonce : list Z)
    : list Z :=
  sigma ++ le_words 8 key ++ [counter] ++ le_words 3 nonce.

(** The memory in which [chacha20_init_state(s, key, counter, nonce)] is
    called. *)
Definition init_call (m : mem) (as_ ak an : string) (key nonce : list Z)
    : Prop :=
  as_ <> ak /\ as_ <> an /\
  (exists ls, m !! as_ = Some ls /\ length ls = 16%nat) /\
  m !! ak = Some key /\ length key = 32%nat /\
  m !! an = Some nonce /\ length nonce = 12%nat.

(** ** What [ChaCha20XOR] computes

    Keystream block [t] is the block function on the state whose counter
    word is [counter + t] (as a [uint32_t]); output byte [j] is input byte
    [j] xor byte [j mod 64] of block [j / 64]. *)
Definition keystream_block (key : list Z) (counter : Z) (nonce : list Z)
    (t : nat) : list Z :=
  block_bytes (init_words key (u32 (counter + Z.of_nat t)) nonce) 20.

Definition xor_byte (key : list Z) (counter : Z) (nonce : list Z)
    (j : nat) (b : Z) : Z :=
  u8 (Z.lxor b (keystream_block key counter nonce (j / 64) !!! (j mod 64)%nat)).

Definition ChaCha20XOR_bytes (key : list Z) (counter : Z) (nonce : list Z)
    (input : list Z) : list Z :=
  imap (xor_byte key counter nonce) input.

(** The number of 64-byte blocks of an [n]-byte input, [ceil(n / 64)]. *)
Definition blocks (n : nat) : nat := ((n + 63) / 64)%nat.

(** Fuel that lets every loop of a call on [n] bytes finish. *)
Definition fuel_for (n : nat) : nat := Nat.max 65 (blocks n + 1).

(** The memory in which [ChaCha20XOR(key, counter, nonce, in, out, inlen)]
    is called: the four arrays of the caller, none of them one of the
    locals [s], [block], [x], with [in] and [out] distinct. *)
Definition xor_call (m : mem) (ak an ai ao : string)
    (key nonce input lo : list Z) : Prop :=
  (forall a, a ∈ [ak; an; ai; ao] -> a ∉ ["s"; "block"; "x"]) /\
  ai <> ao /\
  m !! ak = Some key /\ length key = 32%nat /\
  m !! an = Some nonce /\ length nonce = 12%nat /\
  m !! ai = Some input /\ m !! ao = Some lo /\
  (exists ls, m !! "s" = Some ls /\ length ls = 16%nat) /\
  (exists lb, m !! "block" = Some lb /\ length lb = 64%nat) /\
  (exists lx, m !! "x" = Some lx /\ length lx = 16%nat).

(** An array of the caller is none of the locals. *)
Definition a_not_local (a : string) : Prop :=
  a <> "s" /\ a <> "block" /\ a <> "x".

(** The invariant of the outer loop of [ChaCha20XOR] before iteration [t],
    for a call on the first [L] bytes of [input] that started in [m0] with
    the output buffer [lo]. *)
Definition xor_inv (m0 : mem) (ai ao : string) (key nonce input lo : list Z)
    (c : Z) (L : nat) (t : nat) (m : mem) : Prop :=
  let target := ChaCha20XOR_bytes key c nonce (take L input) in
  let e := Nat.min (64 * t) L in
  m !! "s" = Some (init_words key (u32 (c + Z.of_nat t)) nonce) /\
  m !! ai = Some input /\
  m !! ao = Some (take e target ++ drop e lo) /\
  (exists lb, m !! "block" = Some lb /\ length lb = 64%nat) /\
  (exists lx, m !! "x" = Some lx /\ length lx = 16%nat) /\
  (forall a, a <> "s" -> a <> "block" -> a <> "x" -> a <> ao ->
             m !! a = m0 !! a).

(** RFC 7539, appendix A.1, test vector 1: the keystream block for the
    all-zero key, the all-zero nonce and block counter 0. *)
Definition rfc7539_keystream : list Z :=
  [0x76; 0xb8; 0xe0; 0xad; 0xa0; 0xf1; 0x3d; 0x90;
   0x40; 0x5d; 0x6a; 0xe5; 0x53; 0x86; 0xbd; 0x28;
   0xbd; 0xd2; 0x19; 0xb8; 0xa0; 0x8d; 0xed; 0x1a;
   0xa8; 0x36; 0xef; 0xcc; 0x8b; 0x77; 0x0d; 0xc7;
   0xda; 0x41; 0x59; 0x7c; 0x51; 0x57; 0x48; 0x8d;
   0x77; 0x24; 0xe0; 0x3f; 0xb8; 0xd8; 0x4a; 0x37;
   0x6a; 0x43; 0xb8; 0xf4; 0x15; 0x18; 0xa1; 0x1c;
   0xc3; 0x87; 0xb6; 0x69; 0xb2; 0xee; 0x65; 0x86].

(** [x - y] on two [uint32_t]. *)
Definition sub32 (x y : Z) : Z := u32 (x - y).

(** The four steps of the quarter round undone, last step first; a right
    rotation by [n] is written as the left rotation by [32 - n]. *)
Definition quarterround_vals_inv (t : Z * Z * Z * Z) : Z * Z * Z * Z :=
  match t with
  | (a, b, c, d) =>
      let b := Z.lxor (rotl32 b 25) c in let c := sub32 c d in
      let d := Z.lxor (rotl32 d 24) a in let a := sub32 a b in
      let b := Z.lxor (rotl32 b 20) c in let c := sub32 c d in
      let d := Z.lxor (rotl32 d 16) a in let a := sub32 a b in
      (a, b, c, d)
  end.

(** The invariant of the outer loop of [ChaCha20XOR] before iteration [t]
    when [in] and [out] are the same array [a], which held [input] at the
    call. *)
Definition xor_inplace_inv (m0 : mem) (a : string) (key nonce input : list Z)
    (c : Z) (L : nat) (t : nat) (m : mem) : Prop :=
  let target := ChaCha20XOR_bytes key c nonce (take L input) in
  let e := Nat.min (64 * t) L in
  m !! "s" = Some (init_words key (u32 (c + Z.of_nat t)) nonce) /\
  m !! a = Some (take e target ++ drop e input) /\
  (exists lb, m !! "block" = Some lb /\ length lb = 64%nat) /\
  (exists lx, m !! "x" = Some lx /\ length lx = 16%nat) /\
  (forall a', a' <> "s" -> a' <> "block" -> a' <> "x" -> a' <> a ->
              m !! a' = m0 !! a').


(** ** The debug helper [hex_print]

    [hex_print] writes to the standard output with [printf].  The output
    stream is the array ["stdout"] of the store, holding the character
    codes written so far; the three calls of [printf] are written out
    after the C standard: a string without conversions is copied, and
    [%02x] prints its argument in lower-case hexadecimal, padded with
    zeros to two digits.  A null pointer is [None]. *)

Definition putchars (cs : list Z) : M unit :=
  fun m => Ok (tt, <["stdout" := default [] (m !! "stdout") ++ cs]> m).

(** The character for the hexadecimal digit [d]: ['0'] is 48 and ['a']
    is 97. *)
Definition hex_digit (d : Z) : Z := if d <? 10 then 48 + d else 87 + d.

(** The digits of [v] in base 16, most significant first; an
    [unsigned int] of 32 bits has at most eight. *)
Fixpoint hex_digits (n : nat) (v : Z) : list Z :=
  match n with
  | O => []
  | S n => if v <? 16 then [hex_digit v]
           else hex_digits n (v / 16) ++ [hex_digit (v mod 16)]
  end.

(** What [printf("%02x ", v)] writes. *)
Definition printf_02x_chars (v : Z) : list Z :=
  let ds := hex_digits 8 v in
  replicate (2 - length ds) 48 ++ ds ++ [32].

(** The characters of ["NULL"] and of the two newlines. *)
Definition NULL_chars : list Z := [78; 85; 76; 76].
Definition newlines : list Z := [10; 10].

Definition hex_print (fuel : nat) (pv : option ptr) (s len : Z) : M unit :=
  match pv with
  | None => putchars NULL_chars
  | Some p =>
      for_loop fuel (fun i => i <? len) (fun i => i + 1)
        (fun i => nobreak (let* v := load p i in
                           putchars (printf_02x_chars v)))
        s
  end ;;;
  putchars newlines.

(** Reading a dump back: the value of a hexadecimal digit, and the bytes of
    a sequence of groups of two digits and a separator. *)
Definition unhex (c : Z) : Z := if c <? 58 then c - 48 else c - 87.

Fixpoint read_hex (cs : list Z) : list Z :=
  match cs with
  | c1 :: c0 :: _ :: cs => (16 * unhex c1 + unhex c0) :: read_hex cs
  | _ => []
  end.

(** The sixteen lower-case hexadecimal digits as character codes, and the
    dump of a sequence of bytes: for each byte the digit of its high half,
    the digit of its low half and a space (code 32). *)
Definition lower_hex : list Z :=
  (fun c => Z.of_nat (Ascii.nat_of_ascii c))
    <$> String.list_ascii_of_string "0123456789abcdef".

Definition hex_dump (bs : list Z) : list Z :=
  concat ((fun b => [lower_hex !!! Z.to_nat (b / 16);
                     lower_hex !!! Z.to_nat (b mod 16); 32]) <$> bs).

(** ** The first call on which the loop index of [ChaCha20XOR] overflows

    [INT_MAX - 62] zero bytes under the zero key, nonce and counter, in
    arrays of exactly that length. *)
Definition overflow_len : Z := INT_MAX - 62.
Definition overflow_zeros : list Z := replicate (Z.to_nat overflow_len) 0.
Definition overflow_store : mem :=
  <["key" := replicate 32 0]> (<["nonce" := replicate 12 0]>
  (<["in" := overflow_zeros]> (<["out" := overflow_zeros]>
  (<["s" := replicate 16 0]> (<["block" := replicate 64 0]>
  {["x" := replicate 16 0]}))))).


(** ** Running the primitives *)

(** ** [int] arithmetic *)

Lemma int32_id (v : Z) : INT_MIN <= v <= INT_MAX -> int32 v = v.
Proof.
  unfold INT_MIN, INT_MAX, int32. intros Hv.
  rewrite Z.mod_small by lia. lia.
Qed.

Lemma int32_wrap (v : Z) :
  INT_MAX < v <= INT_MAX + 2 ^ 31 -> int32 v = v - 2 ^ 32.
Proof.
  unfold INT_MAX, int32. intros Hv.
  replace (v + 2 ^ 31) with (v - 2 ^ 31 + 1 * 2 ^ 32) by lia.
  rewrite Z.mod_add by lia. rewrite Z.mod_small by lia. lia.
Qed.


Section monad_lemmas.
Context {A B : Type}.

Lemma bind_ok (c : M A) (k : A -> M B) (m m' : mem) (a : A) :
  c m = Ok (a, m') -> bind c k m = k a m'.
Proof. intros H. unfold bind. by rewrite H. Qed.

Lemma bind_err (c : M A) (k : A -> M B) (m : mem) (e : error) :
  c m = Err e -> bind c k m = Err e.
Proof. intros H. unfold bind. by rewrite H. Qed.

End monad_lemmas.

Lemma nobreak_ok (c : M unit) (m m' : mem) :
  c m = Ok (tt, m') -> nobreak c m = Ok (false, m').
Proof. intros H. unfold nobreak. by rewrite (bind_ok _ _ _ _ _ H). Qed.

Lemma load_ok (m : mem) (a : string) (o i : Z) (l : list Z) (v : Z) :
  m !! a = Some l -> 0 <= o + i -> l !! Z.to_nat (o + i) = Some v ->
  load (Ptr a o) i m = Ok (v, m).
Proof.
  intros Hm Hi Hl. unfold load; simpl. rewrite Hm.
  destruct (Z.leb_spec 0 (o + i)); [|lia]. by rewrite Hl.
Qed.

Lemma store_ok (m : mem) (a : string) (o i : Z) (l : list Z) (v : Z) :
  m !! a = Some l -> 0 <= o + i < Z.of_nat (length l) ->
  store (Ptr a o) i v m = Ok (tt, <[a := <[Z.to_nat (o + i) := v]> l]> m).
Proof.
  intros Hm Hi. unfold store; simpl. rewrite Hm.
  destruct (Z.leb_spec 0 (o + i)); [|lia].
  destruct (Z.ltb_spec (o + i) (Z.of_nat (length l))); [|lia]. done.
Qed.

(** Reading and writing inside the array that was written last. *)
Lemma load_ins (m : mem) (a : string) (i : Z) (l : list Z) (v : Z) :
  0 <= i -> l !! Z.to_nat i = Some v ->
  load (Ptr a 0) i (<[a := l]> m) = Ok (v, <[a := l]> m).
Proof.
  intros Hi Hl. apply load_ok with (l := l); rewrite ?Z.add_0_l; auto.
  apply lookup_insert_eq.
Qed.

Lemma store_ins (m : mem) (a : string) (i : Z) (l : list Z) (v : Z) :
  0 <= i < Z.of_nat (length l) ->
  store (Ptr a 0) i v (<[a := l]> m)
  = Ok (tt, <[a := <[Z.to_nat i := v]> l]> m).
Proof.
  intros Hi. erewrite store_ok; [|apply lookup_insert_eq|by rewrite Z.add_0_l].
  by rewrite insert_insert_eq, Z.add_0_l.
Qed.

Lemma lookup_Z_lt (l : list Z) (i : Z) :
  0 <= i < Z.of_nat (length l) -> l !! Z.to_nat i = Some (l !!! Z.to_nat i).
Proof. intros Hi. apply list_lookup_lookup_total_lt. lia. Qed.

(** ** Running a loop

    A loop that visits the indices [idx 0, idx 1, ..., idx k] through the
    stores [st 0, ..., st k] and leaves at [idx k], by its condition or by
    [break], returns with any fuel above [k]. *)
Lemma for_loop_run (cond : Z -> bool) (next : Z -> Z) (body : Z -> M bool)
    (idx : nat -> Z) (st : nat -> mem) (k : nat) (i0 : Z) (m0 mfin : mem) :
  i0 = idx 0%nat -> m0 = st 0%nat ->
  (forall j, (j < k)%nat ->
     cond (idx j) = true /\ body (idx j) (st j) = Ok (false, st (S j))
     /\ next (idx j) = idx (S j)) ->
  (cond (idx k) = false /\ mfin = st k) \/
  (cond (idx k) = true /\ body (idx k) (st k) = Ok (true, mfin)) ->
  forall fuel, (k < fuel)%nat ->
  for_loop fuel cond next body i0 m0 = Ok (tt, mfin).
Proof.
  intros -> -> Hstep Hexit.
  cut (forall d j0, (j0 + d = k)%nat -> forall fuel, (d < fuel)%nat ->
         for_loop fuel cond next body (idx j0) (st j0) = Ok (tt, mfin)).
  { intros Hgen fuel Hfuel. by apply (Hgen k 0%nat). }
  induction d as [|d IH]; intros j0 Hj fuel Hfuel;
    (destruct fuel as [|fuel]; [lia|]); simpl.
  - replace j0 with k by lia.
    destruct Hexit as [[Hc ->]|[Hc Hb]]; rewrite Hc; [done|].
    by rewrite (bind_ok _ _ _ _ _ Hb).
  - destruct (Hstep j0) as (Hc & Hb & Hn); [lia|].
    rewrite Hc, (bind_ok _ _ _ _ _ Hb), Hn. apply IH; lia.
Qed.

(** ** The quarter round *)

Lemma rmw_ok (n : string) (m : mem) (l : list Z) (t u : Z)
    (f : Z -> Z -> Z) :
  0 <= t < Z.of_nat (length l) -> 0 <= u < Z.of_nat (length l) ->
  (let* xt := load (Ptr n 0) t in
   let* xu := load (Ptr n 0) u in
   store (Ptr n 0) t (f xt xu)) (<[n := l]> m)
  = Ok (tt, <[n := wr l t (f (rd l t) (rd l u))]> m).
Proof.
  intros Ht Hu.
  rewrite (bind_ok _ _ _ _ _ (load_ins m n t l _ (proj1 Ht) (lookup_Z_lt l t Ht))).
  rewrite (bind_ok _ _ _ _ _ (load_ins m n u l _ (proj1 Hu) (lookup_Z_lt l u Hu))).
  by apply store_ins.
Qed.

Lemma length_wr (l : list Z) (i v : Z) : length (wr l i v) = length l.
Proof. apply length_insert. Qed.

Lemma length_quarterround_list (l : list Z) (a b c d : Z) :
  length (quarterround_list l a b c d) = length l.
Proof. unfold quarterround_list. by rewrite !length_wr. Qed.

Lemma length_doubleround_list (l : list Z) :
  length (doubleround_list l) = length l.
Proof. unfold doubleround_list. by rewrite !length_quarterround_list. Qed.

Lemma chacha20_quarterround_run (n : string) (m : mem) (l : list Z)
    (a b c d : Z) :
  0 <= a < Z.of_nat (length l) -> 0 <= b < Z.of_nat (length l) ->
  0 <= c < Z.of_nat (length l) -> 0 <= d < Z.of_nat (length l) ->
  chacha20_quarterround (Ptr n 0) a b c d (<[n := l]> m)
  = Ok (tt, <[n := quarterround_list l a b c d]> m).
Proof.
  intros Ha Hb Hc Hd. unfold chacha20_quarterround, quarterround_list.
  repeat (erewrite bind_ok; [|apply rmw_ok; rewrite ?length_wr; assumption]).
  apply (rmw_ok n m _ b c (fun xb xc => rotl32 (Z.lxor xb xc) 7));
    rewrite ?length_wr; assumption.
Qed.

(** ** The endian codec *)

Lemma land_shiftl_small (a b n : Z) :
  0 <= n -> 0 <= b < 2 ^ n -> Z.land (Z.shiftl a n) b = 0.
Proof.
  intros Hn Hb. apply Z.bits_inj'. intros i Hi.
  rewrite Z.land_spec, Z.bits_0.
  destruct (Z.lt_ge_cases i n) as [Hlt|Hge].
  - by rewrite Z.shiftl_spec_low by lia.
  - rewrite <- (Z.mod_small b (2 ^ n)) by lia.
    rewrite Z.mod_pow2_bits_high by lia. apply andb_false_r.
Qed.

Lemma lor_shiftl_add (a b n : Z) :
  0 <= n -> 0 <= b < 2 ^ n -> Z.lor (Z.shiftl a n) b = a * 2 ^ n + b.
Proof.
  intros Hn Hb.
  rewrite <- Z.lxor_lor by (by apply land_shiftl_small).
  rewrite <- Z.add_nocarry_lxor by (by apply land_shiftl_small).
  by rewrite Z.shiftl_mul_pow2.
Qed.

Lemma lor_shl32_add (a b : Z) :
  0 <= b < 2 ^ 8 -> Z.lor (shl32 a 8) b = (a mod 2 ^ 24) * 2 ^ 8 + b.
Proof.
  intros Hb. unfold shl32, u32.
  replace (Z.shiftl a 8 mod 2 ^ 32) with (Z.shiftl (a mod 2 ^ 24) 8).
  - by apply lor_shiftl_add.
  - rewrite !Z.shiftl_mul_pow2 by lia.
    change (2 ^ 32) with (2 ^ 24 * 2 ^ 8). by rewrite Z.mul_mod_distr_r by lia.
Qed.

(** On four bytes, [le_word] is the weighted sum, least significant first. *)
Lemma le_word_sum (b0 b1 b2 b3 : Z) :
  is_u8 b0 -> is_u8 b1 -> is_u8 b2 -> is_u8 b3 ->
  le_word b0 b1 b2 b3 = b0 + 2 ^ 8 * b1 + 2 ^ 16 * b2 + 2 ^ 24 * b3.
Proof.
  unfold is_u8. intros. unfold le_word.
  rewrite (lor_shl32_add b3 b2), (Z.mod_small b3) by lia.
  rewrite (lor_shl32_add _ b1), (Z.mod_small (_ + b2)) by lia.
  rewrite (lor_shl32_add _ b0), (Z.mod_small (_ + b1)) by lia. lia.
Qed.

Ltac pow_literals :=
  change (2 ^ 8) with 256 in *; change (2 ^ 16) with 65536 in *;
  change (2 ^ 24) with 16777216 in *; change (2 ^ 32) with 4294967296 in *.

Lemma is_u8_land (v : Z) : is_u8 (Z.land v 255).
Proof.
  unfold is_u8. change 255 with (Z.ones 8). rewrite Z.land_ones by lia.
  apply Z.mod_pos_bound. lia.
Qed.

Lemma is_u32_le_word (b0 b1 b2 b3 : Z) :
  is_u8 b0 -> is_u8 b1 -> is_u8 b2 -> is_u8 b3 -> is_u32 (le_word b0 b1 b2 b3).
Proof.
  intros H0 H1 H2 H3. rewrite le_word_sum by done.
  unfold is_u8, is_u32 in *. pow_literals. lia.
Qed.

Lemma le_word_bytes (v : Z) :
  is_u32 v ->
  le_word (Z.land v 255) (Z.land (Z.shiftr v 8) 255)
    (Z.land (Z.shiftr v 16) 255) (Z.land (Z.shiftr v 24) 255) = v.
Proof.
  intros Hv. rewrite le_word_sum by apply is_u8_land.
  change 255 with (Z.ones 8).
  rewrite !Z.land_ones, !Z.shiftr_div_pow2 by lia.
  unfold is_u32 in Hv. pow_literals. Z.div_mod_to_equations. lia.
Qed.

Lemma word_bytes_le (b0 b1 b2 b3 : Z) :
  is_u8 b0 -> is_u8 b1 -> is_u8 b2 -> is_u8 b3 ->
  word_bytes (le_word b0 b1 b2 b3) = [b0; b1; b2; b3].
Proof.
  intros H0 H1 H2 H3. unfold word_bytes. rewrite le_word_sum by done.
  change 255 with (Z.ones 8).
  rewrite !Z.land_ones, !Z.shiftr_div_pow2 by lia.
  unfold is_u8 in *. pow_literals.
  repeat f_equal; Z.div_mod_to_equations; lia.
Qed.

Lemma store_ins_off (m : mem) (a : string) (o i : Z) (l : list Z) (v : Z) :
  0 <= o + i < Z.of_nat (length l) ->
  store (Ptr a o) i v (<[a := l]> m)
  = Ok (tt, <[a := <[Z.to_nat (o + i) := v]> l]> m).
Proof.
  intros Hi. erewrite store_ok; [|apply lookup_insert_eq|done].
  by rewrite insert_insert_eq.
Qed.

Lemma insert4 (l : list Z) (n : nat) (b0 b1 b2 b3 : Z) :
  (n + 4 <= length l)%nat ->
  <[(n + 3)%nat := b3]> (<[(n + 2)%nat := b2]> (<[(n + 1)%nat := b1]>
    (<[n := b0]> l)))
  = take n l ++ [b0; b1; b2; b3] ++ drop (n + 4) l.
Proof.
  revert l. induction n as [|n IH]; intros l Hl.
  - destruct l as [|x0 [|x1 [|x2 [|x3 l]]]]; simpl in Hl; try lia. done.
  - destruct l as [|x l]; simpl in Hl; [lia|]. simpl. f_equal. apply IH. lia.
Qed.

Lemma u32t8le_run (m : mem) (a : string) (o : Z) (l : list Z) (v : Z) :
  m !! a = Some l -> 0 <= o -> o + 4 <= Z.of_nat (length l) ->
  u32t8le v (Ptr a o) m
  = Ok (tt, <[a := take (Z.to_nat o) l ++ word_bytes v
                   ++ drop (Z.to_nat o + 4) l]> m).
Proof.
  intros Hm Ho Hl. unfold u32t8le.
  erewrite bind_ok; [|apply (store_ok _ _ _ _ l); [done|lia]].
  do 2 (erewrite bind_ok;
        [|apply store_ins_off; rewrite ?length_insert; lia]).
  rewrite store_ins_off by (rewrite ?length_insert; lia).
  do 2 f_equal. f_equal.
  replace (Z.to_nat (o + 0)) with (Z.to_nat o) by lia.
  replace (Z.to_nat (o + 1)) with (Z.to_nat o + 1)%nat by lia.
  replace (Z.to_nat (o + 2)) with (Z.to_nat o + 2)%nat by lia.
  replace (Z.to_nat (o + 3)) with (Z.to_nat o + 3)%nat by lia.
  apply insert4. lia.
Qed.

Lemma u8t32le_run (m : mem) (a : string) (o : Z) (l : list Z)
    (b0 b1 b2 b3 : Z) :
  m !! a = Some l -> 0 <= o ->
  l !! Z.to_nat (o + 0) = Some b0 -> l !! Z.to_nat (o + 1) = Some b1 ->
  l !! Z.to_nat (o + 2) = Some b2 -> l !! Z.to_nat (o + 3) = Some b3 ->
  u8t32le (Ptr a o) m = Ok (le_word b0 b1 b2 b3, m).
Proof.
  intros Hm Ho H0 H1 H2 H3. unfold u8t32le.
  rewrite (bind_ok _ _ _ _ _ (load_ok m a o 3 l b3 Hm ltac:(lia) H3)).
  rewrite (bind_ok _ _ _ _ _ (load_ok m a o 2 l b2 Hm ltac:(lia) H2)).
  rewrite (bind_ok _ _ _ _ _ (load_ok m a o 1 l b1 Hm ltac:(lia) H1)).
  by rewrite (bind_ok _ _ _ _ _ (load_ok m a o 0 l b0 Hm ltac:(lia) H0)).
Qed.

(** The bytes at [o .. o+3] of an array that has been written by
    [u32t8le]. *)
Lemma lookup_written (l : list Z) (n : nat) (bs : list Z) (i : nat) :
  (n + length bs <= length l)%nat -> (i < length bs)%nat ->
  (take n l ++ bs ++ drop (n + length bs) l) !! (n + i)%nat = bs !! i.
Proof.
  intros Hl Hi.
  rewrite lookup_app_r by (rewrite length_take; lia).
  rewrite length_take, lookup_app_l by lia. f_equal. lia.
Qed.

Lemma rewrite4 (l : list Z) (n : nat) :
  (n + 4 <= length l)%nat ->
  take n l ++ [l !!! n; l !!! (n + 1)%nat; l !!! (n + 2)%nat;
               l !!! (n + 3)%nat] ++ drop (n + 4) l = l.
Proof.
  intros Hl. rewrite <- insert4 by done.
  rewrite (list_insert_id l n), (list_insert_id l (n + 1)),
    (list_insert_id l (n + 2)), (list_insert_id l (n + 3));
    try done; apply list_lookup_lookup_total_lt; lia.
Qed.

(** C8. The endian codec is total on a four-byte buffer and its two
    functions are inverse to each other: after [u32t8le(v, p)] byte [i] of
    [p] is [(v >> (8*i)) & 0xff] and [u8t32le(p)] returns [v]; and on four
    bytes [u8t32le(p)] returns their weighted sum, least significant byte
    first, which [u32t8le] writes back as the same four bytes. *)
Theorem endian_codec_inverse (m : mem) (a : string) (o : Z) (l : list Z) :
  m !! a = Some l -> 0 <= o -> o + 4 <= Z.of_nat (length l) ->
  (forall v, is_u32 v ->
     exists m',
       u32t8le v (Ptr a o) m = Ok (tt, m') /\
       (forall i, 0 <= i < 4 ->
          load (Ptr a o) i m' = Ok (Z.land (Z.shiftr v (8 * i)) 255, m')) /\
       u8t32le (Ptr a o) m' = Ok (v, m')) /\
  ((forall i, 0 <= i < 4 -> is_u8 (rd l (o + i))) ->
     exists w,
       u8t32le (Ptr a o) m = Ok (w, m) /\ is_u32 w /\
       w = rd l o + 2 ^ 8 * rd l (o + 1) + 2 ^ 16 * rd l (o + 2)
           + 2 ^ 24 * rd l (o + 3) /\
       u32t8le w (Ptr a o) m = Ok (tt, m)).
Proof.
  intros Hm Ho Hl. split.
  - intros v Hv. eexists. split; [by apply u32t8le_run with (l := l)|].
    set (l' := take (Z.to_nat o) l ++ word_bytes v ++ drop (Z.to_nat o + 4) l).
    assert (Hbyte : forall i, 0 <= i < 4 ->
              l' !! Z.to_nat (o + i) = word_bytes v !! Z.to_nat i).
    { intros i Hi.
      replace (Z.to_nat (o + i)) with (Z.to_nat o + Z.to_nat i)%nat by lia.
      apply (lookup_written l (Z.to_nat o) (word_bytes v)); simpl; lia. }
    split.
    + intros i Hi. apply load_ok with (l := l'); [apply lookup_insert_eq|lia|].
      assert (i = 0 \/ i = 1 \/ i = 2 \/ i = 3) as [-> | [-> | [-> | ->]]] by lia.
      * by rewrite Hbyte by lia.
      * by rewrite Hbyte by lia.
      * by rewrite Hbyte by lia.
      * by rewrite Hbyte by lia.
    + rewrite <- (le_word_bytes v Hv) at 1.
      apply u8t32le_run with (l := l'); [apply lookup_insert_eq|done|..].
      * by rewrite Hbyte by lia.
      * by rewrite Hbyte by lia.
      * by rewrite Hbyte by lia.
      * by rewrite Hbyte by lia.
  - intros Hb.
    pose proof (Hb 0 ltac:(lia)) as H0. pose proof (Hb 1 ltac:(lia)) as H1.
    pose proof (Hb 2 ltac:(lia)) as H2. pose proof (Hb 3 ltac:(lia)) as H3.
    rewrite Z.add_0_r in H0.
    exists (le_word (rd l o) (rd l (o + 1)) (rd l (o + 2)) (rd l (o + 3))).
    split; [|split; [by apply is_u32_le_word|split; [by apply le_word_sum|]]].
    + apply u8t32le_run with (l := l); try done; unfold rd;
        rewrite ?Z.add_0_r; apply lookup_Z_lt; lia.
    + rewrite u32t8le_run with (l := l) by done.
      rewrite word_bytes_le by done. unfold rd.
      replace (Z.to_nat (o + 1)) with (Z.to_nat o + 1)%nat by lia.
      replace (Z.to_nat (o + 2)) with (Z.to_nat o + 2)%nat by lia.
      replace (Z.to_nat (o + 3)) with (Z.to_nat o + 3)%nat by lia.
      rewrite rewrite4 by lia. by rewrite insert_id.
Qed.

Lemma endian_codec_inverse_witness :
  exists m' : mem,
    u32t8le 0x12345678 (Ptr "p" 0) {["p" := [0; 0; 0; 0]]} = Ok (tt, m') /\
    load (Ptr "p" 0) 0 m' = Ok (0x78, m') /\
    u8t32le (Ptr "p" 0) m' = Ok (0x12345678, m').
Proof.
  destruct (endian_codec_inverse {["p" := [0; 0; 0; 0]]} "p" 0 [0; 0; 0; 0])
    as [Hw _]; [reflexivity|lia|simpl; lia|].
  destruct (Hw 0x12345678) as (m' & Hrun & Hbytes & Hback);
    [unfold is_u32; lia|].
  exists m'. split; [exact Hrun|]. split; [|exact Hback].
  exact (Hbytes 0 ltac:(lia)).
Defined.

(** ** Serialization *)

Lemma length_word_bytes (v : Z) : length (word_bytes v) = 4%nat.
Proof. done. Qed.

Lemma length_serialize_list (ws : list Z) :
  length (serialize_list ws) = (4 * length ws)%nat.
Proof.
  unfold serialize_list. induction ws as [|w ws IH]; [done|].
  simpl in *. rewrite IH. lia.
Qed.

Lemma serialize_list_snoc (ws : list Z) (w : Z) :
  serialize_list (ws ++ [w]) = serialize_list ws ++ word_bytes w.
Proof.
  unfold serialize_list. by rewrite map_app, concat_app.
Qed.

Lemma chacha20_serialize_run (fuel : nat) (m : mem) (ai ao : string)
    (ws lo : list Z) :
  ai <> ao -> m !! ai = Some ws -> length ws = 16%nat ->
  m !! ao = Some lo -> (64 <= length lo)%nat -> (16 < fuel)%nat ->
  chacha20_serialize fuel (Ptr ai 0) (Ptr ao 0) m
  = Ok (tt, <[ao := serialize_list ws ++ drop 64 lo]> m).
Proof.
  intros Hne Hi Hws Ho Hlo Hfuel. unfold chacha20_serialize.
  set (st := fun j : nat =>
         <[ao := serialize_list (take j ws) ++ drop (4 * j) lo]> m).
  apply (for_loop_run _ _ _ Z.of_nat st 16); [done| | | |done].
  - unfold st. simpl. by rewrite drop_0, insert_id.
  - intros j Hj. split; [apply Z.ltb_lt; lia|]. split; [|lia].
    destruct (lookup_lt_is_Some_2 ws j) as [w Hw]; [lia|].
    apply nobreak_ok.
    erewrite bind_ok;
      [|apply load_ok with (l := ws);
        [unfold st; by rewrite lookup_insert_ne|lia|
         by rewrite Z.add_0_l, Nat2Z.id]].
    unfold padd; simpl. rewrite Z.shiftl_mul_pow2 by lia.
    unfold st at 1. rewrite u32t8le_run
      with (l := serialize_list (take j ws) ++ drop (4 * j) lo);
      [|apply lookup_insert_eq|lia|
       rewrite length_app, length_serialize_list, length_take, length_drop;
       lia].
    unfold st. rewrite insert_insert_eq. do 2 f_equal. f_equal.
    replace (Z.to_nat (0 + Z.of_nat j * 2 ^ 2)) with (4 * j)%nat by lia.
    assert (Hlen : length (serialize_list (take j ws)) = (4 * j)%nat).
    { rewrite length_serialize_list, length_take. lia. }
    rewrite take_app_length' by done.
    rewrite drop_app_ge by lia. rewrite Hlen, drop_drop.
    rewrite (take_S_r _ _ _ Hw), serialize_list_snoc, <- app_assoc.
    do 3 f_equal. lia.
  - left. split; [apply Z.ltb_ge; lia|].
    unfold st. by rewrite take_ge by lia.
Qed.

(** ** The block function *)

Lemma memcpy_run (m : mem) (ad as_ : string) (ld ls : list Z) :
  m !! as_ = Some ls -> length ls = 16%nat ->
  m !! ad = Some ld -> length ld = 16%nat ->
  memcpy (Ptr ad 0) (Ptr as_ 0) 16 m = Ok (tt, <[ad := ls]> m).
Proof.
  intros Hs Hls Hd Hld. unfold memcpy; simpl. rewrite Hs, Hd, Hls, Hld. simpl.
  do 2 f_equal. f_equal.
  rewrite (drop_ge ld) by lia. rewrite app_nil_r.
  apply take_ge. lia.
Qed.

Lemma doubleround_run (m : mem) (l : list Z) :
  length l = 16%nat ->
  (chacha20_quarterround (Ptr "x" 0) 0 4 8 12 ;;;
   chacha20_quarterround (Ptr "x" 0) 1 5 9 13 ;;;
   chacha20_quarterround (Ptr "x" 0) 2 6 10 14 ;;;
   chacha20_quarterround (Ptr "x" 0) 3 7 11 15 ;;;
   chacha20_quarterround (Ptr "x" 0) 0 5 10 15 ;;;
   chacha20_quarterround (Ptr "x" 0) 1 6 11 12 ;;;
   chacha20_quarterround (Ptr "x" 0) 2 7 8 13 ;;;
   chacha20_quarterround (Ptr "x" 0) 3 4 9 14) (<["x" := l]> m)
  = Ok (tt, <["x" := doubleround_list l]> m).
Proof.
  intros Hl. unfold doubleround_list.
  repeat (erewrite bind_ok;
          [|apply chacha20_quarterround_run;
            rewrite ?length_quarterround_list, Hl; lia]).
  apply chacha20_quarterround_run;
    rewrite ?length_quarterround_list, Hl; lia.
Qed.

Lemma length_rounds (n : nat) (l : list Z) :
  length (Nat.iter n doubleround_list l) = length l.
Proof.
  induction n as [|n IH]; [done|].
  rewrite Nat.iter_succ. by rewrite length_doubleround_list.
Qed.

(** One more element of [new] written over [old]. *)
Lemma fill_step (new old : list Z) (j : nat) (v : Z) :
  (j < length old)%nat -> new !! j = Some v ->
  <[j := v]> (take j new ++ drop j old) = take (S j) new ++ drop (S j) old.
Proof.
  intros Hold Hnew.
  assert (Hj : length (take j new) = j).
  { rewrite length_take. apply lookup_lt_Some in Hnew. lia. }
  rewrite insert_app_r_alt by lia. rewrite Hj, Nat.sub_diag.
  destruct (lookup_lt_is_Some_2 old j Hold) as [y Hy].
  rewrite (drop_S _ _ _ Hy). simpl.
  by rewrite (take_S_r _ _ _ Hnew), <- app_assoc.
Qed.

Lemma lookup_filled (new old : list Z) (j : nat) :
  (j <= length new)%nat ->
  (take j new ++ drop j old) !! j = old !! j.
Proof.
  intros Hj. rewrite lookup_app_r by (rewrite length_take; lia).
  rewrite length_take, lookup_drop. f_equal. lia.
Qed.

Lemma round_iterations_lt (num_rounds : Z) (j : nat) :
  (j < round_iterations num_rounds)%nat -> 0 < num_rounds - 2 * Z.of_nat j.
Proof.
  unfold round_iterations. intros Hj.
  pose proof (Z.div_mod (num_rounds + 1) 2 ltac:(lia)).
  pose proof (Z.mod_pos_bound (num_rounds + 1) 2 ltac:(lia)). lia.
Qed.

Lemma round_iterations_ge (num_rounds : Z) :
  num_rounds - 2 * Z.of_nat (round_iterations num_rounds) <= 0.
Proof.
  unfold round_iterations.
  pose proof (Z.div_mod (num_rounds + 1) 2 ltac:(lia)).
  pose proof (Z.mod_pos_bound (num_rounds + 1) 2 ltac:(lia)). lia.
Qed.

Lemma chacha20_block_run (fuel : nat) (m : mem) (ai ao : string)
    (st lo lx : list Z) (num_rounds : Z) :
  ai <> "x" -> ao <> "x" -> ai <> ao ->
  m !! ai = Some st -> length st = 16%nat ->
  m !! ao = Some lo -> (64 <= length lo)%nat ->
  m !! "x" = Some lx -> length lx = 16%nat ->
  (16 < fuel)%nat -> (round_iterations num_rounds < fuel)%nat ->
  chacha20_block fuel (Ptr ai 0) (Ptr ao 0) num_rounds m
  = Ok (tt, <[ao := block_bytes st num_rounds ++ drop 64 lo]>
              (<["x" := block_words st num_rounds]> m)).
Proof.
  intros Hix Hox Hio Hi Hst Ho Hlo Hx Hlx Hfuel Hrounds.
  unfold chacha20_block.
  rewrite (bind_ok _ _ _ _ _ (memcpy_run m "x" ai lx st Hi Hst Hx Hlx)).
  (* the rounds *)
  set (k := round_iterations num_rounds).
  set (w := Nat.iter k doubleround_list st).
  erewrite bind_ok; cycle 1.
  { apply (for_loop_run _ _ _ (fun j => num_rounds - 2 * Z.of_nat j)
             (fun j => <["x" := Nat.iter j doubleround_list st]> m) k
             _ _ (<["x" := w]> m)); [cbn beta; lia|done| | |done].
    - intros j Hj.
      split; [apply Z.ltb_lt; by apply round_iterations_lt|]. split; [|lia].
      apply nobreak_ok. apply doubleround_run. by rewrite length_rounds.
    - left. split; [|done]. apply Z.ltb_ge, round_iterations_ge. }
  (* the feedforward *)
  assert (Hw : length w = 16%nat) by (unfold w; by rewrite length_rounds).
  set (y := zip_with add32 w st).
  assert (Hy : length y = 16%nat).
  { unfold y. rewrite length_zip_with. lia. }
  erewrite bind_ok; cycle 1.
  { apply (for_loop_run _ _ _ Z.of_nat
             (fun j => <["x" := take j y ++ drop j w]> m) 16
             _ _ (<["x" := y]> m)); [done|by rewrite drop_0| | |done].
    - intros j Hj. split; [apply Z.ltb_lt; lia|]. split; [|lia].
      destruct (lookup_lt_is_Some_2 w j) as [wj Hwj]; [lia|].
      destruct (lookup_lt_is_Some_2 st j) as [sj Hsj]; [lia|].
      apply nobreak_ok.
      erewrite bind_ok;
        [|apply load_ins; [lia|rewrite Nat2Z.id, lookup_filled by lia; done]].
      erewrite bind_ok;
        [|apply load_ok with (l := st);
          [by rewrite lookup_insert_ne|lia|by rewrite Z.add_0_l, Nat2Z.id]].
      rewrite store_ins
        by (rewrite length_app, length_take, length_drop; lia).
      rewrite Nat2Z.id. do 2 f_equal. f_equal.
      apply fill_step; [lia|].
      unfold y. rewrite lookup_zip_with, Hwj. simpl. by rewrite Hsj.
    - left. split; [apply Z.ltb_ge; lia|].
      by rewrite take_ge, drop_ge, app_nil_r by lia. }
  (* the serialization *)
  rewrite (chacha20_serialize_run fuel _ "x" ao y lo);
    [|done|apply lookup_insert_eq|done|by rewrite lookup_insert_ne|done|done].
  reflexivity.
Qed.

(** ** The array code against the specification's block transform *)

Create HintDb u32 discriminated.

Lemma is_u32_add32 (x y : Z) : is_u32 (add32 x y).
Proof. unfold is_u32, add32, u32. apply Z.mod_pos_bound. lia. Qed.

Lemma log2_u32 (x : Z) : is_u32 x -> Z.log2 x < 32.
Proof.
  unfold is_u32. intros Hx. destruct (Z.eq_dec x 0) as [->|Hne]; [done|].
  apply Z.log2_lt_pow2; lia.
Qed.

Lemma u32_log2 (x : Z) : 0 <= x -> Z.log2 x < 32 -> is_u32 x.
Proof.
  unfold is_u32. intros Hx Hlog. split; [done|].
  destruct (Z.eq_dec x 0) as [->|Hne]; [lia|].
  apply Z.log2_lt_pow2; lia.
Qed.

Lemma is_u32_lxor (x y : Z) : is_u32 x -> is_u32 y -> is_u32 (Z.lxor x y).
Proof.
  intros Hx Hy. pose proof (log2_u32 x Hx). pose proof (log2_u32 y Hy).
  unfold is_u32 in Hx, Hy. apply u32_log2.
  - apply Z.lxor_nonneg. lia.
  - pose proof (Z.log2_lxor x y ltac:(lia) ltac:(lia)). lia.
Qed.

Lemma is_u32_lor (x y : Z) : is_u32 x -> is_u32 y -> is_u32 (Z.lor x y).
Proof.
  intros Hx Hy. pose proof (log2_u32 x Hx). pose proof (log2_u32 y Hy).
  unfold is_u32 in Hx, Hy. apply u32_log2.
  - apply Z.lor_nonneg. lia.
  - rewrite Z.log2_lor by lia. lia.
Qed.

Lemma is_u32_shiftr (x k : Z) : is_u32 x -> 0 <= k -> is_u32 (Z.shiftr x k).
Proof.
  unfold is_u32. intros Hx Hk. rewrite Z.shiftr_div_pow2 by done.
  assert (0 < 2 ^ k) by (apply Z.pow_pos_nonneg; lia).
  split; [apply Z.div_pos; lia|].
  apply Z.div_lt_upper_bound; nia.
Qed.

Lemma is_u32_rotl32 (x n : Z) : is_u32 x -> is_u32 (rotl32 x n).
Proof.
  intros Hx. unfold rotl32. apply is_u32_lor.
  - unfold shl32, u32, is_u32. apply Z.mod_pos_bound. lia.
  - apply is_u32_shiftr; [done|]. apply Z.land_nonneg. lia.
Qed.

#[local] Hint Resolve is_u32_add32 is_u32_lxor is_u32_rotl32 : u32.

(** The C expression [x << n | (x >> (-n & 31))] is the circular shift. *)
Lemma rotl32_rotate_left (x n : Z) :
  is_u32 x -> 0 < n < 32 -> rotl32 x n = Spec.rotate_left32 x n.
Proof.
  intros Hx Hn. unfold rotl32, Spec.rotate_left32, shl32, u32.
  assert (Hk : Z.land (- n) 31 = 32 - n).
  { change 31 with (Z.ones 5). rewrite Z.land_ones by lia.
    change (2 ^ 5) with 32. symmetry. apply (Z.mod_unique_pos _ _ (-1)); lia. }
  rewrite Hk.
  assert (Hdisj : Z.land (Z.shiftl x n mod 2 ^ 32) (Z.shiftr x (32 - n)) = 0).
  { apply Z.bits_inj'. intros i Hi. rewrite Z.land_spec, Z.bits_0.
    destruct (Z.lt_ge_cases i n) as [Hlt|Hge].
    - rewrite Z.mod_pow2_bits_low, Z.shiftl_spec_low by lia. done.
    - rewrite Z.shiftr_spec by lia.
      rewrite <- (Z.mod_small x (2 ^ 32)) at 2 by (exact Hx).
      rewrite (Z.mod_pow2_bits_high x) by lia. apply andb_false_r. }
  rewrite <- Z.lxor_lor, <- Z.add_nocarry_lxor by done.
  by rewrite Z.shiftl_mul_pow2, Z.shiftr_div_pow2 by lia.
Qed.

Lemma is_u32_rotate_left (x n : Z) :
  is_u32 x -> 0 < n < 32 -> is_u32 (Spec.rotate_left32 x n).
Proof.
  intros Hx Hn. rewrite <- rotl32_rotate_left by done.
  by apply is_u32_rotl32.
Qed.

Lemma is_u32_mod (x : Z) : is_u32 (x mod 2 ^ 32).
Proof. apply Z.mod_pos_bound. lia. Qed.

#[local] Hint Resolve is_u32_rotate_left is_u32_mod : u32.
#[local] Hint Extern 1 (_ < _ < _) => lia : u32.

Lemma quarter_round_vals (a b c d : Z) :
  is_u32 a -> is_u32 b -> is_u32 c -> is_u32 d ->
  Spec.quarter_round a b c d = quarterround_vals a b c d.
Proof.
  intros Ha Hb Hc Hd.
  unfold Spec.quarter_round, quarterround_vals, add32, u32. cbv zeta.
  by rewrite !rotl32_rotate_left by auto 20 with u32.
Qed.

Lemma quarterround_vals_u32 (a b c d : Z) :
  is_u32 a -> is_u32 b -> is_u32 c -> is_u32 d ->
  match quarterround_vals a b c d with
  | (a', b', c', d') => is_u32 a' /\ is_u32 b' /\ is_u32 c' /\ is_u32 d'
  end.
Proof.
  intros Ha Hb Hc Hd. unfold quarterround_vals. cbv zeta.
  split; [|split; [|split]]; auto 20 with u32.
Qed.

Lemma Forall_put4 (P : Z -> Prop) (l : list Z) (ia ib ic id : nat)
    (a b c d : Z) :
  Forall P l -> P a -> P b -> P c -> P d ->
  Forall P (put4 l ia ib ic id (a, b, c, d)).
Proof. intros. unfold put4. by repeat apply Forall_insert. Qed.

Lemma length_put4 (l : list Z) (ia ib ic id : nat) (t : Z * Z * Z * Z) :
  length (put4 l ia ib ic id t) = length l.
Proof. destruct t as [[[a b] c] d]. unfold put4. by rewrite !length_insert. Qed.

(** On each of the eight index groups the reads and writes of
    [chacha20_quarterround] amount to one quarter round on four words. *)
Lemma quarterround_list_put4 (l : list Z) (a b c d : nat) :
  (a, b, c, d) ∈ Spec.columns ++ Spec.diagonals -> length l = 16%nat ->
  quarterround_list l (Z.of_nat a) (Z.of_nat b) (Z.of_nat c) (Z.of_nat d)
  = put4 l a b c d
      (quarterround_vals (l !!! a) (l !!! b) (l !!! c) (l !!! d)).
Proof.
  intros Hg Hl.
  do 16 (destruct l as [|? l]; [discriminate Hl|]).
  destruct l; [|discriminate Hl].
  unfold Spec.columns, Spec.diagonals in Hg. simpl app in Hg.
  repeat (apply elem_of_cons in Hg as [Hg|Hg];
          [injection Hg as -> -> -> ->; reflexivity|]).
  by apply elem_of_nil in Hg.
Qed.

Lemma quarterround_list_spec (l : list Z) (a b c d : nat) :
  (a, b, c, d) ∈ Spec.columns ++ Spec.diagonals ->
  length l = 16%nat -> Forall is_u32 l ->
  quarterround_list l (Z.of_nat a) (Z.of_nat b) (Z.of_nat c) (Z.of_nat d)
  = Spec.quarter_round_at l a b c d
  /\ length (Spec.quarter_round_at l a b c d) = 16%nat
  /\ Forall is_u32 (Spec.quarter_round_at l a b c d).
Proof.
  intros Hg Hl Hu.
  assert (Hlt : (a < 16 /\ b < 16 /\ c < 16 /\ d < 16)%nat).
  { unfold Spec.columns, Spec.diagonals in Hg. simpl app in Hg.
    repeat (apply elem_of_cons in Hg as [Hg|Hg];
            [injection Hg as -> -> -> ->; lia|]).
    by apply elem_of_nil in Hg. }
  destruct Hlt as (Ha & Hb & Hc & Hd).
  assert (Hget : forall i, (i < 16)%nat -> is_u32 (l !!! i)).
  { intros i Hi. apply Forall_lookup_total_1; [done|lia]. }
  unfold Spec.quarter_round_at.
  rewrite quarter_round_vals by auto.
  split; [by apply quarterround_list_put4|].
  split; [by rewrite length_put4|].
  pose proof (quarterround_vals_u32 (l !!! a) (l !!! b) (l !!! c) (l !!! d)
                (Hget a Ha) (Hget b Hb) (Hget c Hc) (Hget d Hd)) as Hv.
  destruct (quarterround_vals _ _ _ _) as [[[a' b'] c'] d'].
  destruct Hv as (? & ? & ? & ?). by apply Forall_put4.
Qed.

Lemma quarterround_groups_spec (gs : list (nat * nat * nat * nat)) :
  forall l : list Z,
  Forall (fun g => g ∈ Spec.columns ++ Spec.diagonals) gs ->
  length l = 16%nat -> Forall is_u32 l ->
  foldl quarterround_group l gs = foldl Spec.apply_group l gs
  /\ length (foldl Spec.apply_group l gs) = 16%nat
  /\ Forall is_u32 (foldl Spec.apply_group l gs).
Proof.
  induction gs as [|[[[a b] c] d] gs IH]; intros l Hgs Hl Hu; [done|].
  apply Forall_cons in Hgs as [Hg Hgs].
  destruct (quarterround_list_spec l a b c d Hg Hl Hu) as (E & L & U).
  cbn [foldl quarterround_group Spec.apply_group]. rewrite E.
  by apply IH.
Qed.

Lemma doubleround_list_spec (l : list Z) :
  length l = 16%nat -> Forall is_u32 l ->
  doubleround_list l = Spec.double_round l
  /\ length (Spec.double_round l) = 16%nat
  /\ Forall is_u32 (Spec.double_round l).
Proof.
  intros Hl Hu.
  assert (Hfold : doubleround_list l
            = foldl quarterround_group l (Spec.columns ++ Spec.diagonals)).
  { unfold doubleround_list, Spec.columns, Spec.diagonals.
    cbn [foldl app quarterround_group Z.of_nat Pos.of_succ_nat Pos.succ].
    reflexivity. }
  rewrite Hfold. unfold Spec.double_round. rewrite <- foldl_app.
  apply quarterround_groups_spec; [|done|done].
  apply Forall_forall. auto.
Qed.

Lemma rounds_spec (k : nat) (l : list Z) :
  length l = 16%nat -> Forall is_u32 l ->
  Nat.iter k doubleround_list l = Nat.iter k Spec.double_round l
  /\ length (Nat.iter k Spec.double_round l) = 16%nat
  /\ Forall is_u32 (Nat.iter k Spec.double_round l).
Proof.
  intros Hl Hu. induction k as [|k (E & L & U)]; [done|].
  rewrite !Nat.iter_succ, E. by apply doubleround_list_spec.
Qed.

Lemma round_iterations_even (r : Z) :
  0 <= r -> Z.even r = true -> round_iterations r = Z.to_nat (r / 2).
Proof.
  intros Hr He. unfold round_iterations. f_equal.
  apply Zeven_bool_iff, Zeven_ex in He as [q ->].
  rewrite (Z.mul_comm 2 q), Z.div_add_l, Z.div_mul by lia.
  change (1 / 2) with 0. lia.
Qed.

Lemma serialize_list_spec (ws : list Z) :
  serialize_list ws = flat_map Spec.word_to_le_bytes ws.
Proof.
  unfold serialize_list. induction ws as [|w ws IH]; [done|].
  simpl. by rewrite IH.
Qed.

Lemma block_bytes_spec (st : list Z) (r : Z) :
  length st = 16%nat -> Forall is_u32 st -> 0 <= r -> Z.even r = true ->
  block_bytes st r = Spec.block st r.
Proof.
  intros Hl Hu Hr He. unfold block_bytes, block_words, Spec.block.
  rewrite serialize_list_spec, (round_iterations_even r Hr He).
  by destruct (rounds_spec (Z.to_nat (r / 2)) st Hl Hu) as (-> & _ & _).
Qed.

Lemma length_block_words (st : list Z) (r : Z) :
  length st = 16%nat -> length (block_words st r) = 16%nat.
Proof.
  intros Hl. unfold block_words. rewrite length_zip_with, length_rounds. lia.
Qed.

Lemma length_block_bytes (st : list Z) (r : Z) :
  length st = 16%nat -> length (block_bytes st r) = 64%nat.
Proof.
  intros Hl. unfold block_bytes.
  by rewrite length_serialize_list, length_block_words.
Qed.

(** C3. For a state of sixteen 32-bit words and an even round count
    [r >= 0], [chacha20_block] returns and leaves in [out] the 64 bytes of
    the specification's block transform: [r / 2] double rounds (columns,
    then diagonals, each quarter round four add-rotate-xor steps with
    additions modulo 2^32 and rotations by 16, 12, 8 and 7) on a copy of
    the state, the feedforward addition of the state modulo 2^32, and the
    little-endian serialization, word 0 first. *)
Theorem chacha20_block_refines_spec (fuel : nat) (m : mem) (ai ao : string)
    (st lo : list Z) (r : Z) :
  block_call m ai ao st lo -> Forall is_u32 st ->
  0 <= r -> Z.even r = true ->
  (16 < fuel)%nat -> (Z.to_nat (r / 2) < fuel)%nat ->
  exists m',
    chacha20_block fuel (Ptr ai 0) (Ptr ao 0) r m = Ok (tt, m') /\
    m' !! ao = Some (Spec.block st r ++ drop 64 lo).
Proof.
  intros (Hix & Hox & Hio & Hi & Hst & Ho & Hlo & lx & Hx & Hlx) Hu Hr He
    Hfuel Hrounds.
  eexists. split.
  - apply chacha20_block_run with (st := st) (lo := lo) (lx := lx);
      try done. by rewrite round_iterations_even.
  - rewrite lookup_insert_eq. by rewrite block_bytes_spec.
Qed.

Lemma chacha20_block_refines_spec_witness :
  exists m' : mem,
    chacha20_block 17 (Ptr "s" 0) (Ptr "block" 0) 20
      (<["s" := init_words (replicate 32 0) 0 (replicate 12 0)]>
         (<["block" := replicate 64 0]> {["x" := replicate 16 0]}))
    = Ok (tt, m') /\
    m' !! "block"
    = Some (Spec.block (init_words (replicate 32 0) 0 (replicate 12 0)) 20
            ++ drop 64 (replicate 64 0)).
Proof.
  apply (chacha20_block_refines_spec 17 _ "s" "block" _ (replicate 64 0) 20).
  - repeat split; try done. by exists (replicate 16 0).
  - by apply (bool_decide_unpack _); vm_compute.
  - lia.
  - reflexivity.
  - lia.
  - vm_compute. lia.
Defined.

(** C9. [chacha20_block] never writes its input array: the call returns
    with the sixteen words of [in] as they were, the output is
    [block_bytes st n], a function of the state and the round count alone,
    and only [out] and the private working copy [x] have changed. *)
Theorem chacha20_block_preserves_state (fuel : nat) (m : mem)
    (ai ao : string) (st lo : list Z) (num_rounds : Z) :
  block_call m ai ao st lo ->
  (16 < fuel)%nat -> (round_iterations num_rounds < fuel)%nat ->
  exists m',
    chacha20_block fuel (Ptr ai 0) (Ptr ao 0) num_rounds m = Ok (tt, m') /\
    m' !! ai = Some st /\
    m' !! ao = Some (block_bytes st num_rounds ++ drop 64 lo) /\
    (forall a, a <> ao -> a <> "x" -> m' !! a = m !! a).
Proof.
  intros (Hix & Hox & Hio & Hi & Hst & Ho & Hlo & lx & Hx & Hlx) Hfuel Hrounds.
  eexists. split.
  - by apply chacha20_block_run with (st := st) (lo := lo) (lx := lx).
  - split; [by rewrite !lookup_insert_ne|].
    split; [by rewrite lookup_insert_eq|].
    intros a Hao Hax. by rewrite !lookup_insert_ne.
Qed.

Lemma chacha20_block_preserves_state_witness :
  exists m' : mem,
    chacha20_block 17 (Ptr "s" 0) (Ptr "block" 0) 20
      (<["s" := init_words (replicate 32 0) 7 (replicate 12 0)]>
         (<["block" := replicate 64 0]> {["x" := replicate 16 0]}))
    = Ok (tt, m') /\
    m' !! "s" = Some (init_words (replicate 32 0) 7 (replicate 12 0)).
Proof.
  destruct (chacha20_block_preserves_state 17
              (<["s" := init_words (replicate 32 0) 7 (replicate 12 0)]>
                 (<["block" := replicate 64 0]> {["x" := replicate 16 0]}))
              "s" "block" (init_words (replicate 32 0) 7 (replicate 12 0))
              (replicate 64 0) 20) as (m' & Hrun & Hs & _).
  - repeat split; try done. by exists (replicate 16 0).
  - lia.
  - vm_compute. lia.
  - exists m'. by split.
Defined.

(** ** The state initializer *)

Lemma length_le_words (n : nat) (bs : list Z) : length (le_words n bs) = n.
Proof. unfold le_words. by rewrite length_fmap, length_seq. Qed.

Lemma lookup_le_words (n : nat) (bs : list Z) (j : nat) :
  (j < n)%nat -> le_words n bs !! j = Some (le_word_at bs j).
Proof.
  intros Hj. unfold le_words. rewrite list_lookup_fmap.
  by rewrite lookup_seq_lt.
Qed.

(** The two loops of [chacha20_init_state]: [n] words read from [src] are
    written behind the words [pre] that are already in place. *)
Lemma load_words_run (fuel : nat) (m : mem) (as_ asrc : string)
    (pre old bs : list Z) (n : nat) (nz b : Z) :
  as_ <> asrc -> m !! asrc = Some bs -> (4 * n <= length bs)%nat ->
  nz = Z.of_nat n -> b = Z.of_nat (length pre) ->
  (n <= length old)%nat -> (n < fuel)%nat ->
  for_loop fuel (fun i => i <? nz) (fun i => i + 1)
    (fun i => nobreak (let* w := u8t32le (padd (Ptr asrc 0) (i * 4)) in
                       store (Ptr as_ 0) (b + i) w))
    0 (<[as_ := pre ++ old]> m)
  = Ok (tt, <[as_ := pre ++ le_words n bs ++ drop n old]> m).
Proof.
  intros Hne Hsrc Hbs -> -> Hold Hfuel.
  apply (for_loop_run _ _ _ Z.of_nat
           (fun j => <[as_ := pre ++ take j (le_words n bs) ++ drop j old]> m)
           n); [done|by rewrite drop_0| | |done].
  - intros j Hj. split; [apply Z.ltb_lt; lia|]. split; [|lia].
    apply nobreak_ok. unfold padd; simpl.
    erewrite bind_ok; cycle 1.
    { apply u8t32le_run with (l := bs);
        [by rewrite lookup_insert_ne|lia|..]; apply lookup_Z_lt; lia. }
    rewrite store_ins by (rewrite !length_app, length_take, length_drop,
                            length_le_words; lia).
    do 2 f_equal. f_equal.
    replace (Z.to_nat (Z.of_nat (length pre) + Z.of_nat j))
      with (length pre + j)%nat by lia.
    rewrite insert_app_r_alt by lia.
    replace (length pre + j - length pre)%nat with j by lia.
    f_equal. apply fill_step; [lia|].
    rewrite lookup_le_words by done. unfold le_word_at. do 2 f_equal.
    all: f_equal; lia.
  - left. split; [apply Z.ltb_ge; lia|].
    by rewrite take_ge by (rewrite length_le_words; lia).
Qed.

Lemma chacha20_init_state_run (fuel : nat) (m : mem) (as_ ak an : string)
    (ls key nonce : list Z) (counter : Z) :
  as_ <> ak -> as_ <> an ->
  m !! as_ = Some ls -> length ls = 16%nat ->
  m !! ak = Some key -> (32 <= length key)%nat ->
  m !! an = Some nonce -> (12 <= length nonce)%nat ->
  (8 < fuel)%nat ->
  chacha20_init_state fuel (Ptr as_ 0) (Ptr ak 0) counter (Ptr an 0) m
  = Ok (tt, <[as_ := init_words key counter nonce]> m).
Proof.
  intros Hsk Hsn Hs Hls Hk Hlk Hn Hln Hfuel.
  unfold chacha20_init_state.
  erewrite bind_ok; [|apply store_ok with (l := ls); [done|lia]].
  do 3 (erewrite bind_ok; [|apply store_ins; rewrite !length_insert; lia]).
  match goal with
  | |- context [<[as_ := ?l]> m] =>
      replace l with (sigma ++ drop 4 ls)
        by (symmetry; apply (insert4 ls 0); lia)
  end.
  erewrite bind_ok; cycle 1.
  { apply (load_words_run fuel m as_ ak sigma _ key 8 8 4);
      rewrite ?length_drop; simpl; try done; lia. }
  rewrite drop_drop.
  match goal with |- context [drop ?k ls] => change k with 12%nat end.
  destruct (lookup_lt_is_Some_2 ls 12) as [y Hy]; [lia|].
  rewrite (drop_S _ _ _ Hy).
  erewrite bind_ok; cycle 1.
  { apply store_ins. rewrite !length_app, length_le_words. simpl. lia. }
  match goal with
  | |- context [<[as_ := ?l]> m] =>
      replace l
        with ((sigma ++ le_words 8 key ++ [counter]) ++ drop 13 ls)
  end; cycle 1.
  { rewrite <- !app_assoc. symmetry.
    rewrite (app_assoc sigma (le_words 8 key) (y :: _)).
    rewrite insert_app_r_alt
      by (rewrite length_app, length_le_words; simpl; lia).
    rewrite length_app, length_le_words.
    replace (Z.to_nat 12 - (length sigma + 8))%nat with 0%nat
      by (simpl; lia).
    by rewrite <- app_assoc. }
  rewrite (load_words_run fuel m as_ an _ _ nonce 3 3 13);
    [|done|done|lia|done
     |rewrite !length_app, length_le_words; simpl; lia
     |rewrite length_drop; lia|lia].
  unfold init_words. rewrite drop_drop, drop_ge by lia.
  by rewrite app_nil_r, <- !app_assoc.
Qed.

Lemma le_words_spec (n : nat) (bs : list Z) :
  Forall is_u8 bs -> (4 * n <= length bs)%nat ->
  le_words n bs = Spec.le_words n bs.
Proof.
  intros Hb Hn. unfold le_words, Spec.le_words.
  apply list_fmap_ext. intros i j Hj.
  apply lookup_seq in Hj as [-> Hlt].
  apply le_word_sum; (apply Forall_lookup_total_1; [done|lia]).
Qed.

(** C7. [chacha20_init_state] returns with the state laid out as the
    specification says: the four constants, which are the little-endian
    words of the ASCII string "expand 32-byte k"; the eight little-endian
    words of the key; the counter argument; the three little-endian words
    of the nonce. *)
Theorem chacha20_init_state_layout (fuel : nat) (m : mem)
    (as_ ak an : string) (key nonce : list Z) (counter : Z) :
  init_call m as_ ak an key nonce ->
  Forall is_u8 key -> Forall is_u8 nonce -> (8 < fuel)%nat ->
  exists m',
    chacha20_init_state fuel (Ptr as_ 0) (Ptr ak 0) counter (Ptr an 0) m
    = Ok (tt, m') /\
    m' !! as_
    = Some ([0x61707865; 0x3320646e; 0x79622d32; 0x6b206574]
            ++ Spec.le_words 8 key ++ [counter] ++ Spec.le_words 3 nonce) /\
    m' !! as_ = Some (Spec.initial_state key counter nonce) /\
    (forall a, a <> as_ -> m' !! a = m !! a).
Proof.
  intros (Hsk & Hsn & (ls & Hs & Hls) & Hk & Hlk & Hn & Hln) Hkey Hnonce
    Hfuel.
  eexists. split.
  - apply chacha20_init_state_run with (ls := ls) (key := key)
      (nonce := nonce); try done; lia.
  - rewrite lookup_insert_eq. unfold init_words, sigma.
    rewrite !le_words_spec by (done || lia).
    split; [done|]. split; [done|].
    intros a Ha. by rewrite lookup_insert_ne.
Qed.

Lemma chacha20_init_state_layout_witness :
  exists m' : mem,
    chacha20_init_state 9 (Ptr "s" 0) (Ptr "key" 0) 7 (Ptr "nonce" 0)
      (<["s" := replicate 16 0]> (<["key" := seqZ 0 32]>
         {["nonce" := seqZ 100 12]}))
    = Ok (tt, m') /\
    m' !! "s"
    = Some [0x61707865; 0x3320646e; 0x79622d32; 0x6b206574;
            0x03020100; 0x07060504; 0x0b0a0908; 0x0f0e0d0c;
            0x13121110; 0x17161514; 0x1b1a1918; 0x1f1e1d1c;
            7; 0x67666564; 0x6b6a6968; 0x6f6e6d6c].
Proof.
  destruct (chacha20_init_state_layout 9
              (<["s" := replicate 16 0]> (<["key" := seqZ 0 32]>
                 {["nonce" := seqZ 100 12]}))
              "s" "key" "nonce" (seqZ 0 32) (seqZ 100 12) 7)
    as (m' & Hrun & Hs & _).
  - repeat split; try done. by exists (replicate 16 0).
  - by apply (bool_decide_unpack _); vm_compute.
  - by apply (bool_decide_unpack _); vm_compute.
  - lia.
  - exists m'. split; [exact Hrun|]. exact Hs.
Defined.

(** ** The keystream loop *)

(** The invariant form of [for_loop_run], for loops whose stores are not
    written out. *)
Lemma for_loop_inv (Inv : nat -> mem -> Prop) (cond : Z -> bool)
    (next : Z -> Z) (body : Z -> M bool) (idx : nat -> Z) (k : nat)
    (i0 : Z) (m0 : mem) :
  i0 = idx 0%nat -> Inv 0%nat m0 ->
  (forall j m, (j < k)%nat -> Inv j m ->
     cond (idx j) = true /\ next (idx j) = idx (S j) /\
     exists m', body (idx j) m = Ok (false, m') /\ Inv (S j) m') ->
  cond (idx k) = false ->
  forall fuel, (k < fuel)%nat ->
  exists m', for_loop fuel cond next body i0 m0 = Ok (tt, m') /\ Inv k m'.
Proof.
  intros -> H0 Hstep Hexit.
  cut (forall d j0 m, (j0 + d = k)%nat -> Inv j0 m ->
         forall fuel, (d < fuel)%nat ->
         exists m', for_loop fuel cond next body (idx j0) m = Ok (tt, m')
                    /\ Inv k m').
  { intros Hgen fuel Hfuel. by apply (Hgen k 0%nat m0). }
  induction d as [|d IH]; intros j0 m Hj Hinv fuel Hfuel;
    (destruct fuel as [|fuel]; [lia|]); simpl.
  - replace j0 with k in * by lia. rewrite Hexit. by exists m.
  - destruct (Hstep j0 m) as (Hc & Hn & m' & Hb & Hinv'); [lia|done|].
    rewrite Hc, (bind_ok _ _ _ _ _ Hb), Hn. apply IH; [lia|done|lia].
Qed.

(** The inner loop writes [cnt] bytes of [target] at [out + i]. *)
Lemma xor_loop_run (fuel : nat) (m : mem) (ai ao : string)
    (input blk cur target : list Z) (i : nat) (inlen : Z) (cnt : nat) :
  ai <> ao -> ao <> "block" ->
  m !! ai = Some input -> m !! "block" = Some blk -> m !! ao = Some cur ->
  Z.of_nat cnt = Z.min 64 (inlen - Z.of_nat i) ->
  (i + cnt <= length cur)%nat ->
  (forall jj, (jj < cnt)%nat ->
     exists a k, input !! (i + jj)%nat = Some a /\
                 blk !! jj = Some k /\
                 target !! (i + jj)%nat = Some (u8 (Z.lxor a k))) ->
  Z.of_nat i + 64 <= INT_MAX ->
  (64 < fuel)%nat ->
  for_loop fuel (fun j => j <? int32 (Z.of_nat i + 64))
    (fun j => int32 (j + 1))
    (fun j =>
       if inlen <=? j then ret true
       else
         let* a := load (Ptr ai 0) j in
         let* k := load (Ptr "block" 0) (j - Z.of_nat i) in
         store (Ptr ao 0) j (u8 (Z.lxor a k)) ;;;
         ret false)
    (Z.of_nat i) m
  = Ok (tt, <[ao := take i cur ++ take cnt (drop i target)
                   ++ drop (i + cnt) cur]> m).
Proof.
  intros Hio Hob Hin Hblk Hout Hcnt Hcur Hbytes Hint Hfuel.
  rewrite (int32_id (Z.of_nat i + 64)) by (unfold INT_MIN; lia).
  set (pre := take i cur).
  set (new := drop i target).
  set (old := drop i cur).
  assert (Hpre : length pre = i)
    by (unfold pre; rewrite length_take; lia).
  replace (drop (i + cnt) cur) with (drop cnt old)
    by (unfold old; by rewrite drop_drop).
  apply (for_loop_run _ _ _ (fun jj => Z.of_nat i + Z.of_nat jj)
           (fun jj => <[ao := pre ++ take jj new ++ drop jj old]> m) cnt);
    [lia| | | |lia].
  - cbn beta. rewrite drop_0. change (take 0 new ++ old) with old.
    unfold pre, old. by rewrite take_drop, insert_id.
  - intros jj Hjj. split; [apply Z.ltb_lt; lia|].
    split; [|rewrite int32_id by (unfold INT_MIN; lia); lia].
    destruct (Hbytes jj Hjj) as (a & k & Ha & Hk & Ht).
    destruct (Z.leb_spec inlen (Z.of_nat i + Z.of_nat jj)) as [Hle|_]; [lia|].
    erewrite bind_ok; cycle 1.
    { apply load_ok with (l := input); [by rewrite lookup_insert_ne|lia|].
      by replace (Z.to_nat (0 + (Z.of_nat i + Z.of_nat jj)))
        with (i + jj)%nat by lia. }
    erewrite bind_ok; cycle 1.
    { apply load_ok with (l := blk); [by rewrite lookup_insert_ne|lia|].
      by replace (Z.to_nat (0 + (Z.of_nat i + Z.of_nat jj - Z.of_nat i)))
        with jj by lia. }
    erewrite bind_ok; cycle 1.
    { apply store_ins. rewrite !length_app, length_take, length_drop, Hpre.
      unfold old, new. rewrite !length_drop.
      apply lookup_lt_Some in Ht. lia. }
    unfold ret. do 2 f_equal. f_equal.
    replace (Z.to_nat (Z.of_nat i + Z.of_nat jj))
      with (length pre + jj)%nat by lia.
    rewrite insert_app_r_alt by lia.
    replace (length pre + jj - length pre)%nat with jj by lia.
    f_equal. apply fill_step.
    + unfold old. rewrite length_drop. lia.
    + unfold new. by rewrite lookup_drop.
  - cbn beta.
    destruct (Z.ltb_spec (Z.of_nat i + Z.of_nat cnt) (Z.of_nat i + 64))
      as [Hlt|Hge].
    + right. split; [done|].
      by destruct (Z.leb_spec inlen (Z.of_nat i + Z.of_nat cnt))
        as [_|Hgt]; [|lia].
    + by left.
Qed.

Lemma length_init_words (key nonce : list Z) (c : Z) :
  length (init_words key c nonce) = 16%nat.
Proof. unfold init_words. by rewrite !length_app, !length_le_words. Qed.

Lemma init_words_counter (key nonce : list Z) (c : Z) :
  init_words key c nonce !! 12%nat = Some c.
Proof.
  unfold init_words. rewrite app_assoc.
  rewrite lookup_app_r by (rewrite length_app, length_le_words; simpl; lia).
  by rewrite length_app, length_le_words.
Qed.

Lemma init_words_set_counter (key nonce : list Z) (c v : Z) :
  <[12%nat := v]> (init_words key c nonce) = init_words key v nonce.
Proof.
  unfold init_words. rewrite !(app_assoc sigma).
  rewrite insert_app_r_alt by (rewrite length_app, length_le_words; simpl; lia).
  by rewrite length_app, length_le_words.
Qed.

Lemma add32_counter (c : Z) (t : nat) :
  add32 (u32 (c + Z.of_nat t)) 1 = u32 (c + Z.of_nat (S t)).
Proof.
  unfold add32, u32. rewrite Z.add_mod_idemp_l by lia. f_equal. lia.
Qed.

Lemma length_ChaCha20XOR_bytes (key nonce input : list Z) (c : Z) :
  length (ChaCha20XOR_bytes key c nonce input) = length input.
Proof. apply length_imap. Qed.

Lemma lookup_ChaCha20XOR_bytes (key nonce input : list Z) (c : Z) (j : nat) :
  ChaCha20XOR_bytes key c nonce input !! j
  = xor_byte key c nonce j <$> input !! j.
Proof. apply list_lookup_imap. Qed.

Lemma block_index (t jj : nat) :
  (jj < 64)%nat ->
  ((64 * t + jj) / 64 = t /\ (64 * t + jj) mod 64 = jj)%nat.
Proof.
  intros Hjj. split.
  - symmetry. apply (Nat.div_unique _ 64 t jj); lia.
  - symmetry. apply (Nat.mod_unique _ 64 t jj); lia.
Qed.

(** One iteration of the outer loop, at [i = 64 * t]. *)
Lemma ChaCha20XOR_body_run (fuel : nat) (m : mem) (ai ao : string)
    (key nonce input cur lb lx : list Z) (c inlen : Z) (t : nat) :
  ai <> "s" -> ai <> "block" -> ai <> "x" ->
  ao <> "s" -> ao <> "block" -> ao <> "x" -> ai <> ao ->
  m !! "s" = Some (init_words key (u32 (c + Z.of_nat t)) nonce) ->
  m !! ai = Some input -> m !! ao = Some cur ->
  m !! "block" = Some lb -> length lb = 64%nat ->
  m !! "x" = Some lx -> length lx = 16%nat ->
  (64 * t < Z.to_nat inlen)%nat ->
  (Z.to_nat inlen <= length input)%nat ->
  (Z.to_nat inlen <= length cur)%nat ->
  inlen <= INT_MAX - 63 ->
  (64 < fuel)%nat ->
  let L := Z.to_nat inlen in
  let e := Nat.min (64 * S t) L in
  let target := ChaCha20XOR_bytes key c nonce (take L input) in
  exists m',
    ChaCha20XOR_body fuel (Ptr "s" 0) (Ptr "block" 0) (Ptr ai 0) (Ptr ao 0)
      inlen (Z.of_nat (64 * t)) m = Ok (false, m') /\
    m' !! "s" = Some (init_words key (u32 (c + Z.of_nat (S t))) nonce) /\
    m' !! ai = Some input /\
    m' !! ao = Some (take (64 * t) cur
                     ++ take (e - 64 * t) (drop (64 * t) target)
                     ++ drop e cur) /\
    (exists lb', m' !! "block" = Some lb' /\ length lb' = 64%nat) /\
    (exists lx', m' !! "x" = Some lx' /\ length lx' = 16%nat) /\
    (forall a, a <> "s" -> a <> "block" -> a <> "x" -> a <> ao ->
               m' !! a = m !! a).
Proof.
  intros His Hib Hix Hos Hob Hox Hio Hs Hin Hout Hb Hlb Hx Hlx Ht Hinput
    Hcur Hint Hfuel L e target.
  set (st := init_words key (u32 (c + Z.of_nat t)) nonce) in *.
  set (kb := block_bytes st 20).
  assert (Hkb : length kb = 64%nat)
    by apply length_block_bytes, length_init_words.
  set (m1 := <["block" := kb]> (<["x" := block_words st 20]> m)).
  set (m2 := <["s" := init_words key (u32 (c + Z.of_nat (S t))) nonce]> m1).
  set (cnt := (e - 64 * t)%nat).
  exists (<[ao := take (64 * t) cur ++ take cnt (drop (64 * t) target)
                  ++ drop e cur]> m2).
  split.
  - unfold ChaCha20XOR_body. apply nobreak_ok.
    erewrite bind_ok; cycle 1.
    { apply chacha20_block_run with (st := st) (lo := lb) (lx := lx);
        [discriminate|discriminate|discriminate|exact Hs
        |apply length_init_words|exact Hb|lia|exact Hx|exact Hlx|lia|].
      change (round_iterations 20) with 10%nat. lia. }
    rewrite (drop_ge lb) by lia. rewrite app_nil_r. fold kb. fold m1.
    erewrite bind_ok; cycle 1.
    { erewrite bind_ok; cycle 1.
      { apply load_ok with (l := st);
          [unfold m1; by rewrite !lookup_insert_ne|lia|].
        apply init_words_counter. }
      apply store_ok with (l := st);
        [unfold m1; by rewrite !lookup_insert_ne|].
      unfold st. rewrite length_init_words. lia. }
    change (Z.to_nat (0 + 12)) with 12%nat.
    unfold st at 1. rewrite init_words_set_counter, add32_counter. fold m2.
    replace (drop e cur) with (drop (64 * t + cnt) cur)
      by (f_equal; unfold cnt, e; lia).
    apply xor_loop_run with (input := input) (blk := kb);
      [exact Hio|exact Hob| | | | | | | |exact Hfuel].
    + unfold m2, m1. by rewrite !lookup_insert_ne.
    + unfold m2, m1. rewrite lookup_insert_ne by done.
      apply lookup_insert_eq.
    + unfold m2, m1. by rewrite !lookup_insert_ne.
    + unfold cnt, e, L. lia.
    + unfold cnt, e, L. lia.
    + intros jj Hjj.
      assert (Hjj64 : (jj < 64)%nat) by (unfold cnt, e in Hjj; lia).
      assert (HjL : (64 * t + jj < L)%nat) by (unfold cnt, e in Hjj; lia).
      destruct (lookup_lt_is_Some_2 input (64 * t + jj)) as [a Ha];
        [unfold L in HjL; lia|].
      destruct (lookup_lt_is_Some_2 kb jj) as [k Hk]; [lia|].
      exists a, k. split; [done|]. split; [done|].
      unfold target. rewrite lookup_ChaCha20XOR_bytes.
      rewrite lookup_take_lt by done. rewrite Ha.
      cbn [fmap option_fmap option_map]. f_equal.
      unfold xor_byte.
      destruct (block_index t jj Hjj64) as [-> ->].
      unfold keystream_block. fold st. fold kb.
      by rewrite (list_lookup_total_correct _ _ _ Hk).
    + unfold INT_MAX in *. lia.
  - unfold m2, m1.
    split; [rewrite (lookup_insert_ne _ ao "s") by done;
            apply lookup_insert_eq|].
    split; [by rewrite !lookup_insert_ne|].
    split; [apply lookup_insert_eq|].
    split.
    { exists kb. split; [|done].
      rewrite (lookup_insert_ne _ ao "block") by done.
      rewrite (lookup_insert_ne _ "s" "block") by done.
      apply lookup_insert_eq. }
    split.
    { exists (block_words st 20). split.
      - rewrite (lookup_insert_ne _ ao "x") by done.
        rewrite (lookup_insert_ne _ "s" "x") by done.
        rewrite (lookup_insert_ne _ "block" "x") by done.
        apply lookup_insert_eq.
      - apply length_block_words. apply length_init_words. }
    intros a Has Hab Hax Hao. by rewrite !lookup_insert_ne.
Qed.

Lemma not_local (a : string) : a ∉ ["s"; "block"; "x"] -> a_not_local a.
Proof. intros Ha. repeat split; intros ->; apply Ha; set_solver. Qed.

Lemma blocks_lt (L t : nat) : (t < blocks L)%nat -> (64 * t < L)%nat.
Proof.
  unfold blocks. intros Ht.
  pose proof (Nat.div_mod_eq (L + 63) 64).
  pose proof (Nat.mod_upper_bound (L + 63) 64). lia.
Qed.

Lemma blocks_ge (L : nat) : (L <= 64 * blocks L)%nat.
Proof.
  unfold blocks.
  pose proof (Nat.div_mod_eq (L + 63) 64).
  pose proof (Nat.mod_upper_bound (L + 63) 64). lia.
Qed.

(** An iteration of the outer loop takes the invariant at [t] to the
    invariant at [t + 1]. *)
Lemma xor_inv_step (fuel : nat) (m m1 : mem) (ai ao : string)
    (key nonce input lo : list Z) (counter inlen : Z) (t : nat) :
  a_not_local ai -> a_not_local ao -> ai <> ao ->
  (Z.to_nat inlen <= length input)%nat ->
  (Z.to_nat inlen <= length lo)%nat ->
  inlen <= INT_MAX - 63 ->
  (64 < fuel)%nat -> (t < blocks (Z.to_nat inlen))%nat ->
  xor_inv m ai ao key nonce input lo counter (Z.to_nat inlen) t m1 ->
  exists m2,
    ChaCha20XOR_body fuel (Ptr "s" 0) (Ptr "block" 0) (Ptr ai 0) (Ptr ao 0)
      inlen (Z.of_nat (64 * t)) m1 = Ok (false, m2) /\
    xor_inv m ai ao key nonce input lo counter (Z.to_nat inlen) (S t) m2.
Proof.
  intros (His & Hib & Hix) (Hos & Hob & Hox) Hio Hinput Hout Hint Hfuel Ht
    (Is & Ii & Io & (lb1 & Ib & Hlb1) & (lx1 & Ix & Hlx1) & If).
  set (L := Z.to_nat inlen) in *.
  set (target := ChaCha20XOR_bytes key counter nonce (take L input)) in *.
  assert (Htarget : length target = L).
  { unfold target. rewrite length_ChaCha20XOR_bytes, length_take. lia. }
  apply blocks_lt in Ht. rewrite Nat.min_l in Io by lia.
  destruct (ChaCha20XOR_body_run fuel m1 ai ao key nonce input
              (take (64 * t) target ++ drop (64 * t) lo) lb1 lx1
              counter inlen t)
    as (m2 & Hrun & Js & Ji & Jo & Jb & Jx & Jf); try done; try (fold L; lia).
  { rewrite length_app, length_take, length_drop. fold L. lia. }
  exists m2. split; [exact Hrun|].
  unfold xor_inv. fold L target in Jo |- *.
  set (e := Nat.min (64 * S t) L) in *.
  split; [exact Js|]. split; [exact Ji|].
  split; [|split; [exact Jb|split; [exact Jx|]]].
  - rewrite Jo. f_equal.
    assert (Hlen : length (take (64 * t) target) = (64 * t)%nat)
      by (rewrite length_take; lia).
    rewrite take_app_length' by done.
    rewrite drop_app_ge by (unfold e; lia).
    rewrite Hlen, drop_drop, app_assoc, take_take_drop.
    f_equal; f_equal; unfold e; lia.
  - intros a Has Hab Hax Hao. rewrite Jf by done. by apply If.
Qed.

Lemma ChaCha20XOR_run (fuel : nat) (m : mem) (ak an ai ao : string)
    (key nonce input lo : list Z) (counter inlen : Z) :
  xor_call m ak an ai ao key nonce input lo ->
  is_u32 counter ->
  (Z.to_nat inlen <= length input)%nat ->
  (Z.to_nat inlen <= length lo)%nat ->
  inlen <= INT_MAX - 63 ->
  (fuel_for (Z.to_nat inlen) <= fuel)%nat ->
  exists m',
    ChaCha20XOR fuel (Ptr ak 0) counter (Ptr an 0) (Ptr ai 0) (Ptr ao 0)
      inlen m = Ok (tt, m') /\
    xor_inv m ai ao key nonce input lo counter (Z.to_nat inlen)
      (blocks (Z.to_nat inlen)) m'.
Proof.
  intros (Hnames & Hio & Hk & Hlk & Hn & Hln & Hi & Ho & (ls & Hs & Hls)
          & (lb & Hb & Hlb) & (lx & Hx & Hlx)) Hc Hinput Hout Hint Hfuel.
  set (L := Z.to_nat inlen) in *.
  destruct (not_local ak) as (Hks & Hkb & Hkx); [apply Hnames; set_solver|].
  destruct (not_local an) as (Hns & Hnb & Hnx); [apply Hnames; set_solver|].
  assert (Hai : a_not_local ai) by (apply not_local, Hnames; set_solver).
  assert (Hao : a_not_local ao) by (apply not_local, Hnames; set_solver).
  unfold fuel_for in Hfuel.
  unfold ChaCha20XOR.
  erewrite bind_ok; cycle 1.
  { apply chacha20_init_state_run with (ls := ls) (key := key)
      (nonce := nonce); try done; lia. }
  apply (for_loop_inv
           (xor_inv m ai ao key nonce input lo counter L) _ _ _
           (fun t => Z.of_nat (64 * t)) (blocks L)); [done| | | |lia].
  - (* the invariant holds after the initialization *)
    destruct Hai as (His & Hib & Hix). destruct Hao as (Hos & Hob & Hox).
    unfold xor_inv. rewrite Nat.mul_0_r, Nat.min_0_l, drop_0, Z.add_0_r.
    replace (u32 counter) with counter
      by (symmetry; apply Z.mod_small; exact Hc).
    split; [apply lookup_insert_eq|].
    split; [by rewrite lookup_insert_ne|].
    split; [by rewrite lookup_insert_ne|].
    split; [exists lb; by rewrite lookup_insert_ne|].
    split; [exists lx; by rewrite lookup_insert_ne|].
    intros a Has _ _ _. by rewrite lookup_insert_ne.
  - (* one iteration *)
    intros t m1 Ht Hinv.
    pose proof (blocks_lt _ _ Ht) as Hlt. fold L in Hlt.
    split; [apply Z.ltb_lt; lia|].
    split; [rewrite int32_id by (unfold INT_MIN, INT_MAX in *; lia); lia|].
    apply xor_inv_step; try done. lia.
  - (* the loop condition fails after the last block *)
    apply Z.ltb_ge. pose proof (blocks_ge L). lia.
Qed.

(** The output buffer once the loop has finished. *)
Lemma xor_inv_final (m0 m : mem) (ai ao : string)
    (key nonce input lo : list Z) (c : Z) (L : nat) :
  (L <= length input)%nat ->
  xor_inv m0 ai ao key nonce input lo c L (blocks L) m ->
  m !! ao = Some (ChaCha20XOR_bytes key c nonce (take L input) ++ drop L lo).
Proof.
  intros HL (_ & _ & Io & _). rewrite Io.
  rewrite Nat.min_r by apply blocks_ge.
  rewrite take_ge; [done|].
  rewrite length_ChaCha20XOR_bytes, length_take. lia.
Qed.





(** ** The public operation *)

Lemma blocks_mono (k n : nat) : (k <= n)%nat -> (blocks k <= blocks n)%nat.
Proof. intros Hk. unfold blocks. apply Nat.Div0.div_le_mono. lia. Qed.

Lemma fuel_for_mono (k n : nat) : (k <= n)%nat -> (fuel_for k <= fuel_for n)%nat.
Proof. intros Hk. unfold fuel_for. pose proof (blocks_mono k n Hk). lia. Qed.

Lemma cipher_run (fuel : nat) (key nonce input : list Z) (counter : Z) :
  length key = 32%nat -> length nonce = 12%nat -> is_u32 counter ->
  Z.of_nat (length input) <= INT_MAX - 63 ->
  (fuel_for (length input) <= fuel)%nat ->
  cipher fuel key counter nonce input
  = Ok (ChaCha20XOR_bytes key counter nonce input).
Proof.
  intros Hk Hn Hc Hint Hfuel. unfold cipher.
  set (m := <["key" := key]> _).
  destruct (ChaCha20XOR_run fuel m "key" "nonce" "in" "out" key nonce input
              (replicate (length input) 0) counter
              (Z.of_nat (length input))) as (m' & Hrun & Hinv).
  - split; [|repeat split; try done;
             [by exists (replicate 16 0)|by exists (replicate 64 0)
             |by exists (replicate 16 0)]].
    intros a Ha. apply (bool_decide_unpack _).
    repeat (apply elem_of_cons in Ha as [->|Ha]; [by vm_compute|]).
    by apply elem_of_nil in Ha.
  - done.
  - lia.
  - rewrite length_replicate. lia.
  - exact Hint.
  - by rewrite Nat2Z.id.
  - rewrite Hrun. rewrite Nat2Z.id in Hinv.
    rewrite (xor_inv_final _ _ _ _ _ _ _ _ _ _ (Nat.le_refl _) Hinv).
    rewrite firstn_all, drop_ge by (rewrite length_replicate; lia).
    by rewrite app_nil_r.
Qed.

Lemma u8_land (x : Z) : u8 x = Z.land x (Z.ones 8).
Proof. unfold u8. by rewrite Z.land_ones by lia. Qed.

(** Xoring twice with the same keystream byte gives the byte back. *)
Lemma xor_twice (a k : Z) : is_u8 a -> u8 (Z.lxor (u8 (Z.lxor a k)) k) = a.
Proof.
  intros Ha. rewrite <- (Z.mod_small a (2 ^ 8)) at 2 by exact Ha.
  fold (u8 a). rewrite !u8_land.
  apply Z.bits_inj'. intros i Hi.
  rewrite !Z.land_spec, !Z.lxor_spec, !Z.land_spec, !Z.lxor_spec.
  by destruct (Z.testbit a i), (Z.testbit k i), (Z.testbit (Z.ones 8) i).
Qed.

Lemma ChaCha20XOR_bytes_involutive (key nonce input : list Z) (c : Z) :
  Forall is_u8 input ->
  ChaCha20XOR_bytes key c nonce (ChaCha20XOR_bytes key c nonce input) = input.
Proof.
  intros Hb. apply list_eq. intros j.
  rewrite !lookup_ChaCha20XOR_bytes.
  destruct (input !! j) as [a|] eqn:Ha; [|done].
  simpl. f_equal. unfold xor_byte. apply xor_twice.
  by apply (Forall_lookup_1 _ _ _ _ Hb Ha).
Qed.

Lemma ChaCha20XOR_bytes_take (key nonce input : list Z) (c : Z) (k : nat) :
  take k (ChaCha20XOR_bytes key c nonce input)
  = ChaCha20XOR_bytes key c nonce (take k input).
Proof.
  apply list_eq. intros j.
  rewrite lookup_ChaCha20XOR_bytes.
  destruct (decide (j < k)%nat) as [Hlt|Hge].
  - by rewrite !lookup_take_lt, lookup_ChaCha20XOR_bytes by done.
  - by rewrite !lookup_take_ge by lia.
Qed.

Lemma keystream_block_offset (key nonce : list Z) (c : Z) (i : nat) :
  keystream_block key (u32 (c + Z.of_nat i)) nonce 0
  = keystream_block key c nonce i.
Proof.
  unfold keystream_block.
  replace (u32 (u32 (c + Z.of_nat i) + Z.of_nat 0)) with (u32 (c + Z.of_nat i));
    [reflexivity|].
  unfold u32. by rewrite Z.add_0_r, Z.mod_mod by lia.
Qed.

Lemma ChaCha20XOR_bytes_chunk (key nonce input : list Z) (c : Z) (i : nat) :
  ChaCha20XOR_bytes key (u32 (c + Z.of_nat i)) nonce
    (take 64 (drop (64 * i) input))
  = take 64 (drop (64 * i) (ChaCha20XOR_bytes key c nonce input)).
Proof.
  apply list_eq. intros j.
  rewrite lookup_ChaCha20XOR_bytes.
  destruct (decide (j < 64)%nat) as [Hlt|Hge].
  - rewrite !lookup_take_lt, !lookup_drop, lookup_ChaCha20XOR_bytes by done.
    destruct (input !! (64 * i + j)%nat) as [a|];
      cbn [fmap option_fmap option_map]; [|reflexivity].
    apply (f_equal Some). unfold xor_byte.
    destruct (block_index i j Hlt) as [-> ->].
    rewrite (Nat.div_small j 64), (Nat.mod_small j 64) by done.
    by rewrite keystream_block_offset.
  - by rewrite !lookup_take_ge by lia.
Qed.



(** C2. With the all-zero key, the all-zero nonce and counter 0, the block
    [chacha20_block] produces with round count 20 from the initialized
    state is, byte for byte, the keystream of RFC 7539's test vector for
    that key, nonce and counter, and [ChaCha20XOR] on 64 zero bytes gives
    the same 64 bytes.  Both hold with any fuel of at least 65. *)
Theorem ChaCha20XOR_rfc7539_vector (n : nat) :
  (exists m',
     (chacha20_init_state (65 + n) (Ptr "s" 0) (Ptr "key" 0) 0
        (Ptr "nonce" 0) ;;;
      chacha20_block (65 + n) (Ptr "s" 0) (Ptr "block" 0) 20)
       (<["key" := replicate 32 0]> (<["nonce" := replicate 12 0]>
        (<["s" := replicate 16 0]> (<["block" := replicate 64 0]>
        {["x" := replicate 16 0]}))))
     = Ok (tt, m') /\
     m' !! "block" = Some rfc7539_keystream) /\
  cipher (65 + n) (replicate 32 0) 0 (replicate 12 0) (replicate 64 0)
  = Ok rfc7539_keystream.
Proof.
  split.
  - eexists. split.
    + erewrite bind_ok; cycle 1.
      { apply chacha20_init_state_run with (ls := replicate 16 0)
          (key := replicate 32 0) (nonce := replicate 12 0);
          try done; simpl; lia. }
      apply chacha20_block_run with (lo := replicate 64 0)
        (lx := replicate 16 0);
        [discriminate|discriminate|discriminate|apply lookup_insert_eq
        |apply length_init_words|done|simpl; lia|done|done|lia|].
      change (round_iterations 20) with 10%nat. lia.
    + rewrite lookup_insert_eq. apply (f_equal Some). by vm_compute.
  - rewrite cipher_run;
      [apply (f_equal Ok); by vm_compute|done|done|done|by vm_compute|].
    change (fuel_for (length (replicate 64 0))) with 65%nat. lia.
Qed.





(** * Further properties of the code

    ** The cipher as a keystream xor *)

Lemma lxor_u8_r (a d k : Z) :
  is_u8 d -> u8 (Z.lxor (Z.lxor a d) k) = Z.lxor (u8 (Z.lxor a k)) d.
Proof.
  intros Hd. rewrite <- (Z.mod_small d (2 ^ 8)) at 2 by exact Hd.
  fold (u8 d). rewrite !u8_land.
  apply Z.bits_inj'. intros i Hi.
  rewrite !Z.lxor_spec, !Z.land_spec, !Z.lxor_spec.
  by destruct (Z.testbit a i), (Z.testbit d i), (Z.testbit k i),
    (Z.testbit (Z.ones 8) i).
Qed.

Lemma lxor_u8_cancel (a b k : Z) :
  is_u8 a -> is_u8 b ->
  Z.lxor (u8 (Z.lxor a k)) (u8 (Z.lxor b k)) = Z.lxor a b.
Proof.
  intros Ha Hb.
  rewrite <- (Z.mod_small a (2 ^ 8)) at 2 by exact Ha.
  rewrite <- (Z.mod_small b (2 ^ 8)) at 2 by exact Hb.
  fold (u8 a) (u8 b). rewrite !u8_land.
  apply Z.bits_inj'. intros i Hi.
  rewrite !Z.lxor_spec, !Z.land_spec, !Z.lxor_spec.
  by destruct (Z.testbit a i), (Z.testbit b i), (Z.testbit k i),
    (Z.testbit (Z.ones 8) i).
Qed.

Lemma ChaCha20XOR_bytes_lxor (key nonce x d : list Z) (c : Z) :
  Forall is_u8 d ->
  ChaCha20XOR_bytes key c nonce (zip_with Z.lxor x d)
  = zip_with Z.lxor (ChaCha20XOR_bytes key c nonce x) d.
Proof.
  intros Hd. apply list_eq. intros j.
  rewrite lookup_ChaCha20XOR_bytes, !lookup_zip_with,
    lookup_ChaCha20XOR_bytes.
  destruct (x !! j) as [a|]; [|reflexivity].
  destruct (d !! j) as [b|] eqn:Hb; [|reflexivity].
  cbn [fmap option_fmap option_map mbind option_bind].
  apply (f_equal Some). unfold xor_byte. apply lxor_u8_r.
  by apply (Forall_lookup_1 _ _ _ _ Hd Hb).
Qed.

Lemma ChaCha20XOR_bytes_pad (key nonce x y : list Z) (c : Z) :
  Forall is_u8 x -> Forall is_u8 y ->
  zip_with Z.lxor (ChaCha20XOR_bytes key c nonce x)
    (ChaCha20XOR_bytes key c nonce y)
  = zip_with Z.lxor x y.
Proof.
  intros Hx Hy. apply list_eq. intros j.
  rewrite !lookup_zip_with, !lookup_ChaCha20XOR_bytes.
  destruct (x !! j) as [a|] eqn:Ha; [|reflexivity].
  destruct (y !! j) as [b|] eqn:Hb; [|reflexivity].
  cbn [fmap option_fmap option_map mbind option_bind].
  apply (f_equal Some). unfold xor_byte. apply lxor_u8_cancel.
  - by apply (Forall_lookup_1 _ _ _ _ Hx Ha).
  - by apply (Forall_lookup_1 _ _ _ _ Hy Hb).
Qed.

Lemma keystream_block_add (key nonce : list Z) (c : Z) (q t : nat) :
  keystream_block key (u32 (c + Z.of_nat q)) nonce t
  = keystream_block key c nonce (q + t).
Proof.
  unfold keystream_block.
  replace (u32 (u32 (c + Z.of_nat q) + Z.of_nat t))
    with (u32 (c + Z.of_nat (q + t))); [reflexivity|].
  unfold u32. rewrite Z.add_mod_idemp_l by lia. f_equal. lia.
Qed.

Lemma ChaCha20XOR_bytes_app (key nonce a b : list Z) (c : Z) (q : nat) :
  length a = (64 * q)%nat ->
  ChaCha20XOR_bytes key c nonce (a ++ b)
  = ChaCha20XOR_bytes key c nonce a
    ++ ChaCha20XOR_bytes key (u32 (c + Z.of_nat q)) nonce b.
Proof.
  intros Ha. unfold ChaCha20XOR_bytes. rewrite imap_app.
  apply (f_equal (app _)). apply imap_ext. intros j y _.
  unfold xor_byte. rewrite Ha, keystream_block_add.
  pose proof (Nat.div_mod_eq j 64) as Hj.
  pose proof (Nat.mod_upper_bound j 64 ltac:(lia)) as Hm.
  replace (64 * q + j)%nat with (64 * (q + j / 64) + j mod 64)%nat by lia.
  by destruct (block_index (q + j / 64) (j mod 64) Hm) as [-> ->].
Qed.

(** X1. The cipher is malleable: xoring an input of at most
    [INT_MAX - 63] bytes with a byte sequence [d] xors the output with [d],
    whatever the key. *)
Theorem ChaCha20XOR_malleable (fuel : nat) (key nonce x d : list Z)
    (counter : Z) :
  length key = 32%nat -> length nonce = 12%nat -> is_u32 counter ->
  Forall is_u8 d -> Z.of_nat (length x) <= INT_MAX - 63 ->
  (fuel_for (length x) <= fuel)%nat ->
  exists out,
    cipher fuel key counter nonce x = Ok out /\
    cipher fuel key counter nonce (zip_with Z.lxor x d)
    = Ok (zip_with Z.lxor out d).
Proof.
  intros Hk Hn Hc Hd Hint Hfuel.
  exists (ChaCha20XOR_bytes key counter nonce x).
  split; [by apply cipher_run|].
  rewrite cipher_run; [by rewrite ChaCha20XOR_bytes_lxor|done|done|done| |].
  - rewrite length_zip_with. lia.
  - etransitivity; [|exact Hfuel]. apply fuel_for_mono.
    rewrite length_zip_with. lia.
Qed.

Lemma ChaCha20XOR_malleable_witness :
  exists out,
    cipher 65 (seqZ 0 32) 1 (seqZ 0 12) [10; 20; 30] = Ok out /\
    cipher 65 (seqZ 0 32) 1 (seqZ 0 12) (zip_with Z.lxor [10; 20; 30] [1; 1; 1])
    = Ok (zip_with Z.lxor out [1; 1; 1]).
Proof.
  apply (ChaCha20XOR_malleable 65 (seqZ 0 32) (seqZ 0 12) [10; 20; 30]
           [1; 1; 1] 1).
  - reflexivity.
  - reflexivity.
  - by apply (bool_decide_unpack _); vm_compute.
  - by apply (bool_decide_unpack _); vm_compute.
  - by vm_compute.
  - vm_compute. lia.
Defined.

(** X2. Two inputs of at most [INT_MAX - 63] bytes enciphered with the
    same key, counter and nonce give outputs whose xor is the xor of the
    inputs: the keystream cancels. *)
Theorem ChaCha20XOR_keystream_reuse (fuel : nat) (key nonce x y : list Z)
    (counter : Z) :
  length key = 32%nat -> length nonce = 12%nat -> is_u32 counter ->
  Forall is_u8 x -> Forall is_u8 y ->
  Z.of_nat (length x) <= INT_MAX - 63 ->
  Z.of_nat (length y) <= INT_MAX - 63 ->
  (fuel_for (length x) <= fuel)%nat -> (fuel_for (length y) <= fuel)%nat ->
  exists ox oy,
    cipher fuel key counter nonce x = Ok ox /\
    cipher fuel key counter nonce y = Ok oy /\
    zip_with Z.lxor ox oy = zip_with Z.lxor x y.
Proof.
  intros Hk Hn Hc Hx Hy Hix Hiy Hfx Hfy.
  exists (ChaCha20XOR_bytes key counter nonce x),
    (ChaCha20XOR_bytes key counter nonce y).
  split; [by apply cipher_run|]. split; [by apply cipher_run|].
  by apply ChaCha20XOR_bytes_pad.
Qed.

Lemma ChaCha20XOR_keystream_reuse_witness :
  exists ox oy,
    cipher 65 (seqZ 0 32) 1 (seqZ 0 12) [10; 20; 30] = Ok ox /\
    cipher 65 (seqZ 0 32) 1 (seqZ 0 12) [7; 7; 7] = Ok oy /\
    zip_with Z.lxor ox oy = [13; 19; 25].
Proof.
  apply (ChaCha20XOR_keystream_reuse 65 (seqZ 0 32) (seqZ 0 12) [10; 20; 30]
           [7; 7; 7] 1).
  - reflexivity.
  - reflexivity.
  - by apply (bool_decide_unpack _); vm_compute.
  - by apply (bool_decide_unpack _); vm_compute.
  - by apply (bool_decide_unpack _); vm_compute.
  - by vm_compute.
  - by vm_compute.
  - vm_compute. lia.
  - vm_compute. lia.
Defined.

(** X3. A stream of at most [INT_MAX - 63] bytes can be enciphered in
    pieces: when the first piece is a whole number [q] of 64-byte blocks,
    the output on [a ++ b] is the output on [a] followed by the output on
    [b] with the counter advanced by [q], modulo 2^32. *)
Theorem ChaCha20XOR_concat (fuel : nat) (key nonce a b : list Z)
    (counter : Z) (q : nat) :
  length key = 32%nat -> length nonce = 12%nat -> is_u32 counter ->
  length a = (64 * q)%nat ->
  Z.of_nat (length (a ++ b)) <= INT_MAX - 63 ->
  (fuel_for (length (a ++ b)) <= fuel)%nat ->
  exists oa ob,
    cipher fuel key counter nonce a = Ok oa /\
    cipher fuel key (u32 (counter + Z.of_nat q)) nonce b = Ok ob /\
    cipher fuel key counter nonce (a ++ b) = Ok (oa ++ ob).
Proof.
  intros Hk Hn Hc Ha Hint Hfuel.
  pose proof Hint as Hab. rewrite length_app in Hab.
  exists (ChaCha20XOR_bytes key counter nonce a),
    (ChaCha20XOR_bytes key (u32 (counter + Z.of_nat q)) nonce b).
  split; [|split].
  - apply cipher_run; [done|done|done|lia|].
    etransitivity; [|exact Hfuel]. apply fuel_for_mono.
    rewrite length_app. lia.
  - apply cipher_run; [done|done|apply is_u32_mod|lia|].
    etransitivity; [|exact Hfuel]. apply fuel_for_mono.
    rewrite length_app. lia.
  - rewrite cipher_run by done. by rewrite (ChaCha20XOR_bytes_app _ _ _ _ _ q).
Qed.

Lemma ChaCha20XOR_concat_witness :
  exists oa ob,
    cipher 65 (seqZ 0 32) 0xffffffff (seqZ 0 12) (seqZ 0 64) = Ok oa /\
    cipher 65 (seqZ 0 32) 0 (seqZ 0 12) [1; 2; 3] = Ok ob /\
    cipher 65 (seqZ 0 32) 0xffffffff (seqZ 0 12) (seqZ 0 64 ++ [1; 2; 3])
    = Ok (oa ++ ob).
Proof.
  apply (ChaCha20XOR_concat 65 (seqZ 0 32) (seqZ 0 12) (seqZ 0 64) [1; 2; 3]
           0xffffffff 1).
  - reflexivity.
  - reflexivity.
  - by apply (bool_decide_unpack _); vm_compute.
  - reflexivity.
  - by vm_compute.
  - vm_compute. lia.
Defined.

(** ** Edge cases of the round count *)

Lemma round_iterations_odd (r : Z) :
  Z.odd r = true -> round_iterations (r + 1) = round_iterations r.
Proof.
  intros Hr. unfold round_iterations. f_equal.
  apply Zodd_bool_iff, Zodd_ex in Hr as [q ->].
  replace (2 * q + 1 + 1 + 1) with (1 + (q + 1) * 2) by lia.
  replace (2 * q + 1 + 1) with (0 + (q + 1) * 2) by lia.
  by rewrite !Z.div_add by lia.
Qed.

Lemma round_iterations_nonpos (r : Z) : r <= 0 -> round_iterations r = 0%nat.
Proof.
  intros Hr. unfold round_iterations.
  pose proof (Z.div_mod (r + 1) 2 ltac:(lia)).
  pose proof (Z.mod_pos_bound (r + 1) 2 ltac:(lia)). lia.
Qed.

(** X4. [chacha20_block] takes the rounds two at a time and does not check
    that the count is even: with an odd count [r] it returns exactly what
    it returns with [r + 1]. *)
Theorem chacha20_block_odd_rounds (fuel : nat) (m : mem) (ai ao : string)
    (st lo : list Z) (r : Z) :
  block_call m ai ao st lo -> Z.odd r = true ->
  (16 < fuel)%nat -> (round_iterations r < fuel)%nat ->
  exists m',
    chacha20_block fuel (Ptr ai 0) (Ptr ao 0) r m = Ok (tt, m') /\
    chacha20_block fuel (Ptr ai 0) (Ptr ao 0) (r + 1) m = Ok (tt, m').
Proof.
  intros (Hix & Hox & Hio & Hi & Hst & Ho & Hlo & lx & Hx & Hlx) Hr Hfuel
    Hrounds.
  eexists. split.
  - by apply chacha20_block_run with (st := st) (lo := lo) (lx := lx).
  - rewrite (chacha20_block_run fuel m ai ao st lo lx (r + 1));
      try done; [|by rewrite round_iterations_odd].
    unfold block_bytes, block_words. by rewrite round_iterations_odd.
Qed.

Lemma chacha20_block_odd_rounds_witness :
  exists m' : mem,
    chacha20_block 17 (Ptr "s" 0) (Ptr "block" 0) 19
      (<["s" := seqZ 0 16]> (<["block" := replicate 64 0]>
         {["x" := replicate 16 0]})) = Ok (tt, m') /\
    chacha20_block 17 (Ptr "s" 0) (Ptr "block" 0) 20
      (<["s" := seqZ 0 16]> (<["block" := replicate 64 0]>
         {["x" := replicate 16 0]})) = Ok (tt, m').
Proof.
  apply (chacha20_block_odd_rounds 17 _ "s" "block" (seqZ 0 16)
           (replicate 64 0) 19).
  - repeat split; try done. by exists (replicate 16 0).
  - reflexivity.
  - lia.
  - vm_compute. lia.
Defined.

(** X5. With a round count of zero or less the round loop is not entered:
    the output is the serialization of the doubled input words,
    [in[i] + in[i]] modulo 2^32, without any mixing. *)
Theorem chacha20_block_no_rounds (fuel : nat) (m : mem) (ai ao : string)
    (st lo : list Z) (r : Z) :
  block_call m ai ao st lo -> r <= 0 -> (16 < fuel)%nat ->
  exists m',
    chacha20_block fuel (Ptr ai 0) (Ptr ao 0) r m = Ok (tt, m') /\
    m' !! ao
    = Some (serialize_list ((fun w => u32 (w + w)) <$> st) ++ drop 64 lo).
Proof.
  intros (Hix & Hox & Hio & Hi & Hst & Ho & Hlo & lx & Hx & Hlx) Hr Hfuel.
  eexists. split.
  - apply chacha20_block_run with (st := st) (lo := lo) (lx := lx);
      try done. rewrite round_iterations_nonpos by done. lia.
  - rewrite lookup_insert_eq. unfold block_bytes, block_words.
    rewrite round_iterations_nonpos by done.
    change (Nat.iter 0 doubleround_list st) with st.
    by rewrite zip_with_diag.
Qed.

Lemma chacha20_block_no_rounds_witness :
  exists m' : mem,
    chacha20_block 17 (Ptr "s" 0) (Ptr "block" 0) 0
      (<["s" := seqZ 0 16]> (<["block" := replicate 64 0]>
         {["x" := replicate 16 0]})) = Ok (tt, m') /\
    m' !! "block"
    = Some (serialize_list ((fun w => u32 (w + w)) <$> seqZ 0 16)
            ++ drop 64 (replicate 64 0)).
Proof.
  apply (chacha20_block_no_rounds 17 _ "s" "block" (seqZ 0 16)
           (replicate 64 0) 0).
  - repeat split; try done. by exists (replicate 16 0).
  - lia.
  - lia.
Defined.

(** ** Serialization and the endian codec *)

Lemma lookup_serialize_list (ws : list Z) (i k : nat) (w : Z) :
  ws !! i = Some w -> (k < 4)%nat ->
  serialize_list ws !! (4 * i + k)%nat = word_bytes w !! k.
Proof.
  revert i. induction ws as [|w0 ws IH]; intros i Hi Hk; [done|].
  change (serialize_list (w0 :: ws))
    with (word_bytes w0 ++ serialize_list ws).
  destruct i as [|i].
  - injection Hi as ->. by rewrite lookup_app_l by (simpl; lia).
  - rewrite lookup_app_r by (simpl; lia).
    replace (4 * S i + k - length (word_bytes w0))%nat with (4 * i + k)%nat
      by (simpl; lia).
    by apply IH.
Qed.

(** X6. Serialization can be undone word by word: after
    [chacha20_serialize(in, out)] on sixteen 32-bit words,
    [u8t32le(out + 4*i)] returns [in[i]] for every [i < 16]; [in] is
    unchanged and [out] is unchanged from byte 64 on. *)
Theorem chacha20_serialize_round_trip (fuel : nat) (m : mem)
    (ai ao : string) (ws lo : list Z) :
  ai <> ao -> m !! ai = Some ws -> length ws = 16%nat ->
  Forall is_u32 ws ->
  m !! ao = Some lo -> (64 <= length lo)%nat -> (16 < fuel)%nat ->
  exists m',
    chacha20_serialize fuel (Ptr ai 0) (Ptr ao 0) m = Ok (tt, m') /\
    (forall i w, ws !! i = Some w ->
       u8t32le (padd (Ptr ao 0) (4 * Z.of_nat i)) m' = Ok (w, m')) /\
    m' !! ai = Some ws /\
    (forall out, m' !! ao = Some out -> drop 64 out = drop 64 lo).
Proof.
  intros Hne Hi Hws Hu Ho Hlo Hfuel.
  eexists. split; [by apply chacha20_serialize_run with (ws := ws)|].
  set (out := serialize_list ws ++ drop 64 lo).
  assert (Hlen : length (serialize_list ws) = 64%nat)
    by (rewrite length_serialize_list; lia).
  split; [|split].
  - intros i w Hw.
    assert (Hb : forall k, 0 <= k < 4 ->
              out !! Z.to_nat (0 + 4 * Z.of_nat i + k)
              = word_bytes w !! Z.to_nat k).
    { intros k Hk. apply lookup_lt_Some in Hw as Hlt.
      replace (Z.to_nat (0 + 4 * Z.of_nat i + k))
        with (4 * i + Z.to_nat k)%nat by lia.
      unfold out. rewrite lookup_app_l by lia.
      apply lookup_serialize_list; [done|lia]. }
    rewrite <- (le_word_bytes w) at 1
      by (by apply (Forall_lookup_1 _ _ _ _ Hu Hw)).
    unfold padd; simpl.
    apply u8t32le_run with (l := out); [apply lookup_insert_eq|lia|..].
    + by rewrite Hb by lia.
    + by rewrite Hb by lia.
    + by rewrite Hb by lia.
    + by rewrite Hb by lia.
  - by rewrite lookup_insert_ne.
  - intros out' Hout. rewrite lookup_insert_eq in Hout.
    injection Hout as <-. unfold out.
    rewrite drop_app_ge by lia. by rewrite Hlen, Nat.sub_diag, drop_0.
Qed.

Lemma chacha20_serialize_round_trip_witness :
  exists m' : mem,
    chacha20_serialize 17 (Ptr "x" 0) (Ptr "block" 0)
      (<["x" := seqZ 0x01020304 16]> {["block" := replicate 64 0]})
    = Ok (tt, m') /\
    u8t32le (padd (Ptr "block" 0) (4 * Z.of_nat 5)) m'
    = Ok (0x01020309, m').
Proof.
  destruct (chacha20_serialize_round_trip 17
              (<["x" := seqZ 0x01020304 16]> {["block" := replicate 64 0]})
              "x" "block" (seqZ 0x01020304 16) (replicate 64 0))
    as (m' & Hrun & Hback & _).
  - discriminate.
  - reflexivity.
  - reflexivity.
  - by apply (bool_decide_unpack _); vm_compute.
  - reflexivity.
  - simpl. lia.
  - lia.
  - exists m'. split; [exact Hrun|]. by apply Hback.
Defined.

Lemma serialize_list_app (a b : list Z) :
  serialize_list (a ++ b) = serialize_list a ++ serialize_list b.
Proof. unfold serialize_list. by rewrite map_app, concat_app. Qed.

Lemma take_4_more (l : list Z) (n : nat) :
  (n + 4 <= length l)%nat ->
  take (n + 4) l
  = take n l ++ [l !!! n; l !!! (n + 1)%nat; l !!! (n + 2)%nat;
                 l !!! (n + 3)%nat].
Proof.
  intros Hl. replace (n + 4)%nat with (S (S (S (S n)))) by lia.
  rewrite (take_S_r l (S (S (S n))) (l !!! (n + 3)%nat))
    by (replace (S (S (S n))) with (n + 3)%nat by lia;
        apply list_lookup_lookup_total_lt; lia).
  rewrite (take_S_r l (S (S n)) (l !!! (n + 2)%nat))
    by (replace (S (S n)) with (n + 2)%nat by lia;
        apply list_lookup_lookup_total_lt; lia).
  rewrite (take_S_r l (S n) (l !!! (n + 1)%nat))
    by (replace (S n) with (n + 1)%nat by lia;
        apply list_lookup_lookup_total_lt; lia).
  rewrite (take_S_r l n (l !!! n))
    by (apply list_lookup_lookup_total_lt; lia).
  by rewrite <- !app_assoc.
Qed.

(** The words [u8t32le] reads from bytes serialize back to those bytes. *)
Lemma serialize_le_words (n : nat) (bs : list Z) :
  Forall is_u8 bs -> (4 * n <= length bs)%nat ->
  serialize_list (le_words n bs) = take (4 * n) bs.
Proof.
  intros Hb. induction n as [|n IH]; intros Hn; [done|].
  unfold le_words in *. rewrite seq_S, fmap_app, serialize_list_app.
  rewrite IH by lia.
  replace (4 * S n)%nat with (4 * n + 4)%nat by lia.
  rewrite take_4_more by lia. apply (f_equal (app _)).
  change (serialize_list (le_word_at bs <$> [(0 + n)%nat]))
    with (word_bytes (le_word_at bs n)).
  unfold le_word_at.
  apply word_bytes_le; (apply Forall_lookup_total_1; [done|lia]).
Qed.

(** X7. The state holds its inputs verbatim: serializing the state that
    [chacha20_init_state] has built gives the sixteen bytes of
    "expand 32-byte k", the 32 key bytes, the four little-endian bytes of
    the counter and the 12 nonce bytes, in that order. *)
Theorem chacha20_init_state_serialized (fuel : nat) (m : mem)
    (as_ ak an ao : string) (key nonce lo : list Z) (counter : Z) :
  init_call m as_ ak an key nonce -> as_ <> ao ->
  m !! ao = Some lo -> (64 <= length lo)%nat ->
  Forall is_u8 key -> Forall is_u8 nonce -> (16 < fuel)%nat ->
  exists m',
    (chacha20_init_state fuel (Ptr as_ 0) (Ptr ak 0) counter (Ptr an 0) ;;;
     chacha20_serialize fuel (Ptr as_ 0) (Ptr ao 0)) m = Ok (tt, m') /\
    m' !! ao
    = Some (Spec.constant_bytes ++ key ++ word_bytes counter ++ nonce
            ++ drop 64 lo).
Proof.
  intros (Hsk & Hsn & (ls & Hs & Hls) & Hk & Hlk & Hn & Hln) Hso Ho Hlo
    Hkey Hnonce Hfuel.
  eexists. split.
  - erewrite bind_ok; cycle 1.
    { apply chacha20_init_state_run with (ls := ls) (key := key)
        (nonce := nonce); try done; lia. }
    apply chacha20_serialize_run with (ws := init_words key counter nonce)
      (lo := lo); [done|apply lookup_insert_eq|apply length_init_words
                  |by rewrite lookup_insert_ne|done|done].
  - rewrite lookup_insert_eq. apply (f_equal Some).
    unfold init_words. rewrite !serialize_list_app.
    rewrite !serialize_le_words by (done || lia).
    rewrite !take_ge by lia.
    change (serialize_list sigma) with Spec.constant_bytes.
    change (serialize_list [counter]) with (word_bytes counter).
    by rewrite <- !app_assoc.
Qed.

Lemma chacha20_init_state_serialized_witness :
  exists m' : mem,
    (chacha20_init_state 17 (Ptr "s" 0) (Ptr "key" 0) 0x04030201
       (Ptr "nonce" 0) ;;;
     chacha20_serialize 17 (Ptr "s" 0) (Ptr "block" 0))
      (<["s" := replicate 16 0]> (<["key" := seqZ 0 32]>
       (<["nonce" := seqZ 100 12]> {["block" := replicate 64 0]})))
    = Ok (tt, m') /\
    m' !! "block"
    = Some (Spec.constant_bytes ++ seqZ 0 32 ++ [1; 2; 3; 4] ++ seqZ 100 12).
Proof.
  destruct (chacha20_init_state_serialized 17
              (<["s" := replicate 16 0]> (<["key" := seqZ 0 32]>
               (<["nonce" := seqZ 100 12]> {["block" := replicate 64 0]})))
              "s" "key" "nonce" "block" (seqZ 0 32) (seqZ 100 12)
              (replicate 64 0) 0x04030201) as (m' & Hrun & Hout).
  - repeat split; try done. by exists (replicate 16 0).
  - discriminate.
  - reflexivity.
  - simpl. lia.
  - by apply (bool_decide_unpack _); vm_compute.
  - by apply (bool_decide_unpack _); vm_compute.
  - lia.
  - exists m'. split; [exact Hrun|]. rewrite Hout. apply (f_equal Some).
    by vm_compute.
Defined.

(** ** The rotation and the quarter round are invertible *)

Lemma testbit_u32_high (x i : Z) : is_u32 x -> 32 <= i -> Z.testbit x i = false.
Proof.
  intros Hx Hi. rewrite <- (Z.mod_small x (2 ^ 32)) by exact Hx.
  apply Z.mod_pow2_bits_high. lia.
Qed.

Lemma rotl32_shift_amount (n : Z) :
  0 <= n < 32 -> Z.land (- n) 31 = (32 - n) mod 32.
Proof.
  intros Hn. change 31 with (Z.ones 5). rewrite Z.land_ones by lia.
  change (2 ^ 5) with 32.
  replace (32 - n) with (- n + 1 * 32) by lia. by rewrite Z.mod_add by lia.
Qed.

(** X8. [rotl32] is the rotation of the 32 bits: for a 32-bit [x] and
    [0 <= n < 32], bit [i] of [rotl32(x, n)] is bit [(i - n) mod 32] of
    [x], and the result is again a 32-bit value. *)
Theorem rotl32_testbit (x n i : Z) :
  is_u32 x -> 0 <= n < 32 -> 0 <= i < 32 ->
  Z.testbit (rotl32 x n) i = Z.testbit x ((i - n) mod 32)
  /\ is_u32 (rotl32 x n).
Proof.
  intros Hx Hn Hi. split; [|by apply is_u32_rotl32].
  unfold rotl32, shl32, u32.
  rewrite Z.lor_spec, Z.mod_pow2_bits_low, Z.shiftl_spec, Z.shiftr_spec,
    rotl32_shift_amount by lia.
  destruct (Z.eq_dec n 0) as [->|Hn0].
  - change ((32 - 0) mod 32) with 0.
    rewrite Z.sub_0_r, Z.add_0_r, Z.mod_small by lia. apply orb_diag.
  - rewrite (Z.mod_small (32 - n)) by lia.
    destruct (Z.lt_ge_cases i n) as [Hlt|Hge].
    + rewrite (Z.testbit_neg_r x (i - n)) by lia.
      replace ((i - n) mod 32) with (i + (32 - n)); [done|].
      replace (i - n) with (i + (32 - n) + (-1) * 32) by lia.
      rewrite Z.mod_add, Z.mod_small by lia. done.
    + rewrite (testbit_u32_high x (i + (32 - n))) by (done || lia).
      rewrite Z.mod_small by lia. apply orb_false_r.
Qed.

Lemma rotl32_testbit_witness :
  Z.testbit (rotl32 0x80000001 4) 3 = Z.testbit 0x80000001 31
  /\ is_u32 (rotl32 0x80000001 4).
Proof.
  apply (rotl32_testbit 0x80000001 4 3); unfold is_u32; lia.
Defined.

(** Rotating left by [n] and then by [32 - n] gives the value back. *)
Lemma rotl32_unrot (x n : Z) :
  is_u32 x -> 0 < n < 32 -> rotl32 (rotl32 x n) (32 - n) = x.
Proof.
  intros Hx Hn. apply Z.bits_inj'. intros i Hi.
  destruct (Z.lt_ge_cases i 32) as [Hlt|Hge].
  - destruct (rotl32_testbit (rotl32 x n) (32 - n) i) as [-> _];
      [by apply is_u32_rotl32|lia|lia|].
    assert (Hj : 0 <= (i - (32 - n)) mod 32 < 32)
      by (apply Z.mod_pos_bound; lia).
    destruct (rotl32_testbit x n ((i - (32 - n)) mod 32)) as [-> _];
      [done|lia|done|].
    f_equal. rewrite Zminus_mod_idemp_l.
    replace (i - (32 - n) - n) with (i + (-1) * 32) by lia.
    rewrite Z.mod_add, Z.mod_small by lia. done.
  - rewrite !testbit_u32_high; try done. by do 2 apply is_u32_rotl32.
Qed.

Lemma sub32_add32 (x y : Z) : is_u32 x -> sub32 (add32 x y) y = x.
Proof.
  intros Hx. unfold sub32, add32, u32.
  rewrite Zminus_mod_idemp_l. replace (x + y - y) with x by lia.
  by apply Z.mod_small.
Qed.

Lemma lxor_cancel_r (x y : Z) : Z.lxor (Z.lxor x y) y = x.
Proof. by rewrite Z.lxor_assoc, Z.lxor_nilpotent, Z.lxor_0_r. Qed.

Lemma quarterround_vals_inverse (a b c d : Z) :
  is_u32 a -> is_u32 b -> is_u32 c -> is_u32 d ->
  quarterround_vals_inv (quarterround_vals a b c d) = (a, b, c, d).
Proof.
  intros Ha Hb Hc Hd. unfold quarterround_vals.
  set (a1 := add32 a b). set (d1 := rotl32 (Z.lxor d a1) 16).
  set (c1 := add32 c d1). set (b1 := rotl32 (Z.lxor b c1) 12).
  set (a2 := add32 a1 b1). set (d2 := rotl32 (Z.lxor d1 a2) 8).
  set (c2 := add32 c1 d2). set (b2 := rotl32 (Z.lxor b1 c2) 7).
  assert (Ha1 : is_u32 a1) by apply is_u32_add32.
  assert (Hd1 : is_u32 d1) by (unfold d1; auto with u32).
  assert (Hc1 : is_u32 c1) by apply is_u32_add32.
  assert (Hb1 : is_u32 b1) by (unfold b1; auto with u32).
  assert (Ha2 : is_u32 a2) by apply is_u32_add32.
  assert (Hd2 : is_u32 d2) by (unfold d2; auto with u32).
  assert (Hc2 : is_u32 c2) by apply is_u32_add32.
  assert (Eb1 : Z.lxor (rotl32 b2 25) c2 = b1).
  { unfold b2. rewrite (rotl32_unrot _ 7) by (auto with u32 || lia).
    apply lxor_cancel_r. }
  assert (Ec1 : sub32 c2 d2 = c1) by (by apply sub32_add32).
  assert (Ed1 : Z.lxor (rotl32 d2 24) a2 = d1).
  { unfold d2. rewrite (rotl32_unrot _ 8) by (auto with u32 || lia).
    apply lxor_cancel_r. }
  assert (Ea1 : sub32 a2 b1 = a1) by (by apply sub32_add32).
  assert (Eb : Z.lxor (rotl32 b1 20) c1 = b).
  { unfold b1. rewrite (rotl32_unrot _ 12) by (auto with u32 || lia).
    apply lxor_cancel_r. }
  assert (Ec : sub32 c1 d1 = c) by (by apply sub32_add32).
  assert (Ed : Z.lxor (rotl32 d1 16) a1 = d).
  { unfold d1. rewrite (rotl32_unrot _ 16) by (auto with u32 || lia).
    apply lxor_cancel_r. }
  assert (Ea : sub32 a1 b = a) by (by apply sub32_add32).
  unfold quarterround_vals_inv. cbv zeta.
  by rewrite Eb1, Ec1, Ed1, Ea1, Eb, Ec, Ed, Ea.
Qed.

Lemma quarterround_vals_inj (a b c d a' b' c' d' : Z) :
  is_u32 a -> is_u32 b -> is_u32 c -> is_u32 d ->
  is_u32 a' -> is_u32 b' -> is_u32 c' -> is_u32 d' ->
  quarterround_vals a b c d = quarterround_vals a' b' c' d' ->
  (a, b, c, d) = (a', b', c', d').
Proof.
  intros Ha Hb Hc Hd Ha' Hb' Hc' Hd' H.
  apply (f_equal quarterround_vals_inv) in H.
  by rewrite !quarterround_vals_inverse in H.
Qed.

Lemma quarterround_list_inj (l1 l2 : list Z) (a b c d : nat) :
  (a, b, c, d) ∈ Spec.columns ++ Spec.diagonals ->
  length l1 = 16%nat -> length l2 = 16%nat ->
  Forall is_u32 l1 -> Forall is_u32 l2 ->
  quarterround_list l1 (Z.of_nat a) (Z.of_nat b) (Z.of_nat c) (Z.of_nat d)
  = quarterround_list l2 (Z.of_nat a) (Z.of_nat b) (Z.of_nat c) (Z.of_nat d) ->
  l1 = l2.
Proof.
  intros Hg Hl1 Hl2 Hu1 Hu2 H.
  rewrite !quarterround_list_put4 in H by done.
  assert (Hget1 : forall i, (i < 16)%nat -> is_u32 (l1 !!! i))
    by (intros i Hi; apply Forall_lookup_total_1; [done|lia]).
  assert (Hget2 : forall i, (i < 16)%nat -> is_u32 (l2 !!! i))
    by (intros i Hi; apply Forall_lookup_total_1; [done|lia]).
  assert (Hlt : (a < 16 /\ b < 16 /\ c < 16 /\ d < 16)%nat).
  { unfold Spec.columns, Spec.diagonals in Hg. simpl app in Hg.
    repeat (apply elem_of_cons in Hg as [Hg|Hg];
            [injection Hg as -> -> -> ->; lia|]).
    by apply elem_of_nil in Hg. }
  destruct Hlt as (Ha & Hb & Hc & Hd).
  pose proof (quarterround_vals_inj _ _ _ _ _ _ _ _
                (Hget1 a Ha) (Hget1 b Hb) (Hget1 c Hc) (Hget1 d Hd)
                (Hget2 a Ha) (Hget2 b Hb) (Hget2 c Hc) (Hget2 d Hd)) as Hinj.
  destruct (quarterround_vals (l1 !!! a) (l1 !!! b) (l1 !!! c) (l1 !!! d))
    as [[[a1 b1] c1] d1].
  destruct (quarterround_vals (l2 !!! a) (l2 !!! b) (l2 !!! c) (l2 !!! d))
    as [[[a2 b2] c2] d2].
  clear Hget1 Hget2 Hu1 Hu2.
  do 16 (destruct l1 as [|? l1]; [discriminate Hl1|]).
  destruct l1; [|discriminate Hl1].
  do 16 (destruct l2 as [|? l2]; [discriminate Hl2|]).
  destruct l2; [|discriminate Hl2].
  unfold Spec.columns, Spec.diagonals in Hg. simpl app in Hg.
  repeat (apply elem_of_cons in Hg as [Hg|Hg];
          [injection Hg as -> -> -> ->; simpl in H, Hinj;
           injection H as -> -> -> -> -> -> -> -> -> -> -> -> -> -> -> ->;
           by injection (Hinj eq_refl) as -> -> -> ->|]).
  by apply elem_of_nil in Hg.
Qed.

(** X9. The quarter round loses nothing: on each of the eight index groups
    of the double round, two states of sixteen 32-bit words that
    [chacha20_quarterround] maps to the same state are the same state. *)
Theorem chacha20_quarterround_injective (m1 m2 : mem) (n : string)
    (l1 l2 : list Z) (a b c d : nat) :
  (a, b, c, d) ∈ Spec.columns ++ Spec.diagonals ->
  m1 !! n = Some l1 -> m2 !! n = Some l2 ->
  length l1 = 16%nat -> length l2 = 16%nat ->
  Forall is_u32 l1 -> Forall is_u32 l2 ->
  exists m1' m2',
    chacha20_quarterround (Ptr n 0) (Z.of_nat a) (Z.of_nat b) (Z.of_nat c)
      (Z.of_nat d) m1 = Ok (tt, m1') /\
    chacha20_quarterround (Ptr n 0) (Z.of_nat a) (Z.of_nat b) (Z.of_nat c)
      (Z.of_nat d) m2 = Ok (tt, m2') /\
    (m1' !! n = m2' !! n -> l1 = l2).
Proof.
  intros Hg Hm1 Hm2 Hl1 Hl2 Hu1 Hu2.
  assert (Hlt : (a < 16 /\ b < 16 /\ c < 16 /\ d < 16)%nat).
  { unfold Spec.columns, Spec.diagonals in Hg. simpl app in Hg.
    repeat (apply elem_of_cons in Hg as [Hg'|Hg];
            [injection Hg' as -> -> -> ->; lia|]).
    by apply elem_of_nil in Hg. }
  eexists _, _. split; [|split].
  - rewrite <- (insert_id m1 n l1 Hm1) at 1.
    apply chacha20_quarterround_run; lia.
  - rewrite <- (insert_id m2 n l2 Hm2) at 1.
    apply chacha20_quarterround_run; lia.
  - rewrite !lookup_insert_eq. intros H. injection H as H.
    by apply (quarterround_list_inj l1 l2 a b c d).
Qed.

Lemma chacha20_quarterround_injective_witness :
  exists m1' m2' : mem,
    chacha20_quarterround (Ptr "x" 0) 0 5 10 15 {["x" := seqZ 0 16]}
    = Ok (tt, m1') /\
    chacha20_quarterround (Ptr "x" 0) 0 5 10 15 {["x" := seqZ 1 16]}
    = Ok (tt, m2') /\
    (m1' !! "x" = m2' !! "x" -> seqZ 0 16 = seqZ 1 16).
Proof.
  apply (chacha20_quarterround_injective {["x" := seqZ 0 16]}
           {["x" := seqZ 1 16]} "x" (seqZ 0 16) (seqZ 1 16) 0 5 10 15).
  - apply (bool_decide_unpack _). by vm_compute.
  - reflexivity.
  - reflexivity.
  - reflexivity.
  - reflexivity.
  - by apply (bool_decide_unpack _); vm_compute.
  - by apply (bool_decide_unpack _); vm_compute.
Defined.

(** ** What [ChaCha20XOR] leaves alone *)

(** X10. [ChaCha20XOR] changes nothing but [out] and its locals [s],
    [block] and [x]: every other array, the key, the nonce and the input
    among them when they are not [out], is as before the call, for
    [inlen <= INT_MAX - 63]; with [inlen <= 0] the loop is not entered and
    [out] is unchanged as well. *)
Theorem ChaCha20XOR_frame (fuel : nat) (m : mem) (ak an ai ao : string)
    (key nonce input lo : list Z) (counter inlen : Z) :
  xor_call m ak an ai ao key nonce input lo ->
  is_u32 counter ->
  (Z.to_nat inlen <= length input)%nat ->
  (Z.to_nat inlen <= length lo)%nat ->
  inlen <= INT_MAX - 63 ->
  (fuel_for (Z.to_nat inlen) <= fuel)%nat ->
  exists m',
    ChaCha20XOR fuel (Ptr ak 0) counter (Ptr an 0) (Ptr ai 0) (Ptr ao 0)
      inlen m = Ok (tt, m') /\
    (forall a, a <> ao -> a ∉ ["s"; "block"; "x"] -> m' !! a = m !! a) /\
    (ak <> ao -> m' !! ak = Some key) /\
    (an <> ao -> m' !! an = Some nonce) /\
    m' !! ai = Some input /\
    (inlen <= 0 -> m' !! ao = Some lo).
Proof.
  intros Hcall Hc Hinput Hout Hint Hfuel.
  destruct (ChaCha20XOR_run fuel m ak an ai ao key nonce input lo counter
              inlen) as (m' & Hrun & Hinv); try done.
  pose proof (xor_inv_final _ _ _ _ _ _ _ _ _ _ Hinput Hinv) as Ho.
  destruct Hinv as (_ & Ii & _ & _ & _ & If).
  destruct Hcall as (Hnames & Hio & Hk & _ & Hn & _).
  assert (Hframe : forall a, a <> ao -> a ∉ ["s"; "block"; "x"] ->
                             m' !! a = m !! a).
  { intros a Hao Ha. destruct (not_local a Ha) as (? & ? & ?).
    by apply If. }
  exists m'. split; [exact Hrun|]. split; [exact Hframe|].
  split; [|split; [|split; [exact Ii|]]].
  - intros Hne. rewrite Hframe; [done|done|]. apply Hnames. set_solver.
  - intros Hne. rewrite Hframe; [done|done|]. apply Hnames. set_solver.
  - intros Hle. rewrite Ho.
    replace (Z.to_nat inlen) with 0%nat by lia. by rewrite drop_0.
Qed.

Lemma ChaCha20XOR_frame_witness :
  exists m' : mem,
    ChaCha20XOR 65 (Ptr "key" 0) 0 (Ptr "nonce" 0) (Ptr "in" 0)
      (Ptr "out" 0) (-5)
      (<["key" := seqZ 0 32]> (<["nonce" := seqZ 0 12]>
       (<["in" := [1; 2; 3]]> (<["out" := [9; 9; 9]]>
       (<["s" := replicate 16 0]> (<["block" := replicate 64 0]>
       {["x" := replicate 16 0]}))))))
    = Ok (tt, m') /\
    m' !! "key" = Some (seqZ 0 32) /\ m' !! "out" = Some [9; 9; 9].
Proof.
  destruct (ChaCha20XOR_frame 65
              (<["key" := seqZ 0 32]> (<["nonce" := seqZ 0 12]>
               (<["in" := [1; 2; 3]]> (<["out" := [9; 9; 9]]>
               (<["s" := replicate 16 0]> (<["block" := replicate 64 0]>
               {["x" := replicate 16 0]}))))))
              "key" "nonce" "in" "out" (seqZ 0 32) (seqZ 0 12)
              [1; 2; 3] [9; 9; 9] 0 (-5))
    as (m' & Hrun & _ & Hkey & _ & _ & Hout).
  - split; [|repeat split; try done;
             [by exists (replicate 16 0)|by exists (replicate 64 0)
             |by exists (replicate 16 0)]].
    intros a Ha. apply (bool_decide_unpack _).
    repeat (apply elem_of_cons in Ha as [->|Ha]; [by vm_compute|]).
    by apply elem_of_nil in Ha.
  - by apply (bool_decide_unpack _); vm_compute.
  - vm_compute. lia.
  - vm_compute. lia.
  - unfold INT_MAX. lia.
  - vm_compute. lia.
  - exists m'. split; [exact Hrun|]. split; [by apply Hkey|].
    apply Hout. lia.
Defined.

(** ** Arrays that are too short

    The functions do not check the length of their arrays.  In the
    embedding a read or a write past the end of an array is the error
    [OutOfBounds]; the lemmas below follow a call up to that access. *)

Lemma load_none (m : mem) (a : string) (o i : Z) (l : list Z) :
  m !! a = Some l -> 0 <= o + i -> l !! Z.to_nat (o + i) = None ->
  load (Ptr a o) i m = Err OutOfBounds.
Proof.
  intros Hm Hi Hl. unfold load; simpl. rewrite Hm.
  destruct (Z.leb_spec 0 (o + i)); [|lia]. by rewrite Hl.
Qed.

Lemma store_oob (m : mem) (a : string) (o i v : Z) (l : list Z) :
  m !! a = Some l -> Z.of_nat (length l) <= o + i ->
  store (Ptr a o) i v m = Err OutOfBounds.
Proof.
  intros Hm Hi. unfold store; simpl. rewrite Hm.
  destruct (Z.ltb_spec (o + i) (Z.of_nat (length l))); [lia|].
  by rewrite andb_false_r.
Qed.

(** A loop whose body fails at the index [idx k] after [k] iterations
    fails with the same error. *)
Lemma for_loop_err (cond : Z -> bool) (next : Z -> Z) (body : Z -> M bool)
    (idx : nat -> Z) (st : nat -> mem) (k : nat) (i0 : Z) (m0 : mem)
    (e : error) :
  i0 = idx 0%nat -> m0 = st 0%nat ->
  (forall j, (j < k)%nat ->
     cond (idx j) = true /\ body (idx j) (st j) = Ok (false, st (S j))
     /\ next (idx j) = idx (S j)) ->
  cond (idx k) = true -> body (idx k) (st k) = Err e ->
  forall fuel, (k < fuel)%nat ->
  for_loop fuel cond next body i0 m0 = Err e.
Proof.
  intros -> -> Hstep Hc He.
  cut (forall d j0, (j0 + d = k)%nat -> forall fuel, (d < fuel)%nat ->
         for_loop fuel cond next body (idx j0) (st j0) = Err e).
  { intros Hgen fuel Hfuel. by apply (Hgen k 0%nat). }
  induction d as [|d IH]; intros j0 Hj fuel Hfuel;
    (destruct fuel as [|fuel]; [lia|]); simpl.
  - replace j0 with k by lia. by rewrite Hc, (bind_err _ _ _ _ He).
  - destruct (Hstep j0) as (Hcj & Hb & Hn); [lia|].
    rewrite Hcj, (bind_ok _ _ _ _ _ Hb), Hn. apply IH; lia.
Qed.

Lemma u8t32le_err (m : mem) (a : string) (o : Z) (l : list Z) :
  m !! a = Some l -> 0 <= o -> Z.of_nat (length l) < o + 4 ->
  u8t32le (Ptr a o) m = Err OutOfBounds.
Proof.
  intros Hm Ho Hl. unfold u8t32le. apply bind_err.
  apply load_none with (l := l); [done|lia|].
  apply lookup_ge_None. lia.
Qed.

Lemma load_word_step (m : mem) (as_ asrc : string) (pre old bs : list Z)
    (n j : nat) (b : Z) :
  as_ <> asrc -> m !! asrc = Some bs -> (4 * S j <= length bs)%nat ->
  (j < n)%nat -> (j < length old)%nat -> b = Z.of_nat (length pre) ->
  nobreak (let* w := u8t32le (padd (Ptr asrc 0) (Z.of_nat j * 4)) in
           store (Ptr as_ 0) (b + Z.of_nat j) w)
    (<[as_ := pre ++ take j (le_words n bs) ++ drop j old]> m)
  = Ok (false, <[as_ := pre ++ take (S j) (le_words n bs)
                        ++ drop (S j) old]> m).
Proof.
  intros Hne Hsrc Hbs Hj Hold ->.
  apply nobreak_ok. unfold padd; simpl.
  erewrite bind_ok; cycle 1.
  { apply u8t32le_run with (l := bs);
      [by rewrite lookup_insert_ne|lia|..]; apply lookup_Z_lt; lia. }
  rewrite store_ins by (rewrite !length_app, length_take, length_drop,
                          length_le_words; lia).
  do 2 f_equal. f_equal.
  replace (Z.to_nat (Z.of_nat (length pre) + Z.of_nat j))
    with (length pre + j)%nat by lia.
  rewrite insert_app_r_alt by lia.
  replace (length pre + j - length pre)%nat with j by lia.
  f_equal. apply fill_step; [lia|].
  rewrite lookup_le_words by done. unfold le_word_at. do 2 f_equal.
  all: f_equal; lia.
Qed.

(** The word-reading loop of [chacha20_init_state] on a source array with
    fewer than [4 * n] elements. *)
Lemma load_words_err (fuel : nat) (m : mem) (as_ asrc : string)
    (pre old bs : list Z) (n : nat) (nz b : Z) :
  as_ <> asrc -> m !! asrc = Some bs -> (length bs < 4 * n)%nat ->
  nz = Z.of_nat n -> b = Z.of_nat (length pre) ->
  (n <= length old)%nat -> (n < fuel)%nat ->
  for_loop fuel (fun i => i <? nz) (fun i => i + 1)
    (fun i => nobreak (let* w := u8t32le (padd (Ptr asrc 0) (i * 4)) in
                       store (Ptr as_ 0) (b + i) w))
    0 (<[as_ := pre ++ old]> m)
  = Err OutOfBounds.
Proof.
  intros Hne Hsrc Hbs -> Hb Hold Hfuel.
  pose proof (Nat.div_mod_eq (length bs) 4) as Hdiv.
  pose proof (Nat.mod_upper_bound (length bs) 4 ltac:(lia)) as Hmod.
  set (k := (length bs / 4)%nat) in *.
  apply (for_loop_err _ _ _ Z.of_nat
           (fun j => <[as_ := pre ++ take j (le_words n bs) ++ drop j old]> m)
           k); [done|by rewrite drop_0| | | |lia].
  - intros j Hj. split; [apply Z.ltb_lt; lia|]. split; [|lia].
    apply load_word_step; try done; lia.
  - apply Z.ltb_lt. lia.
  - unfold nobreak. apply bind_err, bind_err. unfold padd; simpl.
    apply u8t32le_err with (l := bs); [by rewrite lookup_insert_ne|lia|lia].
Qed.

Lemma chacha20_init_state_short_key (fuel : nat) (m : mem)
    (as_ ak : string) (an : ptr) (ls key : list Z) (counter : Z) :
  as_ <> ak -> m !! as_ = Some ls -> length ls = 16%nat ->
  m !! ak = Some key -> (length key < 32)%nat -> (8 < fuel)%nat ->
  chacha20_init_state fuel (Ptr as_ 0) (Ptr ak 0) counter an m
  = Err OutOfBounds.
Proof.
  intros Hsk Hs Hls Hk Hlk Hfuel. unfold chacha20_init_state.
  erewrite bind_ok; [|apply store_ok with (l := ls); [done|lia]].
  do 3 (erewrite bind_ok; [|apply store_ins; rewrite !length_insert; lia]).
  match goal with
  | |- context [<[as_ := ?l]> m] =>
      replace l with (sigma ++ drop 4 ls)
        by (symmetry; apply (insert4 ls 0); lia)
  end.
  apply bind_err.
  apply (load_words_err fuel m as_ ak sigma _ key 8 8 4);
    rewrite ?length_drop; simpl; try done; lia.
Qed.

Lemma chacha20_init_state_short_nonce (fuel : nat) (m : mem)
    (as_ ak an : string) (ls key nonce : list Z) (counter : Z) :
  as_ <> ak -> as_ <> an -> m !! as_ = Some ls -> length ls = 16%nat ->
  m !! ak = Some key -> (32 <= length key)%nat ->
  m !! an = Some nonce -> (length nonce < 12)%nat -> (8 < fuel)%nat ->
  chacha20_init_state fuel (Ptr as_ 0) (Ptr ak 0) counter (Ptr an 0) m
  = Err OutOfBounds.
Proof.
  intros Hsk Hsn Hs Hls Hk Hlk Hn Hln Hfuel. unfold chacha20_init_state.
  erewrite bind_ok; [|apply store_ok with (l := ls); [done|lia]].
  do 3 (erewrite bind_ok; [|apply store_ins; rewrite !length_insert; lia]).
  match goal with
  | |- context [<[as_ := ?l]> m] =>
      replace l with (sigma ++ drop 4 ls)
        by (symmetry; apply (insert4 ls 0); lia)
  end.
  erewrite bind_ok; cycle 1.
  { apply (load_words_run fuel m as_ ak sigma _ key 8 8 4);
      rewrite ?length_drop; simpl; try done; lia. }
  rewrite drop_drop.
  match goal with |- context [drop ?k ls] => change k with 12%nat end.
  destruct (lookup_lt_is_Some_2 ls 12) as [y Hy]; [lia|].
  rewrite (drop_S _ _ _ Hy).
  erewrite bind_ok; cycle 1.
  { apply store_ins. rewrite !length_app, length_le_words. simpl. lia. }
  match goal with
  | |- context [<[as_ := ?l]> m] =>
      replace l
        with ((sigma ++ le_words 8 key ++ [counter]) ++ drop 13 ls)
  end; cycle 1.
  { rewrite <- !app_assoc. symmetry.
    rewrite (app_assoc sigma (le_words 8 key) (y :: _)).
    rewrite insert_app_r_alt
      by (rewrite length_app, length_le_words; simpl; lia).
    rewrite length_app, length_le_words.
    replace (Z.to_nat 12 - (length sigma + 8))%nat with 0%nat
      by (simpl; lia).
    by rewrite <- app_assoc. }
  apply (load_words_err fuel m as_ an _ _ nonce 3 3 13);
    [done|done|lia|done
    |rewrite !length_app, length_le_words; simpl; lia
    |rewrite length_drop; lia|lia].
Qed.

(** X11. [ChaCha20XOR] reads 32 bytes of key and 12 bytes of nonce whatever
    the arrays hold: with a key array of fewer than 32 elements, or a nonce
    array of fewer than 12, the call reads past the end of that array
    before any output is written. *)
Theorem ChaCha20XOR_short_key_or_nonce (fuel : nat) (m : mem)
    (ak an : string) (in_ out : ptr) (ls key nonce : list Z)
    (counter inlen : Z) :
  ak <> "s" -> an <> "s" ->
  m !! "s" = Some ls -> length ls = 16%nat ->
  m !! ak = Some key -> m !! an = Some nonce ->
  (length key < 32)%nat \/ (length nonce < 12)%nat ->
  (8 < fuel)%nat ->
  ChaCha20XOR fuel (Ptr ak 0) counter (Ptr an 0) in_ out inlen m
  = Err OutOfBounds.
Proof.
  intros Hks Hns Hs Hls Hk Hn Hshort Hfuel.
  unfold ChaCha20XOR. apply bind_err.
  destruct (decide (length key < 32)%nat) as [Hlk|Hlk].
  - by apply chacha20_init_state_short_key with (ls := ls) (key := key).
  - destruct Hshort as [?|Hln]; [lia|].
    apply chacha20_init_state_short_nonce with (ls := ls) (key := key)
      (nonce := nonce); try done; lia.
Qed.

Lemma ChaCha20XOR_short_key_or_nonce_witness :
  ChaCha20XOR 9 (Ptr "key" 0) 0 (Ptr "nonce" 0) (Ptr "in" 0) (Ptr "out" 0) 3
    (<["key" := seqZ 0 31]> (<["nonce" := seqZ 0 12]>
     (<["in" := [1; 2; 3]]> (<["out" := [9; 9; 9]]>
     (<["s" := replicate 16 0]> (<["block" := replicate 64 0]>
     {["x" := replicate 16 0]}))))))
  = Err OutOfBounds.
Proof.
  apply (ChaCha20XOR_short_key_or_nonce 9 _ "key" "nonce" (Ptr "in" 0)
           (Ptr "out" 0) (replicate 16 0) (seqZ 0 31) (seqZ 0 12) 0 3).
  - discriminate.
  - discriminate.
  - reflexivity.
  - reflexivity.
  - reflexivity.
  - reflexivity.
  - left. vm_compute. lia.
  - lia.
Defined.

(** ** [ChaCha20XOR] with [in == out]

    The inner loop reads [in[j]] before it writes [out[j]] and never comes
    back to an index, so the call may run on one array. *)

Lemma xor_loop_run_inplace (fuel : nat) (m : mem) (a : string)
    (blk cur target : list Z) (i : nat) (inlen : Z) (cnt : nat) :
  a <> "block" ->
  m !! "block" = Some blk -> m !! a = Some cur ->
  Z.of_nat cnt = Z.min 64 (inlen - Z.of_nat i) ->
  (i + cnt <= length cur)%nat ->
  (forall jj, (jj < cnt)%nat ->
     exists x k, cur !! (i + jj)%nat = Some x /\
                 blk !! jj = Some k /\
                 target !! (i + jj)%nat = Some (u8 (Z.lxor x k))) ->
  Z.of_nat i + 64 <= INT_MAX ->
  (64 < fuel)%nat ->
  for_loop fuel (fun j => j <? int32 (Z.of_nat i + 64))
    (fun j => int32 (j + 1))
    (fun j =>
       if inlen <=? j then ret true
       else
         let* x := load (Ptr a 0) j in
         let* k := load (Ptr "block" 0) (j - Z.of_nat i) in
         store (Ptr a 0) j (u8 (Z.lxor x k)) ;;;
         ret false)
    (Z.of_nat i) m
  = Ok (tt, <[a := take i cur ++ take cnt (drop i target)
                  ++ drop (i + cnt) cur]> m).
Proof.
  intros Hab Hblk Hcur Hcnt Hlen Hbytes Hint Hfuel.
  rewrite (int32_id (Z.of_nat i + 64)) by (unfold INT_MIN; lia).
  set (pre := take i cur).
  set (new := drop i target).
  set (old := drop i cur).
  assert (Hpre : length pre = i)
    by (unfold pre; rewrite length_take; lia).
  replace (drop (i + cnt) cur) with (drop cnt old)
    by (unfold old; by rewrite drop_drop).
  apply (for_loop_run _ _ _ (fun jj => Z.of_nat i + Z.of_nat jj)
           (fun jj => <[a := pre ++ take jj new ++ drop jj old]> m) cnt);
    [lia| | | |lia].
  - cbn beta. rewrite drop_0. change (take 0 new ++ old) with old.
    unfold pre, old. by rewrite take_drop, insert_id.
  - intros jj Hjj. split; [apply Z.ltb_lt; lia|].
    split; [|rewrite int32_id by (unfold INT_MIN; lia); lia].
    destruct (Hbytes jj Hjj) as (x & k & Hx & Hk & Ht).
    assert (Hnew : (jj < length new)%nat).
    { unfold new. rewrite length_drop. apply lookup_lt_Some in Ht. lia. }
    destruct (Z.leb_spec inlen (Z.of_nat i + Z.of_nat jj)) as [Hle|_]; [lia|].
    erewrite bind_ok; cycle 1.
    { apply load_ins; [lia|].
      replace (Z.to_nat (Z.of_nat i + Z.of_nat jj))
        with (length pre + jj)%nat by lia.
      rewrite lookup_app_r by lia.
      replace (length pre + jj - length pre)%nat with jj by lia.
      rewrite lookup_app_r by (rewrite length_take; lia).
      rewrite length_take, Nat.min_l by lia.
      rewrite lookup_drop. unfold old. rewrite lookup_drop.
      rewrite <- Hx. f_equal. lia. }
    erewrite bind_ok; cycle 1.
    { apply load_ok with (l := blk); [by rewrite lookup_insert_ne|lia|].
      by replace (Z.to_nat (0 + (Z.of_nat i + Z.of_nat jj - Z.of_nat i)))
        with jj by lia. }
    erewrite bind_ok; cycle 1.
    { apply store_ins. rewrite !length_app, length_take, length_drop, Hpre.
      unfold old. rewrite length_drop. lia. }
    unfold ret. do 2 f_equal. f_equal.
    replace (Z.to_nat (Z.of_nat i + Z.of_nat jj))
      with (length pre + jj)%nat by lia.
    rewrite insert_app_r_alt by lia.
    replace (length pre + jj - length pre)%nat with jj by lia.
    f_equal. apply fill_step.
    + unfold old. rewrite length_drop. lia.
    + unfold new. by rewrite lookup_drop.
  - cbn beta.
    destruct (Z.ltb_spec (Z.of_nat i + Z.of_nat cnt) (Z.of_nat i + 64))
      as [Hlt|Hge].
    + right. split; [done|].
      by destruct (Z.leb_spec inlen (Z.of_nat i + Z.of_nat cnt))
        as [_|Hgt]; [|lia].
    + by left.
Qed.

(** An iteration of the outer loop on one array takes the invariant at [t]
    to the invariant at [t + 1]. *)
Lemma xor_inplace_inv_step (fuel : nat) (m m1 : mem) (a : string)
    (key nonce input : list Z) (counter inlen : Z) (t : nat) :
  a_not_local a ->
  (Z.to_nat inlen <= length input)%nat ->
  inlen <= INT_MAX - 63 ->
  (64 < fuel)%nat -> (t < blocks (Z.to_nat inlen))%nat ->
  xor_inplace_inv m a key nonce input counter (Z.to_nat inlen) t m1 ->
  exists m2,
    ChaCha20XOR_body fuel (Ptr "s" 0) (Ptr "block" 0) (Ptr a 0) (Ptr a 0)
      inlen (Z.of_nat (64 * t)) m1 = Ok (false, m2) /\
    xor_inplace_inv m a key nonce input counter (Z.to_nat inlen) (S t) m2.
Proof.
  intros (Has & Hab & Hax) Hinput Hint Hfuel Ht
    (Is & Ia & (lb & Ib & Hlb) & (lx & Ix & Hlx) & If).
  set (L := Z.to_nat inlen) in *.
  set (target := ChaCha20XOR_bytes key counter nonce (take L input)) in *.
  assert (Htarget : length target = L).
  { unfold target. rewrite length_ChaCha20XOR_bytes, length_take. lia. }
  apply blocks_lt in Ht. fold L in Ht. rewrite Nat.min_l in Ia by lia.
  set (st := init_words key (u32 (counter + Z.of_nat t)) nonce) in *.
  set (kb := block_bytes st 20).
  assert (Hkb : length kb = 64%nat)
    by apply length_block_bytes, length_init_words.
  set (cur := take (64 * t) target ++ drop (64 * t) input) in *.
  assert (Hcur : length cur = length input).
  { unfold cur. rewrite length_app, length_take, length_drop. lia. }
  set (m2 := <["block" := kb]> (<["x" := block_words st 20]> m1)).
  set (m3 := <["s" := init_words key (u32 (counter + Z.of_nat (S t))) nonce]>
               m2).
  set (e := Nat.min (64 * S t) L).
  set (cnt := (e - 64 * t)%nat).
  exists (<[a := take (64 * t) cur ++ take cnt (drop (64 * t) target)
                 ++ drop (64 * t + cnt) cur]> m3).
  split.
  - unfold ChaCha20XOR_body. apply nobreak_ok.
    erewrite bind_ok; cycle 1.
    { apply chacha20_block_run with (st := st) (lo := lb) (lx := lx);
        [discriminate|discriminate|discriminate|exact Is
        |apply length_init_words|exact Ib|lia|exact Ix|exact Hlx|lia|].
      change (round_iterations 20) with 10%nat. lia. }
    rewrite (drop_ge lb) by lia. rewrite app_nil_r. fold kb. fold m2.
    erewrite bind_ok; cycle 1.
    { erewrite bind_ok; cycle 1.
      { apply load_ok with (l := st);
          [unfold m2; by rewrite !lookup_insert_ne|lia|].
        apply init_words_counter. }
      apply store_ok with (l := st);
        [unfold m2; by rewrite !lookup_insert_ne|].
      unfold st. rewrite length_init_words. lia. }
    change (Z.to_nat (0 + 12)) with 12%nat.
    unfold st at 1. rewrite init_words_set_counter, add32_counter. fold m3.
    apply xor_loop_run_inplace with (blk := kb);
      [exact Hab| | | | |
      |unfold INT_MAX in Hint |- *; unfold L in Ht; lia|exact Hfuel].
    + unfold m3, m2. rewrite lookup_insert_ne by done.
      apply lookup_insert_eq.
    + unfold m3, m2. by rewrite !lookup_insert_ne.
    + unfold cnt, e, L. lia.
    + unfold cnt, e. lia.
    + intros jj Hjj.
      assert (Hjj64 : (jj < 64)%nat) by (unfold cnt, e in Hjj; lia).
      assert (HjL : (64 * t + jj < L)%nat) by (unfold cnt, e in Hjj; lia).
      destruct (lookup_lt_is_Some_2 input (64 * t + jj)) as [x Hx]; [lia|].
      destruct (lookup_lt_is_Some_2 kb jj) as [k Hk]; [lia|].
      exists x, k. split; [|split; [done|]].
      * unfold cur. rewrite lookup_app_r by (rewrite length_take; lia).
        rewrite length_take, Nat.min_l by lia. rewrite lookup_drop.
        rewrite <- Hx. f_equal. lia.
      * unfold target. rewrite lookup_ChaCha20XOR_bytes.
        rewrite lookup_take_lt by done. rewrite Hx.
        cbn [fmap option_fmap option_map]. f_equal.
        unfold xor_byte.
        destruct (block_index t jj Hjj64) as [-> ->].
        unfold keystream_block. fold st. fold kb.
        by rewrite (list_lookup_total_correct _ _ _ Hk).
  - unfold xor_inplace_inv. fold L target e.
    unfold m3, m2.
    split; [rewrite (lookup_insert_ne _ a "s") by done;
            apply lookup_insert_eq|].
    split.
    { rewrite lookup_insert_eq. f_equal.
      assert (Hlen : length (take (64 * t) target) = (64 * t)%nat)
        by (rewrite length_take; lia).
      unfold cur. rewrite take_app_length' by done.
      rewrite drop_app_ge by (unfold cnt, e; lia).
      rewrite Hlen, drop_drop, app_assoc, take_take_drop.
      f_equal; f_equal; unfold cnt, e; lia. }
    split.
    { exists kb. split; [|done].
      rewrite (lookup_insert_ne _ a "block") by done.
      rewrite (lookup_insert_ne _ "s" "block") by done.
      apply lookup_insert_eq. }
    split.
    { exists (block_words st 20). split.
      - rewrite (lookup_insert_ne _ a "x") by done.
        rewrite (lookup_insert_ne _ "s" "x") by done.
        rewrite (lookup_insert_ne _ "block" "x") by done.
        apply lookup_insert_eq.
      - apply length_block_words. apply length_init_words. }
    intros a' Has' Hab' Hax' Haa'. rewrite !lookup_insert_ne by done.
    by apply If.
Qed.

(** X12. [ChaCha20XOR] may be called with [in == out]: for
    [inlen <= INT_MAX - 63] the call returns and leaves in the first
    [inlen] elements of the array the bytes that
    the call on two arrays ([cipher]) returns for them, the rest of the
    array and every array other than the locals as they were. *)
Theorem ChaCha20XOR_in_place (fuel : nat) (m : mem) (ak an a : string)
    (key nonce input : list Z) (counter inlen : Z) :
  (forall b, b ∈ [ak; an; a] -> b ∉ ["s"; "block"; "x"]) ->
  m !! ak = Some key -> length key = 32%nat ->
  m !! an = Some nonce -> length nonce = 12%nat ->
  m !! a = Some input ->
  (exists ls, m !! "s" = Some ls /\ length ls = 16%nat) ->
  (exists lb, m !! "block" = Some lb /\ length lb = 64%nat) ->
  (exists lx, m !! "x" = Some lx /\ length lx = 16%nat) ->
  is_u32 counter ->
  (Z.to_nat inlen <= length input)%nat ->
  inlen <= INT_MAX - 63 ->
  (fuel_for (Z.to_nat inlen) <= fuel)%nat ->
  exists m' bytes,
    ChaCha20XOR fuel (Ptr ak 0) counter (Ptr an 0) (Ptr a 0) (Ptr a 0)
      inlen m = Ok (tt, m') /\
    cipher fuel key counter nonce (take (Z.to_nat inlen) input) = Ok bytes /\
    m' !! a = Some (bytes ++ drop (Z.to_nat inlen) input) /\
    (forall b, b ∉ ["s"; "block"; "x"] -> b <> a -> m' !! b = m !! b).
Proof.
  intros Hnames Hk Hlk Hn Hln Ha (ls & Hs & Hls) (lb & Hb & Hlb)
    (lx & Hx & Hlx) Hc Hinput Hint Hfuel.
  set (L := Z.to_nat inlen) in *.
  destruct (not_local ak) as (Hks & Hkb & Hkx); [apply Hnames; set_solver|].
  destruct (not_local an) as (Hns & Hnb & Hnx); [apply Hnames; set_solver|].
  assert (Hal : a_not_local a) by (apply not_local, Hnames; set_solver).
  assert (Hcipher : cipher fuel key counter nonce (take L input)
                    = Ok (ChaCha20XOR_bytes key counter nonce (take L input))).
  { apply cipher_run; [done|done|done| |];
      rewrite length_take, Nat.min_l by lia;
      [unfold L, INT_MAX in *; lia|done]. }
  unfold fuel_for in Hfuel.
  assert (Hrun : exists m',
    ChaCha20XOR fuel (Ptr ak 0) counter (Ptr an 0) (Ptr a 0) (Ptr a 0)
      inlen m = Ok (tt, m') /\
    xor_inplace_inv m a key nonce input counter L (blocks L) m').
  { unfold ChaCha20XOR.
    erewrite bind_ok; cycle 1.
    { apply chacha20_init_state_run with (ls := ls) (key := key)
        (nonce := nonce); try done; lia. }
    apply (for_loop_inv
             (xor_inplace_inv m a key nonce input counter L) _ _ _
             (fun t => Z.of_nat (64 * t)) (blocks L)); [done| | | |lia].
    - destruct Hal as (Has & Hab & Hax).
      unfold xor_inplace_inv.
      rewrite Nat.mul_0_r, Nat.min_0_l, drop_0, Z.add_0_r.
      replace (u32 counter) with counter
        by (symmetry; apply Z.mod_small; exact Hc).
      split; [apply lookup_insert_eq|].
      split; [by rewrite lookup_insert_ne|].
      split; [exists lb; by rewrite lookup_insert_ne|].
      split; [exists lx; by rewrite lookup_insert_ne|].
      intros a' Has' _ _ _. by rewrite lookup_insert_ne.
    - intros t m1 Ht Hinv.
      pose proof (blocks_lt _ _ Ht) as Hlt. fold L in Hlt.
      split; [apply Z.ltb_lt; lia|].
      split; [rewrite int32_id by (unfold INT_MIN, INT_MAX in *; lia); lia|].
      apply xor_inplace_inv_step; try done. lia.
    - apply Z.ltb_ge. pose proof (blocks_ge L). lia. }
  destruct Hrun as (m' & Hrun & (_ & Ia & _ & _ & If)).
  exists m', (ChaCha20XOR_bytes key counter nonce (take L input)).
  split; [exact Hrun|]. split; [exact Hcipher|]. split.
  - rewrite Ia. rewrite Nat.min_r by apply blocks_ge.
    rewrite take_ge; [done|].
    rewrite length_ChaCha20XOR_bytes, length_take. lia.
  - intros b Hb' Hba. destruct (not_local b Hb') as (? & ? & ?).
    by apply If.
Qed.

Lemma ChaCha20XOR_in_place_witness :
  exists m' bytes,
    ChaCha20XOR 65 (Ptr "key" 0) 7 (Ptr "nonce" 0) (Ptr "buf" 0)
      (Ptr "buf" 0) 3
      (<["key" := seqZ 0 32]> (<["nonce" := seqZ 0 12]>
       (<["buf" := [1; 2; 3; 4]]>
       (<["s" := replicate 16 0]> (<["block" := replicate 64 0]>
       {["x" := replicate 16 0]}))))) = Ok (tt, m') /\
    cipher 65 (seqZ 0 32) 7 (seqZ 0 12) (take (Z.to_nat 3) [1; 2; 3; 4])
      = Ok bytes /\
    m' !! "buf" = Some (bytes ++ drop (Z.to_nat 3) [1; 2; 3; 4]) /\
    (forall b, b ∉ ["s"; "block"; "x"] -> b <> "buf" ->
       (m' : mem) !! b =
       (<["key" := seqZ 0 32]> (<["nonce" := seqZ 0 12]>
        (<["buf" := [1; 2; 3; 4]]>
        (<["s" := replicate 16 0]> (<["block" := replicate 64 0]>
        {["x" := replicate 16 0]}))) : mem)) !! b).
Proof.
  apply (ChaCha20XOR_in_place 65 _ "key" "nonce" "buf" (seqZ 0 32)
           (seqZ 0 12) [1; 2; 3; 4] 7 3).
  - intros b Hb. apply (bool_decide_unpack _).
    repeat (apply elem_of_cons in Hb as [-> | Hb]; [by vm_compute|]).
    by apply elem_of_nil in Hb.
  - reflexivity.
  - reflexivity.
  - reflexivity.
  - reflexivity.
  - reflexivity.
  - by exists (replicate 16 0).
  - by exists (replicate 64 0).
  - by exists (replicate 16 0).
  - unfold is_u32. lia.
  - vm_compute. lia.
  - unfold INT_MAX. lia.
  - vm_compute. lia.
Defined.

(** ** Buffers shorter than [inlen] *)

Lemma bind_ext {A B} (c : M A) (k1 k2 : A -> M B) (m : mem) :
  (forall a m', k1 a m' = k2 a m') -> bind c k1 m = bind c k2 m.
Proof. intros H. unfold bind. destruct (c m) as [[a m']|e]; [apply H|done]. Qed.

Lemma for_loop_ext (cond : Z -> bool) (next : Z -> Z)
    (body1 body2 : Z -> M bool) :
  (forall j m, cond j = true -> body1 j m = body2 j m) ->
  forall fuel i m,
  for_loop fuel cond next body1 i m = for_loop fuel cond next body2 i m.
Proof.
  intros H. induction fuel as [|fuel IH]; intros i m; [done|]. simpl.
  destruct (cond i) eqn:Hc; [|done].
  unfold bind. rewrite (H i m Hc).
  destruct (body2 i m) as [[[] m']|e]; [done|apply IH|done].
Qed.

(** A loop that fails in the iteration after [k] good ones, invariant
    form. *)
Lemma for_loop_inv_err (Inv : nat -> mem -> Prop) (cond : Z -> bool)
    (next : Z -> Z) (body : Z -> M bool) (idx : nat -> Z) (k : nat)
    (i0 : Z) (m0 : mem) (e : error) :
  i0 = idx 0%nat -> Inv 0%nat m0 ->
  (forall j m, (j < k)%nat -> Inv j m ->
     cond (idx j) = true /\ next (idx j) = idx (S j) /\
     exists m', body (idx j) m = Ok (false, m') /\ Inv (S j) m') ->
  cond (idx k) = true ->
  (forall m, Inv k m -> body (idx k) m = Err e) ->
  forall fuel, (k < fuel)%nat ->
  for_loop fuel cond next body i0 m0 = Err e.
Proof.
  intros -> H0 Hstep Hc He.
  cut (forall d j0 m, (j0 + d = k)%nat -> Inv j0 m ->
         forall fuel, (d < fuel)%nat ->
         for_loop fuel cond next body (idx j0) m = Err e).
  { intros Hgen fuel Hfuel. by apply (Hgen k 0%nat m0). }
  induction d as [|d IH]; intros j0 m Hj Hinv fuel Hfuel;
    (destruct fuel as [|fuel]; [lia|]); simpl.
  - replace j0 with k in * by lia.
    by rewrite Hc, (bind_err _ _ _ _ (He m Hinv)).
  - destruct (Hstep j0 m) as (Hcj & Hn & m' & Hb & Hinv'); [lia|done|].
    rewrite Hcj, (bind_ok _ _ _ _ _ Hb), Hn. apply IH; [lia|done|lia].
Qed.

Lemma bind_ext_l {A B} (c1 c2 : M A) (k : A -> M B) (m : mem) :
  c1 m = c2 m -> bind c1 k m = bind c2 k m.
Proof. intros H. unfold bind. by rewrite H. Qed.

(** In an iteration for a full block the test [j >= inlen] never holds, so
    the iteration does not depend on [inlen]. *)
Lemma ChaCha20XOR_body_inlen (fuel : nat) (s block in_ out : ptr)
    (inlen inlen' i : Z) (m : mem) :
  INT_MIN <= i + 64 <= INT_MAX ->
  i + 64 <= inlen -> i + 64 <= inlen' ->
  ChaCha20XOR_body fuel s block in_ out inlen i m
  = ChaCha20XOR_body fuel s block in_ out inlen' i m.
Proof.
  intros Hi H1 H2. unfold ChaCha20XOR_body, nobreak.
  rewrite (int32_id (i + 64)) by exact Hi.
  apply bind_ext_l. apply bind_ext. intros _ m1.
  apply bind_ext. intros _ m2. apply for_loop_ext.
  intros j m3 Hj. apply Z.ltb_lt in Hj.
  destruct (Z.leb_spec inlen j); [lia|].
  by destruct (Z.leb_spec inlen' j); [lia|].
Qed.

Lemma blocks_full (t : nat) : blocks (64 * t) = t.
Proof.
  unfold blocks. symmetry. apply (Nat.div_unique _ 64 t 63); lia.
Qed.

(** One step of the inner loop inside both arrays. *)
Lemma xor_step (m : mem) (ai ao : string) (input blk pre new old : list Z)
    (i jj : nat) (inlen x k : Z) :
  ai <> ao -> ao <> "block" ->
  m !! ai = Some input -> m !! "block" = Some blk ->
  length pre = i -> Z.of_nat (i + jj) < inlen ->
  input !! (i + jj)%nat = Some x -> blk !! jj = Some k ->
  new !! jj = Some (u8 (Z.lxor x k)) -> (jj < length old)%nat ->
  (if inlen <=? Z.of_nat i + Z.of_nat jj then ret true
   else
     let* a := load (Ptr ai 0) (Z.of_nat i + Z.of_nat jj) in
     let* k := load (Ptr "block" 0)
                 (Z.of_nat i + Z.of_nat jj - Z.of_nat i) in
     store (Ptr ao 0) (Z.of_nat i + Z.of_nat jj) (u8 (Z.lxor a k)) ;;;
     ret false)
    (<[ao := pre ++ take jj new ++ drop jj old]> m)
  = Ok (false, <[ao := pre ++ take (S jj) new ++ drop (S jj) old]> m).
Proof.
  intros Hio Hob Hin Hblk Hpre Hlt Hx Hk Hnew Hold.
  destruct (Z.leb_spec inlen (Z.of_nat i + Z.of_nat jj)) as [Hle|_]; [lia|].
  erewrite bind_ok; cycle 1.
  { apply load_ok with (l := input); [by rewrite lookup_insert_ne|lia|].
    by replace (Z.to_nat (0 + (Z.of_nat i + Z.of_nat jj)))
      with (i + jj)%nat by lia. }
  erewrite bind_ok; cycle 1.
  { apply load_ok with (l := blk); [by rewrite lookup_insert_ne|lia|].
    by replace (Z.to_nat (0 + (Z.of_nat i + Z.of_nat jj - Z.of_nat i)))
      with jj by lia. }
  erewrite bind_ok; cycle 1.
  { apply store_ins. rewrite !length_app, length_take, length_drop, Hpre.
    apply lookup_lt_Some in Hnew. lia. }
  unfold ret. do 2 f_equal. f_equal.
  replace (Z.to_nat (Z.of_nat i + Z.of_nat jj))
    with (length pre + jj)%nat by lia.
  rewrite insert_app_r_alt by lia.
  replace (length pre + jj - length pre)%nat with jj by lia.
  f_equal. by apply fill_step.
Qed.

Lemma lookup_xor_zip (l1 l2 : list Z) (i jj : nat) (x k : Z) :
  l1 !! (i + jj)%nat = Some x -> l2 !! jj = Some k ->
  zip_with (fun a k => u8 (Z.lxor a k)) (drop i l1) l2 !! jj
  = Some (u8 (Z.lxor x k)).
Proof.
  intros H1 H2. rewrite lookup_zip_with, lookup_drop, H1. simpl.
  by rewrite H2.
Qed.

Lemma load_neg (m : mem) (p : ptr) (i : Z) :
  off p + i < 0 -> load p i m = Err OutOfBounds.
Proof.
  intros Hi. unfold load. destruct (m !! base p); [|done].
  by destruct (Z.leb_spec 0 (off p + i)); [lia|].
Qed.

(** The first two statements of the loop body: the keystream block and the
    increment of the counter. *)
Lemma ChaCha20XOR_body_head {A} (fuel : nat) (m : mem)
    (key nonce lb lx : list Z) (c : Z) (k : M A) :
  m !! "s" = Some (init_words key c nonce) ->
  m !! "block" = Some lb -> length lb = 64%nat ->
  m !! "x" = Some lx -> length lx = 16%nat ->
  (64 < fuel)%nat ->
  (chacha20_block fuel (Ptr "s" 0) (Ptr "block" 0) 20 ;;;
   (let* w := load (Ptr "s" 0) 12 in store (Ptr "s" 0) 12 (add32 w 1)) ;;;
   k) m
  = k (<["s" := init_words key (add32 c 1) nonce]>
         (<["block" := block_bytes (init_words key c nonce) 20]>
            (<["x" := block_words (init_words key c nonce) 20]> m))).
Proof.
  intros Hs Hb Hlb Hx Hlx Hfuel.
  set (st := init_words key c nonce) in *.
  erewrite bind_ok; cycle 1.
  { apply chacha20_block_run with (st := st) (lo := lb) (lx := lx);
      [discriminate|discriminate|discriminate|exact Hs
      |apply length_init_words|exact Hb|lia|exact Hx|exact Hlx|lia|].
    change (round_iterations 20) with 10%nat. lia. }
  rewrite (drop_ge lb) by lia. rewrite app_nil_r.
  erewrite bind_ok; cycle 1.
  { erewrite bind_ok; cycle 1.
    { apply load_ok with (l := st); [by rewrite !lookup_insert_ne|lia|].
      apply init_words_counter. }
    apply store_ok with (l := st); [by rewrite !lookup_insert_ne|].
    unfold st. rewrite length_init_words. lia. }
  change (Z.to_nat (0 + 12)) with 12%nat.
  unfold st at 1. by rewrite init_words_set_counter.
Qed.

(** The iteration of the outer loop in which the index [j0], the length of
    the shorter of the two arrays, is reached before [inlen]. *)
Lemma ChaCha20XOR_body_err (fuel : nat) (m : mem) (ai ao : string)
    (key nonce input cur lb lx : list Z) (c inlen : Z) (t j0 : nat) :
  a_not_local ai -> a_not_local ao -> ai <> ao ->
  m !! "s" = Some (init_words key c nonce) ->
  m !! ai = Some input -> m !! ao = Some cur ->
  m !! "block" = Some lb -> length lb = 64%nat ->
  m !! "x" = Some lx -> length lx = 16%nat ->
  j0 = Nat.min (length input) (length cur) ->
  (64 * t <= j0 < 64 * t + 64)%nat -> Z.of_nat j0 < inlen ->
  Z.of_nat (64 * t) + 64 <= INT_MAX ->
  (64 < fuel)%nat ->
  ChaCha20XOR_body fuel (Ptr "s" 0) (Ptr "block" 0) (Ptr ai 0) (Ptr ao 0)
    inlen (Z.of_nat (64 * t)) m = Err OutOfBounds.
Proof.
  intros (His & Hib & Hix) (Hos & Hob & Hox) Hio Hs Hin Hout Hb Hlb Hx Hlx
    Hj0 Ht Hlt Hint Hfuel.
  unfold ChaCha20XOR_body, nobreak. apply bind_err.
  rewrite (ChaCha20XOR_body_head fuel m key nonce lb lx c) by done.
  rewrite (int32_id (Z.of_nat (64 * t) + 64)) by (unfold INT_MIN; lia).
  set (st := init_words key c nonce) in *.
  set (kb := block_bytes st 20).
  assert (Hkb : length kb = 64%nat)
    by apply length_block_bytes, length_init_words.
  set (m2 := <["s" := init_words key (add32 c 1) nonce]> _).
  assert (Hin2 : m2 !! ai = Some input)
    by (unfold m2; by rewrite !lookup_insert_ne).
  assert (Hout2 : m2 !! ao = Some cur)
    by (unfold m2; by rewrite !lookup_insert_ne).
  assert (Hb2 : m2 !! "block" = Some kb).
  { unfold m2. rewrite lookup_insert_ne by done. apply lookup_insert_eq. }
  clearbody m2.
  set (i := (64 * t)%nat) in *.
  set (pre := take i cur).
  set (old := drop i cur).
  set (new := zip_with (fun a k => u8 (Z.lxor a k)) (drop i input) kb).
  assert (Hpre : length pre = i) by (unfold pre; rewrite length_take; lia).
  assert (Hold : length old = (length cur - i)%nat)
    by (unfold old; apply length_drop).
  assert (Hnew : length new = Nat.min (length input - i) 64).
  { unfold new. rewrite length_zip_with, length_drop. lia. }
  apply (for_loop_err _ _ _ (fun jj => Z.of_nat i + Z.of_nat jj)
           (fun jj => <[ao := pre ++ take jj new ++ drop jj old]> m2)
           (j0 - i)); [lia| | | | |lia].
  - cbn beta. rewrite drop_0. change (take 0 new ++ old) with old.
    unfold pre, old. by rewrite take_drop, insert_id.
  - intros jj Hjj. split; [apply Z.ltb_lt; lia|].
    split; [|rewrite int32_id by (unfold INT_MIN; lia); lia].
    destruct (lookup_lt_is_Some_2 input (i + jj)) as [x Hx']; [lia|].
    destruct (lookup_lt_is_Some_2 kb jj) as [k Hk]; [lia|].
    apply xor_step with (input := input) (blk := kb) (x := x) (k := k);
      [exact Hio|exact Hob|exact Hin2|exact Hb2|exact Hpre|lia|exact Hx'
      |exact Hk| |lia].
    exact (lookup_xor_zip input kb i jj x k Hx' Hk).
  - apply Z.ltb_lt. lia.
  - cbn beta.
    destruct (Z.leb_spec inlen (Z.of_nat i + Z.of_nat (j0 - i)))
      as [Hle|_]; [lia|].
    replace (Z.of_nat i + Z.of_nat (j0 - i)) with (Z.of_nat j0) by lia.
    destruct (decide (length input <= j0)%nat) as [Hshort|Hlong].
    + apply bind_err. apply load_none with (l := input);
        [by rewrite lookup_insert_ne|lia|].
      apply lookup_ge_None. lia.
    + destruct (lookup_lt_is_Some_2 input j0) as [x Hx']; [lia|].
      destruct (lookup_lt_is_Some_2 kb (j0 - i)) as [k Hk]; [lia|].
      erewrite bind_ok; cycle 1.
      { apply load_ok with (l := input); [by rewrite lookup_insert_ne|lia|].
        by replace (Z.to_nat (0 + Z.of_nat j0)) with j0 by lia. }
      erewrite bind_ok; cycle 1.
      { apply load_ok with (l := kb); [by rewrite lookup_insert_ne|lia|].
        by replace (Z.to_nat (0 + (Z.of_nat j0 - Z.of_nat i)))
          with (j0 - i)%nat by lia. }
      apply bind_err.
      eapply store_oob; [apply lookup_insert_eq|].
      rewrite !length_app, length_take, length_drop, Hpre, Hold, Hnew. lia.
Qed.

(** The invariant holds when the loop is entered. *)
Lemma xor_inv_init (m : mem) (ai ao : string)
    (key nonce input lo lb lx : list Z) (counter : Z) (L : nat) :
  a_not_local ai -> a_not_local ao -> is_u32 counter ->
  m !! ai = Some input -> m !! ao = Some lo ->
  m !! "block" = Some lb -> length lb = 64%nat ->
  m !! "x" = Some lx -> length lx = 16%nat ->
  xor_inv m ai ao key nonce input lo counter L 0
    (<["s" := init_words key counter nonce]> m).
Proof.
  intros (His & Hib & Hix) (Hos & Hob & Hox) Hc Hi Ho Hb Hlb Hx Hlx.
  unfold xor_inv. rewrite Nat.mul_0_r, Nat.min_0_l, drop_0, Z.add_0_r.
  replace (u32 counter) with counter
    by (symmetry; apply Z.mod_small; exact Hc).
  split; [apply lookup_insert_eq|].
  split; [by rewrite lookup_insert_ne|].
  split; [by rewrite lookup_insert_ne|].
  split; [exists lb; by rewrite lookup_insert_ne|].
  split; [exists lx; by rewrite lookup_insert_ne|].
  intros a Has _ _ _. by rewrite lookup_insert_ne.
Qed.

(** An iteration for one of the first [t0] blocks, all of them inside both
    arrays and before [inlen]. *)
Lemma xor_inv_step_full (fuel : nat) (m m1 : mem) (ai ao : string)
    (key nonce input lo : list Z) (counter inlen : Z) (t0 t : nat) :
  a_not_local ai -> a_not_local ao -> ai <> ao ->
  (64 * t0 <= length input)%nat -> (64 * t0 <= length lo)%nat ->
  Z.of_nat (64 * t0) <= INT_MAX - 63 -> Z.of_nat (64 * t0) <= inlen ->
  (64 < fuel)%nat -> (t < t0)%nat ->
  xor_inv m ai ao key nonce input lo counter (64 * t0) t m1 ->
  exists m2,
    ChaCha20XOR_body fuel (Ptr "s" 0) (Ptr "block" 0) (Ptr ai 0) (Ptr ao 0)
      inlen (Z.of_nat (64 * t)) m1 = Ok (false, m2) /\
    xor_inv m ai ao key nonce input lo counter (64 * t0) (S t) m2.
Proof.
  intros Hai Hao Hio Hinput Hout Hint Hlen Hfuel Ht Hinv.
  rewrite (ChaCha20XOR_body_inlen _ _ _ _ _ inlen (Z.of_nat (64 * t0)))
    by (unfold INT_MIN, INT_MAX in *; lia).
  destruct (xor_inv_step fuel m m1 ai ao key nonce input lo counter
              (Z.of_nat (64 * t0)) t) as (m2 & Hrun & Hinv2);
    rewrite ?Nat2Z.id, ?blocks_full;
    [exact Hai|exact Hao|exact Hio|exact Hinput|exact Hout|exact Hint
    |exact Hfuel|exact Ht|exact Hinv|].
  rewrite Nat2Z.id in Hinv2. by exists m2.
Qed.

(** Below the overflow of the loop index: the call fails in the block that
    holds the end of the shorter array. *)
Lemma ChaCha20XOR_short_buffer_low (fuel : nat) (m : mem)
    (ak an ai ao : string) (key nonce input lo : list Z)
    (counter inlen : Z) :
  xor_call m ak an ai ao key nonce input lo ->
  is_u32 counter ->
  Z.of_nat (Nat.min (length input) (length lo)) < inlen ->
  Z.of_nat (Nat.min (length input) (length lo)) <= INT_MAX - 64 ->
  (fuel_for (Z.to_nat inlen) <= fuel)%nat ->
  ChaCha20XOR fuel (Ptr ak 0) counter (Ptr an 0) (Ptr ai 0) (Ptr ao 0)
    inlen m = Err OutOfBounds.
Proof.
  intros (Hnames & Hio & Hk & Hlk & Hn & Hln & Hi & Ho & (ls & Hs & Hls)
          & (lb & Hb & Hlb) & (lx & Hx & Hlx)) Hc.
  destruct (not_local ak) as (Hks & Hkb & Hkx); [apply Hnames; set_solver|].
  destruct (not_local an) as (Hns & Hnb & Hnx); [apply Hnames; set_solver|].
  assert (Hai : a_not_local ai) by (apply not_local, Hnames; set_solver).
  assert (Hao : a_not_local ao) by (apply not_local, Hnames; set_solver).
  set (j0 := Nat.min (length input) (length lo)).
  intros Hj0 Hlow Hfuel.
  pose proof (Nat.div_mod_eq j0 64) as Hdiv.
  pose proof (Nat.mod_upper_bound j0 64 ltac:(lia)) as Hmod.
  set (t0 := (j0 / 64)%nat) in *.
  assert (Ht0 : (t0 < blocks (Z.to_nat inlen))%nat).
  { pose proof (blocks_ge (Z.to_nat inlen)). lia. }
  unfold fuel_for in Hfuel. unfold INT_MAX in Hlow.
  unfold ChaCha20XOR.
  erewrite bind_ok; cycle 1.
  { apply chacha20_init_state_run with (ls := ls) (key := key)
      (nonce := nonce); try done; lia. }
  apply (for_loop_inv_err
           (xor_inv m ai ao key nonce input lo counter (64 * t0)) _ _ _
           (fun t => Z.of_nat (64 * t)) t0); [done| | | | |lia].
  - by apply xor_inv_init with (lb := lb) (lx := lx).
  - intros t m1 Ht Hinv.
    split; [apply Z.ltb_lt; lia|].
    split; [rewrite int32_id by (unfold INT_MIN, INT_MAX; lia); lia|].
    apply xor_inv_step_full;
      [exact Hai|exact Hao|exact Hio|unfold j0 in *; lia
      |unfold j0 in *; lia|unfold INT_MAX; lia|lia|lia|exact Ht|exact Hinv].
  - apply Z.ltb_lt. lia.
  - intros m1 (Is & Ii & Io & (lb1 & Ib & Hlb1) & (lx1 & Ix & Hlx1) & _).
    eapply (ChaCha20XOR_body_err fuel m1 ai ao key nonce input _ lb1 lx1
              _ inlen t0 j0);
      [exact Hai|exact Hao|exact Hio|exact Is|exact Ii|exact Io|exact Ib
      |exact Hlb1|exact Ix|exact Hlx1| |lia|exact Hj0|unfold INT_MAX; lia
      |lia].
    rewrite !length_app, length_take, length_drop,
      length_ChaCha20XOR_bytes, length_take.
    unfold j0 in *. lia.
Qed.

(** ** The overflow of the loop index

    The block that starts at [i = INT_MAX - 63] is the first in which
    [i + 64] passes [INT_MAX].  With the two's complement result the test
    [j < i + 64] fails at once, [i += 64] gives [INT_MIN], and the next
    block reads [in[INT_MIN]]. *)

Lemma ChaCha20XOR_body_skip (fuel : nat) (m : mem) (in_ out : ptr)
    (key nonce lb lx : list Z) (c inlen i : Z) :
  m !! "s" = Some (init_words key c nonce) ->
  m !! "block" = Some lb -> length lb = 64%nat ->
  m !! "x" = Some lx -> length lx = 16%nat ->
  int32 (i + 64) <= i ->
  (64 < fuel)%nat ->
  ChaCha20XOR_body fuel (Ptr "s" 0) (Ptr "block" 0) in_ out inlen i m
  = Ok (false,
        <["s" := init_words key (add32 c 1) nonce]>
          (<["block" := block_bytes (init_words key c nonce) 20]>
             (<["x" := block_words (init_words key c nonce) 20]> m))).
Proof.
  intros Hs Hb Hlb Hx Hlx Hi Hfuel.
  unfold ChaCha20XOR_body. apply nobreak_ok.
  rewrite (ChaCha20XOR_body_head fuel m key nonce lb lx c) by done.
  destruct fuel as [|fuel]; [lia|]. cbn [for_loop].
  by destruct (Z.ltb_spec i (int32 (i + 64))); [lia|].
Qed.

Lemma ChaCha20XOR_body_neg (fuel : nat) (m : mem) (in_ out : ptr)
    (key nonce lb lx : list Z) (c inlen i : Z) :
  m !! "s" = Some (init_words key c nonce) ->
  m !! "block" = Some lb -> length lb = 64%nat ->
  m !! "x" = Some lx -> length lx = 16%nat ->
  i < int32 (i + 64) -> i < inlen -> off in_ + i < 0 ->
  (64 < fuel)%nat ->
  ChaCha20XOR_body fuel (Ptr "s" 0) (Ptr "block" 0) in_ out inlen i m
  = Err OutOfBounds.
Proof.
  intros Hs Hb Hlb Hx Hlx Hi Hlt Hneg Hfuel.
  unfold ChaCha20XOR_body, nobreak. apply bind_err.
  rewrite (ChaCha20XOR_body_head fuel m key nonce lb lx c) by done.
  destruct fuel as [|fuel]; [lia|]. cbn [for_loop].
  destruct (Z.ltb_spec i (int32 (i + 64))); [|lia].
  apply bind_err.
  destruct (Z.leb_spec inlen i); [lia|].
  apply bind_err. by apply load_neg.
Qed.

(** With [inlen > INT_MAX - 63] and arrays that hold the [INT_MAX - 63]
    bytes before the overflow, the call ends in the read of [in[INT_MIN]],
    after [T = (INT_MAX - 63) / 64] full blocks and the block at
    [INT_MAX - 63], in which nothing is written. *)
Lemma ChaCha20XOR_overflow_blocks (T fuel : nat) (m : mem)
    (ak an ai ao : string) (key nonce input lo : list Z)
    (counter inlen : Z) :
  Z.of_nat (64 * T) = INT_MAX - 63 ->
  xor_call m ak an ai ao key nonce input lo ->
  is_u32 counter ->
  INT_MAX - 63 < inlen ->
  INT_MAX - 63 <= Z.of_nat (length input) ->
  INT_MAX - 63 <= Z.of_nat (length lo) ->
  (64 < fuel)%nat -> (S T < fuel)%nat ->
  ChaCha20XOR fuel (Ptr ak 0) counter (Ptr an 0) (Ptr ai 0) (Ptr ao 0)
    inlen m = Err OutOfBounds.
Proof.
  intros HT (Hnames & Hio & Hk & Hlk & Hn & Hln & Hi & Ho & (ls & Hs & Hls)
             & (lb & Hb & Hlb) & (lx & Hx & Hlx)) Hc.
  destruct (not_local ak) as (Hks & Hkb & Hkx); [apply Hnames; set_solver|].
  destruct (not_local an) as (Hns & Hnb & Hnx); [apply Hnames; set_solver|].
  assert (Hai : a_not_local ai) by (apply not_local, Hnames; set_solver).
  assert (Hao : a_not_local ao) by (apply not_local, Hnames; set_solver).
  intros Hlen Hinput Hout Hfuel HfuelT.
  unfold INT_MAX in HT, Hlen, Hinput, Hout.
  assert (Hidx : forall t, (t <= T)%nat ->
            int32 (Z.of_nat (64 * t)) = Z.of_nat (64 * t)).
  { intros t Ht. apply int32_id. unfold INT_MIN, INT_MAX. lia. }
  unfold ChaCha20XOR.
  erewrite bind_ok; cycle 1.
  { apply chacha20_init_state_run with (ls := ls) (key := key)
      (nonce := nonce); try done; lia. }
  apply (for_loop_inv_err
           (xor_inv m ai ao key nonce input lo counter (64 * T)) _ _ _
           (fun t => int32 (Z.of_nat (64 * t))) (S T));
    [by rewrite Hidx by lia| | | | |lia].
  - by apply xor_inv_init with (lb := lb) (lx := lx).
  - intros t m1 Ht Hinv. rewrite (Hidx t) by lia.
    split; [apply Z.ltb_lt; lia|].
    split; [f_equal; lia|].
    destruct (decide (t < T)%nat) as [Hfull|Hlast].
    + apply xor_inv_step_full;
        [exact Hai|exact Hao|exact Hio|lia|lia|unfold INT_MAX; lia|lia
        |exact Hfuel|exact Hfull|exact Hinv].
    + assert (t = T) as -> by lia.
      destruct Hinv as (Is & Ii & Io & (lb1 & Ib & Hlb1)
                        & (lx1 & Ix & Hlx1) & If).
      destruct Hai as (His & Hib & Hix). destruct Hao as (Hos & Hob & Hox).
      eexists. split.
      { apply (ChaCha20XOR_body_skip fuel m1 _ _ key nonce lb1 lx1);
          [exact Is|exact Ib|exact Hlb1|exact Ix|exact Hlx1| |exact Hfuel].
        rewrite int32_wrap by (unfold INT_MAX; lia). lia. }
      unfold xor_inv. rewrite add32_counter.
      rewrite Nat.min_l in Io by lia. rewrite Nat.min_r by lia.
      split; [apply lookup_insert_eq|].
      split; [by rewrite !lookup_insert_ne|].
      split; [by rewrite !lookup_insert_ne|].
      split.
      { eexists. split.
        - rewrite lookup_insert_ne by done. apply lookup_insert_eq.
        - apply length_block_bytes, length_init_words. }
      split.
      { eexists. split.
        - rewrite !lookup_insert_ne by done. apply lookup_insert_eq.
        - apply length_block_words, length_init_words. }
      intros a Has Hab Hax Haa. rewrite !lookup_insert_ne by done.
      by apply If.
  - rewrite int32_wrap by (unfold INT_MAX; lia). apply Z.ltb_lt. lia.
  - intros m1 (Is & _ & _ & (lb1 & Ib & Hlb1) & (lx1 & Ix & Hlx1) & _).
    rewrite int32_wrap by (unfold INT_MAX; lia).
    apply (ChaCha20XOR_body_neg fuel m1 _ _ key nonce lb1 lx1
             (u32 (counter + Z.of_nat (S T))));
      [exact Is|exact Ib|exact Hlb1|exact Ix|exact Hlx1| | | |exact Hfuel].
    + rewrite int32_id by (unfold INT_MIN, INT_MAX; lia). lia.
    + lia.
    + simpl. lia.
Qed.

Lemma ChaCha20XOR_int_overflow (fuel : nat) (m : mem)
    (ak an ai ao : string) (key nonce input lo : list Z)
    (counter inlen : Z) :
  xor_call m ak an ai ao key nonce input lo ->
  is_u32 counter ->
  INT_MAX - 63 < inlen ->
  INT_MAX - 63 <= Z.of_nat (length input) ->
  INT_MAX - 63 <= Z.of_nat (length lo) ->
  (fuel_for (Z.to_nat inlen) <= fuel)%nat ->
  ChaCha20XOR fuel (Ptr ak 0) counter (Ptr an 0) (Ptr ai 0) (Ptr ao 0)
    inlen m = Err OutOfBounds.
Proof.
  intros Hcall Hc Hlen Hinput Hout Hfuel.
  assert (HT : Z.of_nat (64 * Z.to_nat 33554431) = INT_MAX - 63).
  { rewrite Nat2Z.inj_mul, Z2Nat.id by lia. reflexivity. }
  assert (HfT : (S (Z.to_nat 33554431) < fuel)%nat).
  { unfold fuel_for in Hfuel. unfold INT_MAX in Hlen.
    pose proof (blocks_ge (Z.to_nat inlen)). lia. }
  apply (ChaCha20XOR_overflow_blocks (Z.to_nat 33554431) fuel m ak an ai ao
           key nonce input lo counter inlen HT Hcall Hc Hlen Hinput Hout);
    [|exact HfT].
  unfold fuel_for in Hfuel. lia.
Qed.

(** X13. [ChaCha20XOR] does not check the lengths of [in] and [out]
    against [inlen]: when one of the two arrays has fewer than [inlen]
    elements, the call reads or writes past the end of the shorter one. *)
Theorem ChaCha20XOR_short_buffer (fuel : nat) (m : mem)
    (ak an ai ao : string) (key nonce input lo : list Z)
    (counter inlen : Z) :
  xor_call m ak an ai ao key nonce input lo ->
  is_u32 counter ->
  Z.of_nat (length input) < inlen \/ Z.of_nat (length lo) < inlen ->
  (fuel_for (Z.to_nat inlen) <= fuel)%nat ->
  ChaCha20XOR fuel (Ptr ak 0) counter (Ptr an 0) (Ptr ai 0) (Ptr ao 0)
    inlen m = Err OutOfBounds.
Proof.
  intros Hcall Hc Hlens Hfuel.
  destruct (Z.le_gt_cases (Z.of_nat (Nat.min (length input) (length lo)))
              (INT_MAX - 64)) as [Hlow|Hhigh].
  - apply ChaCha20XOR_short_buffer_low with (key := key) (nonce := nonce)
      (input := input) (lo := lo); [exact Hcall|exact Hc|lia|exact Hlow
      |exact Hfuel].
  - apply ChaCha20XOR_int_overflow with (key := key) (nonce := nonce)
      (input := input) (lo := lo); [exact Hcall|exact Hc|lia|lia|lia
      |exact Hfuel].
Qed.

Lemma ChaCha20XOR_short_buffer_witness :
  ChaCha20XOR 65 (Ptr "key" 0) 0 (Ptr "nonce" 0) (Ptr "in" 0) (Ptr "out" 0) 3
    (<["key" := seqZ 0 32]> (<["nonce" := seqZ 0 12]>
     (<["in" := [1; 2; 3]]> (<["out" := [9; 9]]>
     (<["s" := replicate 16 0]> (<["block" := replicate 64 0]>
     {["x" := replicate 16 0]}))))))
  = Err OutOfBounds.
Proof.
  apply (ChaCha20XOR_short_buffer 65 _ "key" "nonce" "in" "out"
           (seqZ 0 32) (seqZ 0 12) [1; 2; 3] [9; 9] 0 3).
  - split; [|repeat split; try done;
             [by exists (replicate 16 0)|by exists (replicate 64 0)
             |by exists (replicate 16 0)]].
    intros a Ha. apply (bool_decide_unpack _).
    repeat (apply elem_of_cons in Ha as [-> | Ha]; [by vm_compute|]).
    by apply elem_of_nil in Ha.
  - unfold is_u32. lia.
  - right. simpl. lia.
  - vm_compute. lia.
Defined.

(** ** The debug helper *)

Lemma putchars_run (m : mem) (out cs : list Z) :
  m !! "stdout" = Some out ->
  putchars cs m = Ok (tt, <["stdout" := out ++ cs]> m).
Proof. intros H. unfold putchars. by rewrite H. Qed.

Lemma printf_02x_byte (b : Z) :
  is_u8 b ->
  printf_02x_chars b = [hex_digit (b / 16); hex_digit (b mod 16); 32].
Proof.
  intros Hb. unfold is_u8 in Hb. unfold printf_02x_chars.
  cbn [hex_digits].
  destruct (Z.ltb_spec b 16) as [Hlt|Hge].
  - rewrite Z.div_small, Z.mod_small by lia. reflexivity.
  - destruct (Z.ltb_spec (b / 16) 16) as [_|Hbig].
    + reflexivity.
    + exfalso. assert (b / 16 < 16); [|lia].
      apply Z.div_lt_upper_bound; lia.
Qed.

Lemma unhex_hex_digit (d : Z) : 0 <= d < 16 -> unhex (hex_digit d) = d.
Proof.
  intros Hd. unfold unhex, hex_digit.
  destruct (Z.ltb_spec d 10);
    [destruct (Z.ltb_spec (48 + d) 58)|destruct (Z.ltb_spec (87 + d) 58)];
    lia.
Qed.

Lemma read_hex_dump (bs : list Z) :
  Forall is_u8 bs ->
  length (concat (printf_02x_chars <$> bs)) = (3 * length bs)%nat /\
  read_hex (concat (printf_02x_chars <$> bs)) = bs.
Proof.
  induction 1 as [|b bs Hb _ [IHl IHr]]; [done|].
  rewrite fmap_cons. cbn [concat]. rewrite (printf_02x_byte b Hb).
  cbn [app length read_hex]. rewrite IHl, IHr. split; [lia|].
  f_equal. unfold is_u8 in Hb.
  rewrite !unhex_hex_digit.
  - pose proof (Z.div_mod b 16). lia.
  - apply Z.mod_pos_bound. lia.
  - split; [apply Z.div_pos; lia|apply Z.div_lt_upper_bound; lia].
Qed.

Lemma concat_dump_step (bs : list Z) (k : nat) (v : Z) :
  bs !! k = Some v ->
  concat (printf_02x_chars <$> take (S k) bs)
  = concat (printf_02x_chars <$> take k bs) ++ printf_02x_chars v.
Proof.
  intros Hk. rewrite (take_S_r _ _ _ Hk), fmap_app, concat_app.
  cbn [fmap list_fmap concat]. by rewrite app_nil_r.
Qed.

Lemma hex_print_step (m : mem) (a : string) (l out0 bs : list Z)
    (s : Z) (k : nat) (v : Z) :
  a <> "stdout" -> m !! a = Some l -> 0 <= s ->
  l !! Z.to_nat (s + Z.of_nat k) = Some v -> bs !! k = Some v ->
  nobreak (let* v := load (Ptr a 0) (s + Z.of_nat k) in
           putchars (printf_02x_chars v))
    (<["stdout" := out0 ++ concat (printf_02x_chars <$> take k bs)]> m)
  = Ok (false, <["stdout" := out0
                   ++ concat (printf_02x_chars <$> take (S k) bs)]> m).
Proof.
  intros Ha Hl Hs Hv Hbs. apply nobreak_ok.
  erewrite bind_ok; cycle 1.
  { apply load_ok with (l := l); [by rewrite lookup_insert_ne|lia|].
    by rewrite Z.add_0_l. }
  erewrite putchars_run by apply lookup_insert_eq.
  rewrite insert_insert_eq, <- app_assoc.
  by rewrite (concat_dump_step _ _ _ Hbs).
Qed.

(** The loop of [hex_print] on a range inside the array. *)
Lemma hex_print_loop_run (fuel : nat) (m : mem) (a : string)
    (l out0 : list Z) (s len : Z) :
  a <> "stdout" -> m !! a = Some l -> m !! "stdout" = Some out0 ->
  0 <= s -> len <= Z.of_nat (length l) ->
  (Z.to_nat (len - s) < fuel)%nat ->
  for_loop fuel (fun i => i <? len) (fun i => i + 1)
    (fun i => nobreak (let* v := load (Ptr a 0) i in
                       putchars (printf_02x_chars v)))
    s m
  = Ok (tt, <["stdout" := out0 ++ concat (printf_02x_chars <$>
                take (Z.to_nat (len - s)) (drop (Z.to_nat s) l))]> m).
Proof.
  intros Ha Hl Hout Hs Hlen Hfuel.
  set (n := Z.to_nat (len - s)) in *.
  set (bs := drop (Z.to_nat s) l).
  apply (for_loop_run _ _ _ (fun k => s + Z.of_nat k)
           (fun k => <["stdout" := out0
                         ++ concat (printf_02x_chars <$> take k bs)]> m) n);
    [lia| | | |done].
  - cbn beta. rewrite take_0. cbn [fmap list_fmap concat].
    by rewrite app_nil_r, insert_id.
  - intros k Hk. split; [apply Z.ltb_lt; lia|]. split; [|lia].
    destruct (lookup_lt_is_Some_2 l (Z.to_nat (s + Z.of_nat k))) as [v Hv];
      [lia|].
    apply hex_print_step with (l := l) (v := v); [done|done|done|done|].
    unfold bs. rewrite lookup_drop, <- Hv. f_equal. lia.
  - left. split; [apply Z.ltb_ge; lia|]. reflexivity.
Qed.

Lemma hex_digit_lower (d : Z) :
  0 <= d < 16 -> hex_digit d = lower_hex !!! Z.to_nat d.
Proof.
  intros Hd. rewrite <- (Z2Nat.id d) at 1 by lia.
  assert (Hn : (Z.to_nat d < 16)%nat) by lia.
  revert Hn. generalize (Z.to_nat d). intros n Hn.
  do 16 (destruct n as [|n]; [reflexivity|]). lia.
Qed.

Lemma hex_dump_printf (bs : list Z) :
  Forall is_u8 bs -> concat (printf_02x_chars <$> bs) = hex_dump bs.
Proof.
  unfold hex_dump. induction 1 as [|b bs Hb _ IH]; [done|].
  rewrite !fmap_cons. cbn [concat]. rewrite IH, (printf_02x_byte b Hb).
  unfold is_u8 in Hb.
  rewrite !hex_digit_lower; [done| |].
  - apply Z.mod_pos_bound. lia.
  - split; [apply Z.div_pos; lia|apply Z.div_lt_upper_bound; lia].
Qed.

(** X14. [hex_print(pv, s, len)] on a range inside a byte array prints the
    bytes at the indices [s] to [len - 1], so [len - s] bytes and not [len]:
    for each byte the two lower-case hexadecimal digits of its value and a
    space, then two newlines.  The bytes can be read back from these
    [3 * (len - s)] characters, and nothing but the output stream
    changes. *)
Theorem hex_print_dump (fuel : nat) (m : mem) (a : string)
    (l out0 : list Z) (s len : Z) :
  a <> "stdout" -> m !! a = Some l -> m !! "stdout" = Some out0 ->
  0 <= s -> len < 2 ^ 16 -> len <= Z.of_nat (length l) ->
  Forall is_u8 (take (Z.to_nat (len - s)) (drop (Z.to_nat s) l)) ->
  (Z.to_nat (len - s) < fuel)%nat ->
  let bytes := take (Z.to_nat (len - s)) (drop (Z.to_nat s) l) in
  hex_print fuel (Some (Ptr a 0)) s len m
  = Ok (tt, <["stdout" := out0 ++ hex_dump bytes ++ [10; 10]]> m) /\
  length (hex_dump bytes) = (3 * Z.to_nat (len - s))%nat /\
  read_hex (hex_dump bytes) = bytes.
Proof.
  intros Ha Hl Hout Hs _ Hlen Hbytes Hfuel bs.
  fold bs in Hbytes.
  destruct (read_hex_dump bs Hbytes) as [Hlength Hread].
  rewrite (hex_dump_printf bs Hbytes) in Hlength, Hread.
  split; [|split; [|exact Hread]].
  - unfold hex_print.
    erewrite bind_ok
      by (apply hex_print_loop_run with (l := l) (out0 := out0); done).
    erewrite putchars_run by apply lookup_insert_eq.
    fold bs. rewrite (hex_dump_printf bs Hbytes).
    by rewrite insert_insert_eq, <- app_assoc.
  - rewrite Hlength. unfold bs.
    rewrite length_take, length_drop. lia.
Qed.

Lemma hex_print_dump_witness :
  hex_print 3 (Some (Ptr "buf" 0)) 1 3
    (<["buf" := [0; 10; 255; 7]]> {["stdout" := [62]]})
  = Ok (tt, <["stdout" := [62] ++ [48; 97; 32; 102; 102; 32] ++ [10; 10]]>
              (<["buf" := [0; 10; 255; 7]]> {["stdout" := [62]]})) /\
  read_hex [48; 97; 32; 102; 102; 32] = [10; 255].
Proof.
  destruct (hex_print_dump 3
              (<["buf" := [0; 10; 255; 7]]> {["stdout" := [62]]}) "buf"
              [0; 10; 255; 7] [62] 1 3) as (Hrun & _ & Hread).
  - discriminate.
  - reflexivity.
  - reflexivity.
  - lia.
  - lia.
  - simpl. lia.
  - by apply (bool_decide_unpack _); vm_compute.
  - simpl. lia.
  - split; [exact Hrun|exact Hread].
Defined.

(** X15. With [len <= s] the loop of [hex_print] does not run: whatever
    the pointer is, even one into no array, nothing is read and only the
    two newlines are printed.  With a null pointer the output is [NULL] and
    the two newlines, whatever [s] and [len] are. *)
Theorem hex_print_nothing_to_print (fuel : nat) (m : mem) (pv : option ptr)
    (out0 : list Z) (s len : Z) :
  m !! "stdout" = Some out0 ->
  pv = None \/ (len <= s /\ (0 < fuel)%nat) ->
  hex_print fuel pv s len m
  = Ok (tt, <["stdout" := out0
                ++ match pv with Some _ => [] | None => NULL_chars end
                ++ newlines]> m).
Proof.
  intros Hout Hcase. unfold hex_print.
  destruct pv as [p|].
  - destruct Hcase as [|[Hlen Hfuel]]; [done|].
    destruct fuel as [|fuel]; [lia|]. cbn [for_loop].
    destruct (Z.ltb_spec s len); [lia|].
    erewrite bind_ok by reflexivity.
    by rewrite (putchars_run _ _ _ Hout).
  - erewrite bind_ok by apply (putchars_run _ _ _ Hout).
    erewrite putchars_run by apply lookup_insert_eq.
    by rewrite insert_insert_eq, <- app_assoc.
Qed.

Lemma hex_print_nothing_to_print_witness :
  hex_print 1 (Some (Ptr "gone" 5)) 4 4 {["stdout" := [62]]}
  = Ok (tt, <["stdout" := [62] ++ [] ++ newlines]> {["stdout" := [62]]}).
Proof.
  apply (hex_print_nothing_to_print 1 {["stdout" := [62]]}
           (Some (Ptr "gone" 5)) [62] 4 4).
  - reflexivity.
  - right. split; lia.
Defined.

(** X16. The third argument of [hex_print] is the index at which the dump
    stops and is not checked against the array: with [s < len] and an
    array of fewer than [len] elements, the call reads past the end. *)
Theorem hex_print_past_the_end (fuel : nat) (m : mem) (a : string)
    (l out0 : list Z) (s len : Z) :
  a <> "stdout" -> m !! a = Some l -> m !! "stdout" = Some out0 ->
  0 <= s < len -> Z.of_nat (length l) < len ->
  (Z.to_nat (len - s) < fuel)%nat ->
  hex_print fuel (Some (Ptr a 0)) s len m = Err OutOfBounds.
Proof.
  intros Ha Hl Hout Hs Hlen Hfuel. unfold hex_print. apply bind_err.
  set (bs := drop (Z.to_nat s) l).
  set (k := Z.to_nat (Z.of_nat (length l) - s)).
  apply (for_loop_err _ _ _ (fun j => s + Z.of_nat j)
           (fun j => <["stdout" := out0
                         ++ concat (printf_02x_chars <$> take j bs)]> m) k);
    [lia| | | | |lia].
  - cbn beta. rewrite take_0. cbn [fmap list_fmap concat].
    by rewrite app_nil_r, insert_id.
  - intros j Hj. split; [apply Z.ltb_lt; lia|]. split; [|lia].
    destruct (lookup_lt_is_Some_2 l (Z.to_nat (s + Z.of_nat j))) as [v Hv];
      [lia|].
    apply hex_print_step with (l := l) (v := v); [done|done|lia|done|].
    unfold bs. rewrite lookup_drop, <- Hv. f_equal. lia.
  - apply Z.ltb_lt. lia.
  - cbn beta. unfold nobreak. apply bind_err, bind_err.
    apply load_none with (l := l); [by rewrite lookup_insert_ne|lia|].
    apply lookup_ge_None. lia.
Qed.

Lemma hex_print_past_the_end_witness :
  hex_print 5 (Some (Ptr "buf" 0)) 1 4
    (<["buf" := [0; 10; 255]]> {["stdout" := [62]]})
  = Err OutOfBounds.
Proof.
  apply (hex_print_past_the_end 5 _ "buf" [0; 10; 255] [62] 1 4).
  - discriminate.
  - reflexivity.
  - reflexivity.
  - lia.
  - simpl. lia.
  - simpl. lia.
Defined.

(** ** Inputs of more than [INT_MAX - 63] bytes

    [inlen = INT_MAX - 62 = 2147483585] is a value of [int], and the
    smallest for which the loop index of [ChaCha20XOR] overflows.  The
    statements above stop at [INT_MAX - 63]; the ones below run the call
    on [INT_MAX - 62] zero bytes, with arrays of that length. *)

Lemma cipher_int_overflow (fuel : nat) (key nonce input : list Z)
    (counter : Z) :
  length key = 32%nat -> length nonce = 12%nat -> is_u32 counter ->
  INT_MAX - 63 < Z.of_nat (length input) ->
  (fuel_for (length input) <= fuel)%nat ->
  cipher fuel key counter nonce input = Err OutOfBounds.
Proof.
  intros Hk Hn Hc Hlen Hfuel. unfold cipher.
  rewrite (ChaCha20XOR_int_overflow fuel _ "key" "nonce" "in" "out" key
             nonce input (replicate (length input) 0)); [done| |done|lia|lia
             |rewrite length_replicate; lia|by rewrite Nat2Z.id].
  split; [|repeat split; try done;
           [by exists (replicate 16 0)|by exists (replicate 64 0)
           |by exists (replicate 16 0)]].
  intros a Ha. apply (bool_decide_unpack _).
  repeat (apply elem_of_cons in Ha as [-> | Ha]; [by vm_compute|]).
  by apply elem_of_nil in Ha.
Qed.

Lemma length_overflow_zeros :
  Z.of_nat (length overflow_zeros) = INT_MAX - 62.
Proof.
  unfold overflow_zeros, overflow_len, INT_MAX.
  rewrite length_replicate. lia.
Qed.

Lemma cipher_overflow_run (fuel : nat) :
  (fuel_for (Z.to_nat overflow_len) <= fuel)%nat ->
  cipher fuel (replicate 32 0) 0 (replicate 12 0) overflow_zeros
  = Err OutOfBounds.
Proof.
  intros Hfuel. pose proof length_overflow_zeros as Hlen.
  apply cipher_int_overflow.
  - reflexivity.
  - reflexivity.
  - unfold is_u32. lia.
  - lia.
  - unfold overflow_zeros. rewrite length_replicate. exact Hfuel.
Qed.

Lemma caller_store_call (key nonce input lo : list Z) :
  length key = 32%nat -> length nonce = 12%nat ->
  xor_call
    (<["key" := key]> (<["nonce" := nonce]>
     (<["in" := input]> (<["out" := lo]>
     (<["s" := replicate 16 0]> (<["block" := replicate 64 0]>
     {["x" := replicate 16 0]}))))))
    "key" "nonce" "in" "out" key nonce input lo.
Proof.
  intros Hk Hn.
  split; [|repeat split; try done;
           [by exists (replicate 16 0)|by exists (replicate 64 0)
           |by exists (replicate 16 0)]].
  intros a Ha. apply (bool_decide_unpack _).
  repeat (apply elem_of_cons in Ha as [-> | Ha]; [by vm_compute|]).
  by apply elem_of_nil in Ha.
Qed.

Lemma overflow_store_call :
  xor_call overflow_store "key" "nonce" "in" "out" (replicate 32 0)
    (replicate 12 0) overflow_zeros overflow_zeros.
Proof.
  unfold overflow_store. apply caller_store_call; reflexivity.
Qed.

Lemma ChaCha20XOR_overflow_run (fuel : nat) :
  (fuel_for (Z.to_nat overflow_len) <= fuel)%nat ->
  ChaCha20XOR fuel (Ptr "key" 0) 0 (Ptr "nonce" 0) (Ptr "in" 0)
    (Ptr "out" 0) overflow_len overflow_store
  = Err OutOfBounds.
Proof.
  intros Hfuel. pose proof length_overflow_zeros as Hlen.
  apply ChaCha20XOR_int_overflow with (key := replicate 32 0)
    (nonce := replicate 12 0) (input := overflow_zeros)
    (lo := overflow_zeros).
  - exact overflow_store_call.
  - unfold is_u32. lia.
  - unfold overflow_len. lia.
  - lia.
  - lia.
  - exact Hfuel.
Qed.





